(** * PyGamePiano: the timeline builder, the playback loop and the sample
      normaliser, embedded from [PianoTest.py] and [build_pianov6.py].

    Python floats are modelled by exact rationals ([Q]): every test the
    programs perform on a time is a comparison, and the constants they
    use (0.1, 2.0, 8, 1) are exact in [Q].  Where the source rounds to a
    machine format (the float32 products of [normalize_audio]) the
    rounding is a parameter about which nothing is assumed. *)

From Stdlib Require Import ZArith QArith Qround Qabs Lqa Lia List Bool Sorted.
From Stdlib Require Import Ascii String.
From stdpp Require Import gmap.
Import ListNotations.

Local Open Scope Q_scope.

(** ** Comparisons on times *)

(** [a > b] and [a < b] on floats, as boolean tests. *)
Definition Qgt_bool (a b : Q) : bool := negb (Qle_bool a b).
Definition Qlt_bool (a b : Q) : bool := negb (Qle_bool b a).

(** ** build_pianov6.py *)

Definition TARGET_PEAK : Q := 9 # 10.

(** [np.max] of an array: [None] stands for the [ValueError] that numpy
    raises on a zero-size array. *)
Definition qmax (m y : Q) : Q := if Qle_bool m y then y else m.

Definition np_max (a : list Q) : option Q :=
  match a with
  | [] => None
  | x :: r => Some (fold_left qmax r x)
  end.

(** [np.max(np.abs(float_data))] for the samples [data]. *)
Definition peak (data : list Z) : option Q :=
  np_max (map Qabs (map inject_Z data)).

(** [np.clip(x, lo, hi)] on one element. *)
Definition clip (lo hi x : Q) : Q :=
  if Qlt_bool x lo then lo else if Qgt_bool x hi then hi else x.

(** Conversion of a float to an integer: the fractional part is dropped
    (rounding toward zero). *)
Definition Qtrunc (x : Q) : Z :=
  if Qle_bool 0 x then Qfloor x else Qceiling x.

(** A 16-bit signed integer keeps the low 16 bits of a value. *)
Definition wrap16 (z : Z) : Z := ((z + 32768) mod 65536 - 32768)%Z.

(** [.astype(np.int16)] on one element. *)
Definition astype_int16 (x : Q) : Z := wrap16 (Qtrunc x).

Section Normalize.
(** Rounding of an exact arithmetic result to the floating-point format
    the source computes in. *)
Variable fl : Q -> Q.

(** [gain = (32767 * TARGET_PEAK) / current_max] *)
Definition gain (current_max : Q) : Q :=
  fl (fl (32767 * TARGET_PEAK) / current_max).

Definition normalize_audio (data : list Z) : option (list Z) :=
  let float_data := map inject_Z data in
  match np_max (map Qabs float_data) with
  | None => None
  | Some current_max =>
      if Qeq_bool current_max 0 then Some data
      else
        let normalized := map (fun x => fl (x * gain current_max)) float_data in
        Some (map astype_int16 (map (clip (-32767) 32767) normalized))
  end.
End Normalize.

(** *** File names

    A Python [str] is modelled as the list of its characters, each a code
    point below 256: the properties below speak of names written with
    such characters only. *)
Definition str : Type := list ascii.

Definition lit (s : string) : str := list_ascii_of_string s.

Definition code (c : ascii) : Z := Z.of_N (N_of_ascii c).

(** The characters [int()] reads as decimal digits: [0] to [9]. *)
Definition is_decimal (c : ascii) : bool := (48 <=? code c)%Z && (code c <=? 57)%Z.

(** The characters for which [str.isdigit] holds: the decimal digits and
    the superscript digits two, three and one. *)
Definition is_digit (c : ascii) : bool :=
  is_decimal c || existsb (Z.eqb (code c)) [178; 179; 185]%Z.

(** The characters that [int()] strips as white space. *)
Definition is_space (c : ascii) : bool :=
  existsb (Z.eqb (code c)) [9; 10; 11; 12; 13; 32; 133; 160]%Z.

(** [s.isdigit()] *)
Definition isdigit (s : str) : bool :=
  negb (Nat.eqb (length s) 0) && forallb is_digit s.

(** [s.startswith(p)] *)
Fixpoint startswith (s p : str) : bool :=
  match p, s with
  | [], _ => true
  | c :: p', x :: s' => Ascii.eqb c x && startswith s' p'
  | _ :: _, [] => false
  end.

(** [p in s] *)
Fixpoint contains (s p : str) : bool :=
  startswith s p || match s with [] => false | _ :: s' => contains s' p end.

(** [s.endswith(p)] *)
Definition endswith (s p : str) : bool := startswith (rev s) (rev p).

(** On a reversed name, what precedes the last dot of the name, reversed. *)
Fixpoint until_dot (r : str) : option str :=
  match r with
  | [] => None
  | c :: r' => if Ascii.eqb c "." then Some r' else until_dot r'
  end.

(** [os.path.splitext(p)[0]] for a name without directory separators:
    the name is cut at its last dot unless only dots precede that dot. *)
Definition splitext_root (p : str) : str :=
  match until_dot (rev p) with
  | Some rr => if forallb (Ascii.eqb ".") rr then p else rev rr
  | None => p
  end.

(** [s.split(c)] *)
Fixpoint split_on (c : ascii) (s : str) : list str :=
  match s with
  | [] => [[]]
  | x :: r =>
      if Ascii.eqb x c then [] :: split_on c r
      else match split_on c r with
           | [] => [[x]]
           | w :: ws => (x :: w) :: ws
           end
  end.

(** The number written by a string of decimal digits. *)
Definition digits_value (s : str) : Z :=
  fold_left (fun acc c => 10 * acc + (code c - 48))%Z s 0%Z.

(** Digits with single underscores between them; [None] stands for the
    [ValueError] of [int()]. *)
Fixpoint int_digits (s : str) (acc : Z) (after_digit : bool) : option Z :=
  match s with
  | [] => if after_digit then Some acc else None
  | c :: r =>
      if is_decimal c then int_digits r (10 * acc + (code c - 48))%Z true
      else if Ascii.eqb c "_" then
             if after_digit then int_digits r acc false else None
           else None
  end.

Fixpoint lstrip (s : str) : str :=
  match s with
  | c :: r => if is_space c then lstrip r else s
  | [] => []
  end.

Definition strip (s : str) : str := rev (lstrip (rev (lstrip s))).

(** [int(s)]: white space around, an optional sign, digits. *)
Definition py_int (s : str) : option Z :=
  match strip s with
  | c :: r =>
      if Ascii.eqb c "-" then option_map Z.opp (int_digits r 0 false)
      else if Ascii.eqb c "+" then int_digits r 0 false
      else int_digits (c :: r) 0 false
  | [] => None
  end.

Fixpoint str_eqb (a b : str) : bool :=
  match a, b with
  | [], [] => true
  | x :: a', y :: b' => Ascii.eqb x y && str_eqb a' b'
  | _, _ => false
  end.

Definition NOTES : list str :=
  map lit ["C"; "C#"; "D"; "D#"; "E"; "F"; "F#"; "G"; "G#"; "A"; "A#"; "B"]%string.

(** [l.index(x)]; [None] stands for its [ValueError]. *)
Fixpoint index_of (x : str) (l : list str) : option Z :=
  match l with
  | [] => None
  | y :: r => if str_eqb y x then Some 0%Z
              else option_map Z.succ (index_of x r)
  end.

Definition IDEAL_VELOCITY : Z := 12.

(** The three outcomes of [parse_file_info]: a pair of numbers, the pair
    [(None, None)], or an exception that leaves the function. *)
Inductive file_info : Type :=
| Info (midi velocity : Z)
| NoInfo
| Raises.

Definition parse_file_info (filename : str) : file_info :=
  if startswith filename (lit ".") then NoInfo
  else if existsb (contains filename)
            (map lit ["rel"; "harm"; "pedal"; "stac"]%string) then NoInfo
  else
    let name := splitext_root filename in
    if isdigit name then
      match py_int name with
      | Some n => Info n IDEAL_VELOCITY
      | None => Raises
      end
    else
      let parts := split_on "v" name in
      let base_name := hd [] parts in
      let velocity :=
        match parts with
        | _ :: p1 :: _ =>
            if isdigit p1 then
              match py_int p1 with Some v => Some v | None => None end
            else Some IDEAL_VELOCITY
        | _ => Some IDEAL_VELOCITY
        end in
      match velocity with
      | None => NoInfo
      | Some velocity =>
          if (length base_name <? 2)%nat then NoInfo
          else
            let sharp := match base_name with
                         | _ :: c :: _ => Ascii.eqb c "#"
                         | _ => false
                         end in
            let note_str := if sharp then firstn 2 base_name
                            else firstn 1 base_name in
            let octave_str := if sharp then skipn 2 base_name
                              else skipn 1 base_name in
            match py_int octave_str with
            | None => NoInfo
            | Some octave =>
                match index_of note_str NOTES with
                | None => NoInfo
                | Some k => Info (12 + octave * 12 + k) velocity
                end
            end
      end.

(** *** The choice of samples in [build] *)

Record sample : Type := mk_sample {
  sample_path : str;
  sample_velocity : Z
}.

Definition SOURCE_FOLDER : str := lit "assets/sounds".

(** [os.path.join(SOURCE_FOLDER, f)] *)
Definition full_path (f : str) : str := SOURCE_FOLDER ++ lit "/" ++ f.

(** [best_samples]: a dict, with its keys in insertion order. *)
Definition samples : Type := list (Z * sample).

Fixpoint dict_get (d : samples) (k : Z) : option sample :=
  match d with
  | [] => None
  | (k', v) :: r => if Z.eqb k' k then Some v else dict_get r k
  end.

(** [d[k] = v]: an existing key keeps its place. *)
Fixpoint dict_set (d : samples) (k : Z) (v : sample) : samples :=
  match d with
  | [] => [(k, v)]
  | (k', v') :: r =>
      if Z.eqb k' k then (k', v) :: r else (k', v') :: dict_set r k v
  end.

(** One iteration of [for f in os.listdir(SOURCE_FOLDER)]; [None] stands
    for an exception leaving [parse_file_info]. *)
Definition consider (best : samples) (f : str) : option samples :=
  if endswith f (lit ".wav") then
    match parse_file_info f with
    | Raises => None
    | NoInfo => Some best
    | Info midi vel =>
        match dict_get best midi with
        | None => Some (dict_set best midi (mk_sample (full_path f) vel))
        | Some cur =>
            if (Z.abs (vel - IDEAL_VELOCITY)
                <? Z.abs (sample_velocity cur - IDEAL_VELOCITY))%Z
            then Some (dict_set best midi (mk_sample (full_path f) vel))
            else Some best
        end
    end
  else Some best.

Fixpoint scan (best : samples) (files : list str) : option samples :=
  match files with
  | [] => Some best
  | f :: r =>
      match consider best f with
      | Some best' => scan best' r
      | None => None
      end
  end.

(** [min(keys, key=lambda x: abs(x - target))] on a non-empty list of
    keys, [first] being its first element. *)
Definition nearest (first : Z) (others : list Z) (target : Z) : Z :=
  fold_left (fun best x =>
               if (Z.abs (x - target) <? Z.abs (best - target))%Z then x else best)
    others first.

(** The source chosen for a target key; [None] stands for the
    [ValueError] of [min] on an empty sequence. *)
Definition source_for (best : samples) (target : Z) : option Z :=
  match dict_get best target with
  | Some _ => Some target
  | None =>
      match map fst best with
      | [] => None
      | k :: r => Some (nearest k r target)
      end
  end.

(** The test of the scan loop on a file name. *)
Definition is_wav (f : str) : bool := endswith f (lit ".wav").

(** [a] is at least as close to [IDEAL_VELOCITY] as [b]. *)
Definition nearer (a b : Z) : Prop :=
  (Z.abs (a - IDEAL_VELOCITY) <= Z.abs (b - IDEAL_VELOCITY))%Z.

(** What [build] decides before it touches any audio: for each target
    key the source note, the pitch shift and the path of the sample. *)
Record job : Type := mk_job {
  target_midi : Z;
  source_midi : Z;
  job_diff : Z;
  job_path : str
}.

Inductive build_result : Type :=
| NoSourceFolder
| NoValidFiles
| Crashed
| Jobs (jobs : list job).

Definition make_job (best : samples) (target : Z) : option job :=
  match source_for best target with
  | None => None
  | Some source =>
      match dict_get best source with
      | None => None
      | Some info => Some (mk_job target source (target - source) (sample_path info))
      end
  end.

Fixpoint make_jobs (best : samples) (targets : list Z) : option (list job) :=
  match targets with
  | [] => Some []
  | t :: r =>
      match make_job best t, make_jobs best r with
      | Some j, Some js => Some (j :: js)
      | _, _ => None
      end
  end.

(** *** The names of the files [build] writes, and their loading

    [f"{n}"]: the decimal writing of an integer. *)
Definition decimal_digit (d : Z) : ascii :=
  nth (Z.to_nat d) (lit "0123456789") "0"%char.

Fixpoint digits_of (fuel : nat) (n : Z) (acc : str) : str :=
  match fuel with
  | O => acc
  | S fuel' =>
      let acc' := decimal_digit (n mod 10) :: acc in
      if (n <? 10)%Z then acc' else digits_of fuel' (n / 10) acc'
  end.

Definition py_str (n : Z) : str :=
  if (n <? 0)%Z then "-"%char :: digits_of (S (Z.to_nat (- n))) (- n) []
  else digits_of (S (Z.to_nat n)) n [].

(** The last component of [dst_path]: [f"{target_midi}.wav"]. *)
Definition dst_name (target_midi : Z) : str := py_str target_midi ++ lit ".wav".

Definition OUTPUT_FOLDER : str := lit "assets/sounds/final".

(** [os.path.join(folder, f)] in [PianoSynth.__init__] *)
Definition sound_path (f : str) : str := OUTPUT_FOLDER ++ lit "/" ++ f.

(** One iteration of the loop of [PianoSynth.__init__]: [readable] tells
    whether [pygame.mixer.Sound] accepts the file at a path; a sound is
    stood for by its path.  Any exception of the body is swallowed. *)
Definition load_sound (readable : str -> bool) (sounds : gmap Z str) (f : str)
    : gmap Z str :=
  if endswith f (lit ".wav") then
    match py_int (splitext_root f) with
    | Some midi =>
        if readable (sound_path f) then <[midi := sound_path f]> sounds
        else sounds
    | None => sounds
    end
  else sounds.

(** [PianoSynth.__init__] when the folder exists, [listing] being
    [os.listdir(folder)]: the resulting [self.sounds]. *)
Definition PianoSynth_init (readable : str -> bool) (listing : list str)
    : gmap Z str :=
  fold_left (load_sound readable) listing ∅.

(** ** PianoTest.py: keys and notes *)

Definition FPS : Q := 60.

Module Key.
(** The fields of [Key] that the playback logic reads or writes; the
    rectangle, the surfaces and the colour are left to the renderer. *)
Record Key : Type := mk {
  midi : Z;
  is_black : bool;
  is_pressed : bool;
  brightness : Q;
  fade_speed : Q
}.

Definition init (m : Z) (black : bool) : Key :=
  mk m black false 0 0.

Definition press (k : Key) (velocity duration_seconds : Q) : Key :=
  mk (midi k) (is_black k) true 1
     (if Qgt_bool duration_seconds 0
      then (8 # 10) / (let total_frames := duration_seconds * FPS in
                       if Qle_bool total_frames 1 then 1 else total_frames)
      else 5 # 100).

Definition release (k : Key) : Key :=
  mk (midi k) (is_black k) false 0 (fade_speed k).

Definition update (k : Key) : Key :=
  if is_pressed k then
    let b := brightness k - fade_speed k in
    mk (midi k) (is_black k) (is_pressed k)
       (if Qlt_bool b (2 # 10) then 2 # 10 else b) (fade_speed k)
  else k.
End Key.

Module FallingNote.
Record FallingNote : Type := mk {
  midi : Z;
  start_time : Q;
  end_time : Q;
  velocity : Q;
  hit : bool;
  playing : bool
}.

(** [FallingNote.__init__]: both flags start cleared. *)
Definition init (m : Z) (start_sec end_sec vel : Q) : FallingNote :=
  mk m start_sec end_sec vel false false.

Definition duration (n : FallingNote) : Q := end_time n - start_time n.

Definition set_hit (n : FallingNote) : FallingNote :=
  mk (midi n) (start_time n) (end_time n) (velocity n) true (playing n).

Definition set_playing (n : FallingNote) : FallingNote :=
  mk (midi n) (start_time n) (end_time n) (velocity n) (hit n) true.
End FallingNote.

Abbreviation Key := Key.Key.
Abbreviation FallingNote := FallingNote.FallingNote.

(** ** setup_keys *)

Definition is_black_pitch (i : Z) : bool :=
  existsb (Z.eqb (i mod 12)) [1; 3; 6; 8; 10]%Z.

(** [range(21, 109)]. *)
Definition key_range : list Z := map (fun k => (21 + Z.of_nat k)%Z) (seq 0 88).

Definition add_white (km : gmap Z Key) (i : Z) : gmap Z Key :=
  if negb (is_black_pitch i) then <[i := Key.init i false]> km else km.

Definition add_black (km : gmap Z Key) (i : Z) : gmap Z Key :=
  if is_black_pitch i then
    match km !! (i - 1)%Z with
    | Some prev => <[i := Key.init i true]> km
    | None => km
    end
  else km.

Definition setup_keys : gmap Z Key :=
  fold_left add_black key_range (fold_left add_white key_range ∅).

(** [build]: [exists] tells whether the source folder exists and
    [listing] is [os.listdir(SOURCE_FOLDER)]. *)
Definition build (exists_ : bool) (listing : list str) : build_result :=
  if negb exists_ then NoSourceFolder
  else
    match scan [] listing with
    | None => Crashed
    | Some best =>
        if Nat.eqb (length best) 0 then NoValidFiles
        else
          match make_jobs best key_range with
          | Some jobs => Jobs jobs
          | None => Crashed
          end
    end.

(** [i in key_map] *)
Definition has_key (km : gmap Z Key) (i : Z) : bool :=
  match km !! i with Some _ => true | None => false end.

(** ** parse_midi *)

(** The messages of the merged track that [parse_midi] tells apart; the
    first argument is [msg.time], the delta in ticks. *)
Inductive msg : Type :=
| set_tempo (time tempo : Z)
| note_on (time note velocity : Z)
| note_off (time note velocity : Z)
| other_msg (time : Z).

Definition msg_time (m : msg) : Z :=
  match m with
  | set_tempo t _ | note_on t _ _ | note_off t _ _ | other_msg t => t
  end.

(** Modelled from the spec: [mido.tick2second], the library routine that
    [parse_midi] calls and whose body is not part of the repository;
    seconds = delta_ticks * active_tempo / (ticks_per_beat * 1_000_000). *)
Definition tick2second (tick ticks_per_beat tempo : Z) : Q :=
  inject_Z tick * inject_Z tempo / (inject_Z ticks_per_beat * 1000000).

(** Modelled from the spec: [mido.tempo2bpm], likewise a library routine;
    500000 microseconds per beat are 120 beats per minute. *)
Definition tempo2bpm (tempo : Z) : Q := 60000000 / inject_Z tempo.

(** What the MIDI file format guarantees of a message: a delta time and a
    tempo are unsigned quantities. *)
Definition wf_msg (m : msg) : Prop :=
  (0 <= msg_time m)%Z /\
  match m with
  | set_tempo _ tempo => (0 <= tempo)%Z
  | _ => True
  end.

Definition is_set_tempo (m : msg) : bool :=
  match m with
  | set_tempo _ _ => true
  | _ => false
  end.

(** The tempo in effect once a message has been read. *)
Definition tempo_after (tempo : Z) (m : msg) : Z :=
  match m with
  | set_tempo _ t => t
  | _ => tempo
  end.

(** The absolute time of the end of a stream as the specification
    describes it: each delta is converted under the tempo in effect
    before its message, and the results are summed. *)
Fixpoint timeline_seconds (ticks_per_beat tempo : Z) (msgs : list msg) : Q :=
  match msgs with
  | [] => 0
  | m :: r =>
      inject_Z (msg_time m) * inject_Z tempo / (inject_Z ticks_per_beat * 1000000)
      + timeline_seconds ticks_per_beat (tempo_after tempo m) r
  end.

Record parser : Type := mk_parser {
  current_time_sec : Q;
  current_tempo : Z;
  active_notes : gmap Z (Q * Z);
  notes_list : list FallingNote;
  tempo_map : list (Q * Q)
}.

Definition parser_init : parser := mk_parser 0 500000 ∅ [] [].

(** The branch taken by a [note_off], or by a [note_on] of velocity 0. *)
Definition close_note (key_map : gmap Z Key) (now : Q) (st : parser) (note : Z)
  : parser :=
  match active_notes st !! note with
  | Some (start_t, start_v) =>
      mk_parser now (current_tempo st) (delete note (active_notes st))
        (match key_map !! note with
         | Some k =>
             notes_list st ++
               [FallingNote.init note start_t now (inject_Z start_v / 127)]
         | None => notes_list st
         end)
        (tempo_map st)
  | None =>
      mk_parser now (current_tempo st) (active_notes st) (notes_list st)
        (tempo_map st)
  end.

(** One iteration of [for msg in merged_msgs]. *)
Definition parse_msg (key_map : gmap Z Key) (ticks_per_beat : Z)
    (st : parser) (m : msg) : parser :=
  let time_delta := tick2second (msg_time m) ticks_per_beat (current_tempo st) in
  let now := current_time_sec st + time_delta in
  match m with
  | set_tempo _ tempo =>
      mk_parser now tempo (active_notes st) (notes_list st)
        (tempo_map st ++ [(now, tempo2bpm tempo)])
  | note_on _ note vel =>
      if (0 <? vel)%Z then
        mk_parser now (current_tempo st) (<[note := (now, vel)]> (active_notes st))
          (notes_list st) (tempo_map st)
      else close_note key_map now st note
  | note_off _ note _ => close_note key_map now st note
  | other_msg _ =>
      mk_parser now (current_tempo st) (active_notes st) (notes_list st)
        (tempo_map st)
  end.

Definition parse_loop (key_map : gmap Z Key) (ticks_per_beat : Z)
    (msgs : list msg) : parser :=
  fold_left (parse_msg key_map ticks_per_beat) msgs parser_init.

(** [list.sort(key=lambda x: x.start_time)]: a stable sort, so its result
    is the one of a stable insertion sort. *)
Fixpoint insert_by_start (n : FallingNote) (l : list FallingNote)
  : list FallingNote :=
  match l with
  | [] => [n]
  | m :: r =>
      if Qle_bool (FallingNote.start_time n) (FallingNote.start_time m)
      then n :: m :: r
      else m :: insert_by_start n r
  end.

Definition sort_by_start (l : list FallingNote) : list FallingNote :=
  fold_right insert_by_start [] l.

(** [parse_midi]: the two global lists it leaves behind. *)
Definition parse_midi (ticks_per_beat : Z) (msgs : list msg)
  : list FallingNote * list (Q * Q) :=
  let st := parse_loop setup_keys ticks_per_beat msgs in
  (sort_by_start (notes_list st),
   match tempo_map st with
   | [] => [(0, 120)]
   | _ => tempo_map st
   end).

(** ** The main loop *)

(** The calls [key.press(velocity, duration)] and [key.release()] made by
    the loop over [notes_list]; [idx] records the position in
    [notes_list] of the note on whose behalf the call is made. *)
Inductive signal : Type :=
| Press (idx : nat) (midi : Z) (velocity duration : Q)
| Release (idx : nat) (midi : Z).

(** [if note.midi in key_map: key_map[note.midi].press(...)] *)
Definition press_key (key_map : gmap Z Key) (idx : nat) (n : FallingNote)
  : gmap Z Key * list signal :=
  match key_map !! FallingNote.midi n with
  | Some k =>
      (<[FallingNote.midi n :=
           Key.press k (FallingNote.velocity n) (FallingNote.duration n)]> key_map,
       [Press idx (FallingNote.midi n) (FallingNote.velocity n)
          (FallingNote.duration n)])
  | None => (key_map, [])
  end.

(** [if note.midi in key_map: key_map[note.midi].release()] *)
Definition release_key (key_map : gmap Z Key) (idx : nat) (n : FallingNote)
  : gmap Z Key * list signal :=
  match key_map !! FallingNote.midi n with
  | Some k =>
      (<[FallingNote.midi n := Key.release k]> key_map,
       [Release idx (FallingNote.midi n)])
  | None => (key_map, [])
  end.

(** The two guarded blocks run for a note that is neither cut off by the
    [break] nor skipped by the [continue]. *)
Definition visit (playback_time : Q) (idx : nat) (n : FallingNote)
    (key_map : gmap Z Key) : FallingNote * gmap Z Key * list signal :=
  let '(n1, km1, s1) :=
    if negb (FallingNote.hit n) && Qle_bool (FallingNote.start_time n) playback_time
    then let (km, s) := press_key key_map idx n in (FallingNote.set_hit n, km, s)
    else (n, key_map, []) in
  let '(n2, km2, s2) :=
    if FallingNote.hit n1 && negb (FallingNote.playing n1)
       && Qle_bool (FallingNote.end_time n1) playback_time
    then let (km, s) := release_key km1 idx n1 in (FallingNote.set_playing n1, km, s)
    else (n1, km1, []) in
  (n2, km2, s1 ++ s2).

(** [for note in notes_list: ...], from position [idx] on. *)
Fixpoint notes_loop (playback_time : Q) (idx : nat) (notes : list FallingNote)
    (key_map : gmap Z Key) : list FallingNote * gmap Z Key * list signal :=
  match notes with
  | [] => ([], key_map, [])
  | n :: rest =>
      if Qgt_bool (FallingNote.start_time n) (playback_time + 8) then
        (notes, key_map, [])
      else if Qlt_bool (FallingNote.end_time n) (playback_time - 1) then
        let '(rest', km, s) := notes_loop playback_time (S idx) rest key_map in
        (n :: rest', km, s)
      else
        let '(n', km1, s1) := visit playback_time idx n key_map in
        let '(rest', km2, s2) := notes_loop playback_time (S idx) rest km1 in
        (n' :: rest', km2, s1 ++ s2)
  end.

(** [for k in keys: k.update()] (white keys, then black keys). *)
Definition update_keys (key_map : gmap Z Key) : gmap Z Key :=
  Key.update <$> key_map.

(** What one frame does to the notes and the keys once [playback_time]
    is known. *)
Definition frame (playback_time : Q) (notes : list FallingNote)
    (key_map : gmap Z Key) : list FallingNote * gmap Z Key * list signal :=
  let '(notes', km, s) := notes_loop playback_time 0 notes key_map in
  (notes', update_keys km, s).

(** The frames of a run, given the value of [playback_time] in each; the
    signals of all frames are collected in order. *)
Fixpoint play (times : list Q) (notes : list FallingNote)
    (key_map : gmap Z Key) : list FallingNote * gmap Z Key * list signal :=
  match times with
  | [] => (notes, key_map, [])
  | t :: later =>
      let '(notes1, km1, s1) := frame t notes key_map in
      let '(notes2, km2, s2) := play later notes1 km1 in
      (notes2, km2, s1 ++ s2)
  end.

(** The three components of the result of a run. *)
Definition run_notes (r : list FallingNote * gmap Z Key * list signal)
  : list FallingNote := fst (fst r).
Definition run_keys (r : list FallingNote * gmap Z Key * list signal)
  : gmap Z Key := snd (fst r).
Definition run_signals (r : list FallingNote * gmap Z Key * list signal)
  : list signal := snd r.

Definition pressed (key_map : gmap Z Key) (pitch : Z) : bool :=
  match key_map !! pitch with
  | Some k => Key.is_pressed k
  | None => false
  end.

(** *** Clock, events and tempo display *)

Inductive key_code : Type := K_UP | K_DOWN | K_LEFT | K_RIGHT | K_other.

Inductive event : Type := QUIT | KEYDOWN (key : key_code) | other_event.

Record clock : Type := mk_clock {
  playback_time : Q;
  SCROLL_SPEED_MULT : Q;
  running : bool
}.

(** [dt = (clock.get_time() / 1000.0) * SCROLL_SPEED_MULT], clamped. *)
Definition frame_dt (get_time : Z) (mult : Q) : Q :=
  let dt := (inject_Z get_time / 1000) * mult in
  if Qgt_bool dt (1 # 10) then 1 # 10 else dt.

Definition advance (get_time : Z) (c : clock) : clock :=
  mk_clock (playback_time c + frame_dt get_time (SCROLL_SPEED_MULT c))
    (SCROLL_SPEED_MULT c) (running c).

Definition handle_event (c : clock) (e : event) : clock :=
  match e with
  | QUIT => mk_clock (playback_time c) (SCROLL_SPEED_MULT c) false
  | KEYDOWN K_UP =>
      mk_clock (playback_time c) (SCROLL_SPEED_MULT c + (1 # 10)) (running c)
  | KEYDOWN K_DOWN =>
      mk_clock (playback_time c)
        (let m := SCROLL_SPEED_MULT c - (1 # 10) in
         if Qle_bool m (1 # 10) then 1 # 10 else m)
        (running c)
  | KEYDOWN K_LEFT =>
      mk_clock (playback_time c - 2) (SCROLL_SPEED_MULT c) (running c)
  | KEYDOWN K_RIGHT =>
      mk_clock (playback_time c + 2) (SCROLL_SPEED_MULT c) (running c)
  | KEYDOWN K_other | other_event => c
  end.

(** The clock part of one frame: the advance, then the queued events. *)
Definition clock_frame (get_time : Z) (events : list event) (c : clock) : clock :=
  fold_left handle_event events (advance get_time c).

(** The displacement that the seek keys of one event queue ask for. *)
Definition seek_of (e : event) : Q :=
  match e with
  | KEYDOWN K_LEFT => -2
  | KEYDOWN K_RIGHT => 2
  | _ => 0
  end.

Definition seek_shift (events : list event) : Q :=
  fold_right (fun e acc => seek_of e + acc) 0 events.

Definition is_seek (e : event) : bool :=
  match e with
  | KEYDOWN K_LEFT | KEYDOWN K_RIGHT => true
  | _ => false
  end.

(** [for t_sec, t_bpm in reversed(tempo_map): if playback_time >= t_sec:
    current_bpm = t_bpm; break], over the reversed list. *)
Fixpoint bpm_scan (reversed_map : list (Q * Q)) (time current_bpm : Q) : Q :=
  match reversed_map with
  | [] => current_bpm
  | (t_sec, t_bpm) :: r =>
      if Qle_bool t_sec time then t_bpm else bpm_scan r time current_bpm
  end.

Definition bpm_lookup (tempo_map : list (Q * Q)) (time current_bpm : Q) : Q :=
  bpm_scan (rev tempo_map) time current_bpm.

Record game : Type := mk_game {
  g_clock : clock;
  current_bpm : Q;
  g_notes : list FallingNote;
  g_keys : gmap Z Key;
  g_log : list signal
}.

(** The state the module-level code sets up before [while running]. *)
Definition game_init (notes : list FallingNote) : game :=
  mk_game (mk_clock 0 1 true) 120 notes setup_keys [].

(** One iteration of [while running]; [get_time] is the value of
    [clock.get_time()] in milliseconds and [events] the event queue. *)
Definition main_iter (tempo_map : list (Q * Q)) (g : game)
    (input : Z * list event) : game :=
  let c := clock_frame (fst input) (snd input) (g_clock g) in
  let bpm := bpm_lookup tempo_map (playback_time c) (current_bpm g) in
  let '(notes, keys, s) := frame (playback_time c) (g_notes g) (g_keys g) in
  mk_game c bpm notes keys (g_log g ++ s).

Fixpoint main_loop (tempo_map : list (Q * Q)) (inputs : list (Z * list event))
    (g : game) : game :=
  match inputs with
  | [] => g
  | i :: later =>
      if running (g_clock g) then main_loop tempo_map later (main_iter tempo_map g i)
      else g
  end.

(** The frame times of a run of the main loop: one per iteration, for as
    long as [running] holds at the loop test. *)
Fixpoint clock_times (inputs : list (Z * list event)) (c : clock) : list Q :=
  match inputs with
  | [] => []
  | i :: later =>
      if running c then
        let c' := clock_frame (fst i) (snd i) c in
        playback_time c' :: clock_times later c'
      else []
  end.

(** [k] frames of 100 ms each with an empty event queue. *)
Definition steady (k : nat) : list (Z * list event) := repeat (100%Z, []) k.

(** The flags of the notes, in order. *)
Definition note_flags (notes : list FallingNote) : list (bool * bool) :=
  map (fun n => (FallingNote.hit n, FallingNote.playing n)) notes.

(** ** Invariants and predicates used by the properties *)

(** What holds of the builder's state after any prefix of a well-formed
    stream: every open note started no later than the current time, and
    every emitted note ends no earlier than it starts. *)
Definition parse_inv (st : parser) : Prop :=
  (0 <= current_tempo st)%Z
  /\ (forall note s v,
        active_notes st !! note = Some (s, v) -> s <= current_time_sec st)
  /\ Forall (fun n => FallingNote.start_time n <= FallingNote.end_time n)
        (notes_list st).

Definition sorted_by_start_time (l : list FallingNote) : Prop :=
  StronglySorted
    (fun a b => FallingNote.start_time a <= FallingNote.start_time b) l.

(** *** The note flags and the signals of a run *)

(** What [visit] does to the note alone. *)
Definition visit_note (t : Q) (n : FallingNote) : FallingNote :=
  let n1 :=
    if negb (FallingNote.hit n) && Qle_bool (FallingNote.start_time n) t
    then FallingNote.set_hit n else n in
  if FallingNote.hit n1 && negb (FallingNote.playing n1)
     && Qle_bool (FallingNote.end_time n1) t
  then FallingNote.set_playing n1 else n1.

(** What [notes_loop] does to the list of notes alone. *)
Fixpoint loop_notes (t : Q) (notes : list FallingNote) : list FallingNote :=
  match notes with
  | [] => []
  | n :: rest =>
      if Qgt_bool (FallingNote.start_time n) (t + 8) then notes
      else if Qlt_bool (FallingNote.end_time n) (t - 1) then n :: loop_notes t rest
      else visit_note t n :: loop_notes t rest
  end.

Definition is_press (s : signal) : bool :=
  match s with Press _ _ _ _ => true | Release _ _ => false end.

Definition is_release (s : signal) : bool :=
  match s with Press _ _ _ _ => false | Release _ _ => true end.

Definition signal_idx (s : signal) : nat :=
  match s with Press i _ _ _ | Release i _ => i end.

Definition signal_midi (s : signal) : Z :=
  match s with Press _ m _ _ | Release _ m => m end.

(** The number of [press] calls made for the note at position [j]. *)
Definition count_press (j : nat) (sigs : list signal) : nat :=
  length (List.filter (fun s => is_press s && Nat.eqb (signal_idx s) j) sigs).

(** The number of [release] calls made for the note at position [j]. *)
Definition count_release (j : nat) (sigs : list signal) : nat :=
  length (List.filter (fun s => is_release s && Nat.eqb (signal_idx s) j) sigs).

(** The number of [release] calls made on the key of pitch [p]. *)
Definition count_key_release (p : Z) (sigs : list signal) : nat :=
  length (List.filter (fun s => is_release s && Z.eqb (signal_midi s) p) sigs).

(** 1 when the note at position [j] of a list whose first position is
    [i] has not been hit yet, else 0; likewise for [playing]. *)
Fixpoint pending_press (i : nat) (notes : list FallingNote) (j : nat) : nat :=
  match notes with
  | [] => 0
  | n :: r =>
      (if Nat.eqb i j && negb (FallingNote.hit n) then 1 else 0)
      + pending_press (S i) r j
  end%nat.

Fixpoint pending_release (i : nat) (notes : list FallingNote) (j : nat) : nat :=
  match notes with
  | [] => 0
  | n :: r =>
      (if Nat.eqb i j && negb (FallingNote.playing n) then 1 else 0)
      + pending_release (S i) r j
  end%nat.

(** The notes of pitch [p] whose [playing] flag is still cleared. *)
Definition unplayed (p : Z) (notes : list FallingNote) : nat :=
  length (List.filter (fun n => Z.eqb (FallingNote.midi n) p
                           && negb (FallingNote.playing n)) notes).

(** The number of [press] calls made on the key of pitch [p]. *)
Definition count_key_press (p : Z) (sigs : list signal) : nat :=
  length (List.filter (fun s => is_press s && Z.eqb (signal_midi s) p) sigs).

(** The notes of pitch [p] whose [hit] flag is still cleared. *)
Definition unhit (p : Z) (notes : list FallingNote) : nat :=
  length (List.filter (fun n => Z.eqb (FallingNote.midi n) p
                                && negb (FallingNote.hit n)) notes).

(** The [is_pressed] flag of the key of pitch [p] after the calls [sigs],
    when it was [b] before. *)
Definition key_after (p : Z) (sigs : list signal) (b : bool) : bool :=
  fold_left (fun b s => if Z.eqb (signal_midi s) p then is_press s else b) sigs b.

(** The signals of [visit], read off the flags of the note; [key] tells
    whether the pitch of the note has a key. *)
Definition visit_sigs (t : Q) (i : nat) (n : FallingNote) (key : bool)
  : list signal :=
  (if negb (FallingNote.hit n) && Qle_bool (FallingNote.start_time n) t && key
   then [Press i (FallingNote.midi n) (FallingNote.velocity n)
           (FallingNote.duration n)]
   else [])
  ++ (if (FallingNote.hit n || Qle_bool (FallingNote.start_time n) t)
         && negb (FallingNote.playing n)
         && Qle_bool (FallingNote.end_time n) t && key
      then [Release i (FallingNote.midi n)]
      else []).

(** The signals of [notes_loop]. *)
Fixpoint loop_sigs (t : Q) (i : nat) (notes : list FallingNote)
    (key : Z -> bool) : list signal :=
  match notes with
  | [] => []
  | n :: rest =>
      if Qgt_bool (FallingNote.start_time n) (t + 8) then []
      else if Qlt_bool (FallingNote.end_time n) (t - 1)
      then loop_sigs t (S i) rest key
      else visit_sigs t i n (key (FallingNote.midi n))
           ++ loop_sigs t (S i) rest key
  end.

(** The notes and the signals of a whole run. *)
Fixpoint play_notes (times : list Q) (notes : list FallingNote)
  : list FallingNote :=
  match times with
  | [] => notes
  | t :: later => play_notes later (loop_notes t notes)
  end.

Fixpoint play_sigs (times : list Q) (notes : list FallingNote)
    (key : Z -> bool) : list signal :=
  match times with
  | [] => []
  | t :: later =>
      loop_sigs t 0 notes key ++ play_sigs later (loop_notes t notes) key
  end.

(** The data of a note that the loop never writes. *)
Definition same_note (n n' : FallingNote) : Prop :=
  FallingNote.midi n' = FallingNote.midi n
  /\ FallingNote.start_time n' = FallingNote.start_time n
  /\ FallingNote.end_time n' = FallingNote.end_time n
  /\ FallingNote.velocity n' = FallingNote.velocity n.

(** How the flags of a note may change: they are only ever set. *)
Definition note_progress (n n' : FallingNote) : Prop :=
  same_note n n'
  /\ (FallingNote.hit n = true -> FallingNote.hit n' = true)
  /\ (FallingNote.playing n = true -> FallingNote.playing n' = true).

Definition fresh (n : FallingNote) : Prop :=
  FallingNote.hit n = false /\ FallingNote.playing n = false.

(** The flags say that the note has been triggered and not released. *)
Definition sounding (n : FallingNote) : Prop :=
  FallingNote.hit n = true /\ FallingNote.playing n = false.

(** The flags of a note after a frame at time [t] of a run that moves
    forward by at most one second per frame. *)
Definition flags_at (t : Q) (n : FallingNote) : Prop :=
  (t < FallingNote.start_time n -> fresh n)
  /\ (FallingNote.start_time n <= t -> t < FallingNote.end_time n -> sounding n)
  /\ (FallingNote.start_time n <= t -> FallingNote.end_time n <= t ->
      FallingNote.hit n = FallingNote.playing n
      /\ (FallingNote.hit n = false -> FallingNote.end_time n < t - 1)).

(** The same before a frame: [None] stands for the start of the run. *)
Definition flags_before (t' : option Q) (n : FallingNote) : Prop :=
  match t' with
  | None => fresh n
  | Some t0 => flags_at t0 n
  end.

Definition step_ok (t' : option Q) (t : Q) : Prop :=
  match t' with
  | None => True
  | Some t0 => t0 <= t /\ t <= t0 + 1
  end.

(** Frame times that never go back and never jump by more than a second. *)
Fixpoint steps_ok (t' : option Q) (times : list Q) : Prop :=
  match times with
  | [] => True
  | t :: later => step_ok t' t /\ steps_ok (Some t) later
  end.

(** A list of notes sorted by start, each with start <= end, in which a
    note ends before the next note of its pitch starts. *)
Definition note_before (a b : FallingNote) : Prop :=
  FallingNote.start_time a <= FallingNote.start_time b
  /\ (FallingNote.midi a = FallingNote.midi b ->
      FallingNote.end_time a <= FallingNote.start_time b).

(** A list of notes sorted by start, each with start <= end. *)
Definition ordered_notes (l : list FallingNote) : Prop :=
  sorted_by_start_time l
  /\ Forall (fun n => FallingNote.start_time n <= FallingNote.end_time n) l.

Definition wf_notes (l : list FallingNote) : Prop :=
  StronglySorted note_before l
  /\ Forall (fun n => FallingNote.start_time n <= FallingNote.end_time n) l.

(** Some note of pitch [p] spans the time [t]. *)
Definition spans (p : Z) (t : Q) (l : list FallingNote) : Prop :=
  exists n, In n l /\ FallingNote.midi n = p
            /\ FallingNote.start_time n <= t /\ t < FallingNote.end_time n.

(** Some note of pitch [p] is flagged as sounding; every note of pitch
    [p] starts after [t]. *)
Definition flagged (p : Z) (l : list FallingNote) : Prop :=
  exists n, In n l /\ FallingNote.midi n = p /\ sounding n.

Definition all_pending (p : Z) (t : Q) (l : list FallingNote) : Prop :=
  forall n, In n l -> FallingNote.midi n = p -> t < FallingNote.start_time n.

(** The keys before a frame of such a run: all released at its start,
    and afterwards pressed exactly when a note of the pitch spans the
    time of the last frame. *)
Definition keys_before (t' : option Q) (km : gmap Z Key)
    (notes : list FallingNote) : Prop :=
  match t' with
  | None => forall p, pressed km p = false
  | Some t0 =>
      forall p, is_Some (km !! p) -> (pressed km p = true <-> spans p t0 notes)
  end.

(** *** The builder, pair by pair *)

(** A message that opens a note, and one that closes a note. *)
Definition is_opener (m : msg) : bool :=
  match m with
  | note_on _ _ vel => (0 <? vel)%Z
  | _ => false
  end.

Definition is_closer (m : msg) : bool :=
  match m with
  | note_on _ _ vel => negb (0 <? vel)%Z
  | note_off _ _ _ => true
  | _ => false
  end.

(** The pitch of a note message. *)
Definition msg_note (m : msg) : option Z :=
  match m with
  | note_on _ n _ | note_off _ n _ => Some n
  | _ => None
  end.

(** The tempi of the tempo changes of a stream, in order. *)
Definition tempo_changes (msgs : list msg) : list Z :=
  flat_map (fun m => match m with set_tempo _ t => [t] | _ => [] end) msgs.

(** In emission order, a note ends before a later note of its pitch
    starts. *)
Fixpoint emitted_in_order (l : list FallingNote) : Prop :=
  match l with
  | [] => True
  | a :: r =>
      (forall b, In b r -> FallingNote.midi a = FallingNote.midi b ->
                 FallingNote.end_time a <= FallingNote.start_time b)
      /\ emitted_in_order r
  end.

(** What holds of the builder's state after any prefix of a well-formed
    stream, pitch by pitch. *)
Definition pair_inv (st : parser) : Prop :=
  (0 <= current_tempo st)%Z
  /\ 0 <= current_time_sec st
  /\ (forall q s v,
        active_notes st !! q = Some (s, v) ->
        0 <= s /\ s <= current_time_sec st
        /\ forall n, In n (notes_list st) -> FallingNote.midi n = q ->
                     FallingNote.end_time n <= s)
  /\ (forall n, In n (notes_list st) ->
                0 <= FallingNote.start_time n
                /\ FallingNote.start_time n <= FallingNote.end_time n
                /\ FallingNote.end_time n <= current_time_sec st
                /\ fresh n)
  /\ emitted_in_order (notes_list st).

(** What holds of the builder's state while it reads on from a point
    where the time was [T0], the list [base] and the pitch [p] closed:
    every note of pitch [p] opened or emitted since starts at [T0] or
    later. *)
Definition opened_after (p : Z) (T0 : Q) (base : list FallingNote)
    (st : parser) : Prop :=
  (0 <= current_tempo st)%Z
  /\ T0 <= current_time_sec st
  /\ (forall s v, active_notes st !! p = Some (s, v) -> T0 <= s)
  /\ exists extra,
       notes_list st = base ++ extra
       /\ forall n, In n extra -> FallingNote.midi n = p ->
                    T0 <= FallingNote.start_time n.

(** The number of notes of pitch [p] whose span [start, end) holds the
    time [t]: what the specification calls [active_count]. *)
Definition active_count (p : Z) (t : Q) (l : list FallingNote) : nat :=
  length (List.filter
            (fun n => Z.eqb (FallingNote.midi n) p
                      && Qle_bool (FallingNote.start_time n) t
                      && Qlt_bool t (FallingNote.end_time n)) l).

(** The number of notes of pitch [p] that have started by [t], and the
    number that have ended by [t]. *)
Definition started (p : Z) (t : Q) (l : list FallingNote) : nat :=
  length (List.filter
            (fun n => Z.eqb (FallingNote.midi n) p
                      && Qle_bool (FallingNote.start_time n) t) l).

Definition ended (p : Z) (t : Q) (l : list FallingNote) : nat :=
  length (List.filter
            (fun n => Z.eqb (FallingNote.midi n) p
                      && Qle_bool (FallingNote.end_time n) t) l).

(** The flags of a note after a frame at time [t] of a forward run that
    started at time 0: set exactly when the start, or the end, has been
    reached. *)
Definition flags_exact (t : Q) (n : FallingNote) : Prop :=
  (FallingNote.hit n = true <-> FallingNote.start_time n <= t)
  /\ (FallingNote.playing n = true <-> FallingNote.end_time n <= t).

(** A MIDI velocity is a 7-bit quantity. *)
Definition wf_velocity (m : msg) : Prop :=
  match m with
  | note_on _ _ vel => (vel <= 127)%Z
  | _ => True
  end.

(** What holds of the velocities and of the tempo map after any prefix
    of a well-formed stream. *)
Definition velocity_inv (st : parser) : Prop :=
  (forall q s v, active_notes st !! q = Some (s, v) -> (0 < v <= 127)%Z)
  /\ Forall (fun n => 0 < FallingNote.velocity n /\ FallingNote.velocity n <= 1)
       (notes_list st).

Definition tempo_inv (st : parser) : Prop :=
  (0 <= current_tempo st)%Z /\ 0 <= current_time_sec st
  /\ StronglySorted Qle (map fst (tempo_map st))
  /\ Forall (fun b => 0 <= fst b /\ fst b <= current_time_sec st) (tempo_map st).

(** 1 when the note at position [j] has been triggered on a key and not
    yet released, else 0. *)
Fixpoint owed (key : Z -> bool) (i : nat) (notes : list FallingNote) (j : nat)
  : nat :=
  match notes with
  | [] => 0
  | n :: r =>
      (if Nat.eqb i j && FallingNote.hit n && negb (FallingNote.playing n)
          && key (FallingNote.midi n)
       then 1 else 0)
      + owed key (S i) r j
  end%nat.

(** A note lies outside the window of the loop at time [t]. *)
Definition outside_window (t : Q) (n : FallingNote) : Prop :=
  FallingNote.end_time n < t - 1 \/ t + 8 < FallingNote.start_time n.

(** * Properties *)

(** ** Boolean comparisons *)

Lemma Qle_boolP (a b : Q) : reflect (a <= b) (Qle_bool a b).
Proof. apply iff_reflect. symmetry. apply Qle_bool_iff. Qed.

Lemma Qgt_boolP (a b : Q) : reflect (b < a) (Qgt_bool a b).
Proof.
  unfold Qgt_bool. destruct (Qle_boolP a b); constructor; lra.
Qed.

Lemma Qlt_boolP (a b : Q) : reflect (a < b) (Qlt_bool a b).
Proof.
  unfold Qlt_bool. destruct (Qle_boolP b a); constructor; lra.
Qed.

Ltac qcases :=
  repeat match goal with
  | |- context [Qle_bool ?a ?b] => destruct (Qle_boolP a b)
  | |- context [Qgt_bool ?a ?b] => destruct (Qgt_boolP a b)
  | |- context [Qlt_bool ?a ?b] => destruct (Qlt_boolP a b)
  end.

(** ** normalize_audio *)

Section NormalizeFacts.
Variable fl : Q -> Q.

Lemma clip_bounds (lo hi x : Q) : lo <= hi -> lo <= clip lo hi x <= hi.
Proof. intros H. unfold clip. qcases; lra. Qed.

Lemma Qtrunc_bounds (x : Q) (b : Z) :
  (0 <= b)%Z -> - inject_Z b <= x <= inject_Z b -> (- b <= Qtrunc x <= b)%Z.
Proof.
  intros Hb [Hlo Hhi]. unfold Qtrunc. destruct (Qle_boolP 0 x) as [Hx | Hx].
  - split.
    + apply Z.le_trans with 0%Z; [lia |].
      rewrite <- (Qfloor_Z 0). now apply Qfloor_resp_le.
    + rewrite <- (Qfloor_Z b). now apply Qfloor_resp_le.
  - split.
    + rewrite <- (Qceiling_Z (- b)). apply Qceiling_resp_le.
      rewrite inject_Z_opp. exact Hlo.
    + apply Z.le_trans with 0%Z; [| lia].
      rewrite <- (Qceiling_Z 0). apply Qceiling_resp_le.
      change (inject_Z 0) with 0. lra.
Qed.

Lemma wrap16_id (z : Z) : (-32768 <= z <= 32767)%Z -> wrap16 z = z.
Proof. intros H. unfold wrap16. rewrite Z.mod_small; lia. Qed.

Lemma astype_clip (x : Q) :
  astype_int16 (clip (-32767) 32767 x) = Qtrunc (clip (-32767) 32767 x)
  /\ (-32767 <= astype_int16 (clip (-32767) 32767 x) <= 32767)%Z.
Proof.
  assert (B : (-32767 <= Qtrunc (clip (-32767) 32767 x) <= 32767)%Z).
  { apply (Qtrunc_bounds _ 32767); [lia |].
    change (- inject_Z 32767) with (-32767). change (inject_Z 32767) with 32767.
    apply clip_bounds. lra. }
  unfold astype_int16. rewrite wrap16_id by lia. split; [reflexivity | exact B].
Qed.

Lemma fold_qmax_spec (r : list Q) (x : Q) :
  let m := fold_left qmax r x in
  x <= m /\ Forall (fun y => y <= m) r /\ (m = x \/ In m r).
Proof.
  revert x. induction r as [| y r IH]; intros x; cbn.
  - split; [lra |]. split; [constructor | now left].
  - destruct (IH (qmax x y)) as (H1 & H2 & H3).
    assert (Hxy : x <= qmax x y /\ y <= qmax x y).
    { unfold qmax. qcases; lra. }
    split; [lra |]. split.
    + constructor; [lra | exact H2].
    + destruct H3 as [H3 | H3]; [| now right; right].
      rewrite H3. unfold qmax. destruct (Qle_bool x y); auto.
Qed.

Lemma peak_spec (data : list Z) :
  data <> [] ->
  exists m, peak data = Some m
    /\ Forall (fun x => Qabs (inject_Z x) <= m) data
    /\ Exists (fun x => Qabs (inject_Z x) = m) data.
Proof.
  destruct data as [| x r]; [congruence | intros _].
  unfold peak. cbn [map np_max].
  generalize (fold_qmax_spec (map Qabs (map inject_Z r)) (Qabs (inject_Z x))).
  cbv zeta. generalize (fold_left qmax (map Qabs (map inject_Z r))
                          (Qabs (inject_Z x))).
  intros m (H1 & H2 & H3).
  eexists. split; [reflexivity |]. split.
  - constructor; [exact H1 |].
    rewrite map_map in H2. rewrite Forall_map in H2. exact H2.
  - destruct H3 as [H3 | H3].
    + apply Exists_cons_hd. now rewrite H3.
    + apply Exists_cons_tl. rewrite map_map in H3. apply in_map_iff in H3.
      destruct H3 as (z & Hz & Hin). apply Exists_exists.
      exists z. split; [now apply list_elem_of_In | exact Hz].
Qed.

(** C10 (amended): on every non-empty sample array [normalize_audio]
    returns; when the largest absolute sample is 0 the result is the
    input itself, and otherwise each output sample is the truncation of
    the clipped scaled input sample, lies in [-32767, 32767] and so is
    not changed by the conversion to 16 bits. *)
Theorem normalize_audio_nonempty (data : list Z) :
  data <> [] ->
  exists current_max out,
    peak data = Some current_max
    /\ Forall (fun x => Qabs (inject_Z x) <= current_max) data
    /\ Exists (fun x => Qabs (inject_Z x) = current_max) data
    /\ normalize_audio fl data = Some out
    /\ (current_max == 0 -> out = data)
    /\ (~ current_max == 0 ->
        Forall2 (fun x y =>
                   y = Qtrunc (clip (-32767) 32767
                                 (fl (inject_Z x * gain fl current_max)))
                   /\ (-32767 <= y <= 32767)%Z) data out).
Proof.
  intros Hne. destruct (peak_spec data Hne) as (m & Hm & Hub & Hex).
  exists m. unfold normalize_audio. fold (peak data). rewrite Hm.
  destruct (Qeq_bool m 0) eqn:E.
  - exists data. apply Qeq_bool_iff in E.
    repeat split; auto. intros H. contradiction.
  - eexists. repeat split; eauto.
    + intros H. apply Qeq_bool_iff in H. congruence.
    + intros _. clear.
      induction data as [| x r IH]; cbn; constructor; [| exact IH].
      destruct (astype_clip (fl (inject_Z x * gain fl m))) as [H1 H2].
      rewrite <- H1. split; [reflexivity | exact H2].
Qed.
End NormalizeFacts.

Lemma normalize_audio_nonempty_witness :
  [100; -32768; 5]%Z <> [] /\
  exists current_max out,
    peak [100; -32768; 5]%Z = Some current_max
    /\ Forall (fun x => Qabs (inject_Z x) <= current_max) [100; -32768; 5]%Z
    /\ Exists (fun x => Qabs (inject_Z x) = current_max) [100; -32768; 5]%Z
    /\ normalize_audio (fun x => x) [100; -32768; 5]%Z = Some out
    /\ (current_max == 0 -> out = [100; -32768; 5]%Z)
    /\ (~ current_max == 0 ->
        Forall2 (fun x y =>
                   y = Qtrunc (clip (-32767) 32767
                                 ((fun x => x) (inject_Z x * gain (fun x => x) current_max)))
                   /\ (-32767 <= y <= 32767)%Z) [100; -32768; 5]%Z out).
Proof.
  split; [discriminate |].
  apply (normalize_audio_nonempty (fun x => x) [100; -32768; 5]%Z). discriminate.
Defined.

(** C10, as stated, fails on the empty array: [np.max] raises and
    nothing is returned. *)
Lemma normalize_audio_empty_raises :
  ~ (exists out, normalize_audio (fun x => x) [] = Some out).
Proof. intros [out H]. cbn in H. discriminate. Qed.

(** ** The playback clock *)

Lemma frame_dt_le (get_time : Z) (mult : Q) : frame_dt get_time mult <= 1 # 10.
Proof. unfold frame_dt. qcases; lra. Qed.

Lemma frame_dt_nonneg (get_time : Z) (mult : Q) :
  (0 <= get_time)%Z -> 0 <= mult -> 0 <= frame_dt get_time mult.
Proof.
  intros Hg Hm. unfold frame_dt.
  assert (0 <= inject_Z get_time) by (rewrite Zle_Qle in Hg; exact Hg).
  assert (0 <= inject_Z get_time / 1000 * mult).
  { apply Qmult_le_0_compat; [| exact Hm].
    apply Qmult_le_0_compat; [assumption | discriminate]. }
  qcases; lra.
Qed.

Lemma handle_event_time (c : clock) (e : event) :
  playback_time (handle_event c e) == playback_time c + seek_of e.
Proof. destruct e as [| [] |]; cbn; lra. Qed.

Lemma events_time (events : list event) (c : clock) :
  playback_time (fold_left handle_event events c)
  == playback_time c + seek_shift events.
Proof.
  revert c. induction events as [| e r IH]; intros c.
  - cbn. lra.
  - cbn [fold_left]. rewrite IH, handle_event_time.
    unfold seek_shift. cbn [fold_right]. lra.
Qed.

Lemma seek_shift_no_seek (events : list event) :
  forallb (fun e => negb (is_seek e)) events = true -> seek_shift events == 0.
Proof.
  induction events as [| e r IH]; [reflexivity |].
  cbn [forallb]. intros H. apply andb_prop in H. destruct H as [He Hr].
  unfold seek_shift. cbn [fold_right]. fold (seek_shift r). rewrite (IH Hr).
  destruct e as [| [] |]; cbn in *; try discriminate; lra.
Qed.

(** C9: whatever the rate multiplier, the advance of a frame moves the
    clock by at most 0.1 (and not backward when the wall-clock delta and
    the rate are non-negative); over a whole frame the clock moves by
    that advance plus 2.0 for each right-arrow press and minus 2.0 for
    each left-arrow press, so without seek presses it moves by at most
    0.1. *)
Theorem clock_frame_step (get_time : Z) (events : list event) (c : clock) :
  playback_time (advance get_time c) - playback_time c <= 1 # 10
  /\ ((0 <= get_time)%Z -> 0 <= SCROLL_SPEED_MULT c ->
      0 <= playback_time (advance get_time c) - playback_time c)
  /\ playback_time (clock_frame get_time events c)
     == playback_time c + frame_dt get_time (SCROLL_SPEED_MULT c)
        + seek_shift events
  /\ (forallb (fun e => negb (is_seek e)) events = true ->
      playback_time (clock_frame get_time events c) - playback_time c <= 1 # 10).
Proof.
  assert (Hdt := frame_dt_le get_time (SCROLL_SPEED_MULT c)).
  assert (Hfr : playback_time (clock_frame get_time events c)
                == playback_time c + frame_dt get_time (SCROLL_SPEED_MULT c)
                   + seek_shift events).
  { unfold clock_frame. rewrite events_time. cbn. lra. }
  split; [cbn; lra |]. split.
  - intros Hg Hm. assert (H := frame_dt_nonneg _ _ Hg Hm). cbn. lra.
  - split; [exact Hfr |]. intros Hs. rewrite Hfr, (seek_shift_no_seek _ Hs). lra.
Qed.

Lemma clock_frame_step_witness :
  let c := mk_clock 3 (25 # 10) true in
  let events := [KEYDOWN K_UP; other_event] in
  (0 <= 500)%Z /\ 0 <= SCROLL_SPEED_MULT c
  /\ forallb (fun e => negb (is_seek e)) events = true
  /\ 0 <= playback_time (advance 500 c) - playback_time c
  /\ playback_time (clock_frame 500 events c) - playback_time c <= 1 # 10.
Proof.
  intros c events.
  destruct (clock_frame_step 500 events c) as (_ & H2 & _ & H4).
  split; [lia |]. split; [cbn; lra |]. split; [reflexivity |].
  split; [apply H2; [lia | cbn; lra] | apply H4; reflexivity].
Defined.

(** ** The tempo display *)

Lemma bpm_scan_app (a b : list (Q * Q)) (time cur : Q) :
  Forall (fun x => time < fst x) a ->
  bpm_scan (a ++ b) time cur = bpm_scan b time cur.
Proof.
  induction 1 as [| [t_sec t_bpm] a Hx _ IH]; cbn; [reflexivity |].
  cbn in Hx. destruct (Qle_boolP t_sec time); [lra | exact IH].
Qed.

Lemma parse_no_tempo (km : gmap Z Key) (tpb : Z) (msgs : list msg) (st : parser) :
  forallb (fun m => negb (is_set_tempo m)) msgs = true ->
  tempo_map (fold_left (parse_msg km tpb) msgs st) = tempo_map st.
Proof.
  revert st. induction msgs as [| m r IH]; intros st H; cbn; [reflexivity |].
  cbn in H. apply andb_prop in H. destruct H as [Hm Hr].
  rewrite (IH _ Hr). destruct m; cbn in *; try discriminate; try reflexivity.
  - destruct (0 <? velocity)%Z; [reflexivity |].
    unfold close_note. destruct (active_notes st !! note) as [[? ?] |]; reflexivity.
  - unfold close_note. destruct (active_notes st !! note) as [[? ?] |]; reflexivity.
Qed.

(** C5 (amended): the lookup yields the tempo of the last breakpoint whose
    time is at most the query time; when no breakpoint qualifies it
    leaves the displayed tempo as it was; and a stream without tempo
    events yields the one-breakpoint map (0, 120). *)
Theorem bpm_lookup_spec (tempo_map : list (Q * Q)) (time cur : Q) :
  (forall pre t_sec t_bpm post,
      tempo_map = pre ++ (t_sec, t_bpm) :: post ->
      t_sec <= time -> Forall (fun b => time < fst b) post ->
      bpm_lookup tempo_map time cur = t_bpm)
  /\ (Forall (fun b => time < fst b) tempo_map ->
      bpm_lookup tempo_map time cur = cur)
  /\ (forall ticks_per_beat msgs,
        forallb (fun m => negb (is_set_tempo m)) msgs = true ->
        snd (parse_midi ticks_per_beat msgs) = [(0, 120)]).
Proof.
  split; [| split].
  - intros pre t_sec t_bpm post -> Hle Hpost. unfold bpm_lookup.
    rewrite rev_app_distr. cbn [rev]. rewrite <- app_assoc.
    rewrite bpm_scan_app by now apply List.Forall_rev.
    cbn. destruct (Qle_boolP t_sec time); [reflexivity | contradiction].
  - intros H. unfold bpm_lookup.
    rewrite <- (app_nil_r (rev tempo_map)).
    rewrite bpm_scan_app by now apply List.Forall_rev. reflexivity.
  - intros tpb msgs H. unfold parse_midi, parse_loop.
    rewrite (parse_no_tempo _ _ _ _ H). reflexivity.
Qed.

Lemma bpm_lookup_spec_witness :
  let tm := [(0, 120); (1 # 2, 60); (3, 90)] in
  (1 # 2 <= 2 /\ Forall (fun b => 2 < fst b) [(3, 90)]
   /\ bpm_lookup tm 2 120 = 60)
  /\ (Forall (fun b => -1 < fst b) tm /\ bpm_lookup tm (-1) 75 = 75)
  /\ snd (parse_midi 480 [note_on 0 60 80; note_off 480 60 0]) = [(0, 120)].
Proof.
  intros tm.
  assert (H3 : Forall (fun b : Q * Q => 2 < fst b) [(3, 90)]).
  { repeat constructor. }
  assert (Hm1 : Forall (fun b : Q * Q => -1 < fst b) tm).
  { repeat constructor. }
  split; [| split].
  - split; [discriminate |]. split; [exact H3 |].
    destruct (bpm_lookup_spec tm 2 120) as (H & _ & _).
    apply (H [(0, 120)] (1 # 2) 60 [(3, 90)] eq_refl); [discriminate | exact H3].
  - split; [exact Hm1 |].
    destruct (bpm_lookup_spec tm (-1) 75) as (_ & H & _). exact (H Hm1).
  - destruct (bpm_lookup_spec [] 0 0) as (_ & _ & H). apply H. reflexivity.
Defined.

(** C5, as stated, fails before the first breakpoint: a tempo event 480
    ticks into the stream gives the map [(0.5, 60)], and the first frame,
    at time 0, still displays the initial 120. *)
Lemma bpm_before_first_breakpoint :
  let tm := snd (parse_midi 480 [set_tempo 480 1000000]) in
  let g := main_loop tm [(0%Z, [])] (game_init []) in
  exists t_sec t_bpm,
    tm = [(t_sec, t_bpm)] /\ t_bpm == 60
    /\ playback_time (g_clock g) < t_sec
    /\ current_bpm g == 120 /\ ~ current_bpm g == t_bpm.
Proof.
  cbv zeta. eexists _, _. split; [reflexivity |].
  vm_compute. repeat split; congruence.
Qed.

(** ** The timeline builder *)

Section Timeline.
Variable key_map : gmap Z Key.
Variable ticks_per_beat : Z.

Local Abbreviation step := (parse_msg key_map ticks_per_beat).
Local Abbreviation loop := (parse_loop key_map ticks_per_beat).

Lemma parse_msg_time (st : parser) (m : msg) :
  current_time_sec (step st m)
  = current_time_sec st
    + tick2second (msg_time m) ticks_per_beat (current_tempo st).
Proof.
  destruct m; cbn; try reflexivity.
  - destruct (0 <? velocity)%Z; [reflexivity |].
    unfold close_note. destruct (active_notes st !! note) as [[? ?] |]; reflexivity.
  - unfold close_note. destruct (active_notes st !! note) as [[? ?] |]; reflexivity.
Qed.

Lemma parse_msg_tempo (st : parser) (m : msg) :
  current_tempo (step st m) = tempo_after (current_tempo st) m.
Proof.
  destruct m; cbn; try reflexivity.
  - destruct (0 <? velocity)%Z; [reflexivity |].
    unfold close_note. destruct (active_notes st !! note) as [[? ?] |]; reflexivity.
  - unfold close_note. destruct (active_notes st !! note) as [[? ?] |]; reflexivity.
Qed.

Lemma parse_loop_snoc (pre : list msg) (m : msg) :
  loop (pre ++ [m]) = step (loop pre) m.
Proof. unfold parse_loop. now rewrite fold_left_app. Qed.

Lemma fold_time (msgs : list msg) (st : parser) :
  current_time_sec (fold_left step msgs st)
  == current_time_sec st
     + timeline_seconds ticks_per_beat (current_tempo st) msgs.
Proof.
  revert st. induction msgs as [| m r IH]; intros st; cbn [fold_left].
  - cbn. lra.
  - rewrite IH, parse_msg_time, parse_msg_tempo. cbn [timeline_seconds].
    unfold tick2second. lra.
Qed.

Lemma fold_tempo (msgs : list msg) (st : parser) :
  current_tempo (fold_left step msgs st)
  = fold_left tempo_after msgs (current_tempo st).
Proof.
  revert st. induction msgs as [| m r IH]; intros st; cbn; [reflexivity |].
  now rewrite IH, parse_msg_tempo.
Qed.
End Timeline.

Lemma tick2second_linear (a b tpb tempo : Z) :
  tick2second (a + b) tpb tempo
  == tick2second a tpb tempo + tick2second b tpb tempo.
Proof.
  unfold tick2second, Qdiv. rewrite inject_Z_plus. ring.
Qed.

Lemma tick2second_scale (k a tpb tempo : Z) :
  tick2second (k * a) tpb tempo == inject_Z k * tick2second a tpb tempo.
Proof.
  unfold tick2second, Qdiv. rewrite inject_Z_mult. ring.
Qed.

Lemma tick2second_zero (tpb tempo : Z) : tick2second 0 tpb tempo == 0.
Proof. unfold tick2second, Qdiv. change (inject_Z 0) with 0. ring. Qed.

(** C4: the time the builder has reached after a message is the time
    before it plus delta_ticks * tempo / (ticks_per_beat * 1_000_000) for
    the tempo in effect before that message, a tempo change included, so
    that its breakpoint is timed under the prior tempo; the time after a
    whole stream is the sum of these terms; the conversion is additive
    and homogeneous in the tick delta and is zero for a zero delta. *)
Theorem timeline_times (ticks_per_beat : Z) :
  (forall pre m,
      current_time_sec (parse_loop setup_keys ticks_per_beat (pre ++ [m]))
      == current_time_sec (parse_loop setup_keys ticks_per_beat pre)
         + inject_Z (msg_time m)
           * inject_Z (fold_left tempo_after pre 500000%Z)
           / (inject_Z ticks_per_beat * 1000000))
  /\ (forall pre delta tempo,
        let before := parse_loop setup_keys ticks_per_beat pre in
        tempo_map (parse_loop setup_keys ticks_per_beat
                     (pre ++ [set_tempo delta tempo]))
        = tempo_map before
          ++ [(current_time_sec before
               + tick2second delta ticks_per_beat
                   (fold_left tempo_after pre 500000%Z),
               tempo2bpm tempo)])
  /\ (forall msgs,
        current_time_sec (parse_loop setup_keys ticks_per_beat msgs)
        == timeline_seconds ticks_per_beat 500000 msgs)
  /\ (forall a b tempo,
        tick2second (a + b) ticks_per_beat tempo
        == tick2second a ticks_per_beat tempo
           + tick2second b ticks_per_beat tempo)
  /\ (forall k a tempo,
        tick2second (k * a) ticks_per_beat tempo
        == inject_Z k * tick2second a ticks_per_beat tempo)
  /\ (forall tempo, tick2second 0 ticks_per_beat tempo == 0).
Proof.
  split; [| split; [| split; [| split; [| split]]]].
  - intros pre m. rewrite parse_loop_snoc, parse_msg_time.
    unfold parse_loop at 2. rewrite fold_tempo. reflexivity.
  - intros pre delta tempo. cbv zeta. rewrite parse_loop_snoc. cbn.
    unfold parse_loop at 3. rewrite fold_tempo. reflexivity.
  - intros msgs. unfold parse_loop. rewrite fold_time. cbn. lra.
  - intros. apply tick2second_linear.
  - intros. apply tick2second_scale.
  - intros. apply tick2second_zero.
Qed.

(** *** The keyboard *)

Lemma key_range_spec (i : Z) : In i key_range <-> (21 <= i <= 108)%Z.
Proof.
  unfold key_range. rewrite in_map_iff. split.
  - intros (k & <- & Hk). apply in_seq in Hk. lia.
  - intros H. exists (Z.to_nat (i - 21)). split; [lia |]. apply in_seq. lia.
Qed.

Lemma add_white_dom (l : list Z) (km : gmap Z Key) (i : Z) :
  is_Some (fold_left add_white l km !! i) -> is_Some (km !! i) \/ In i l.
Proof.
  revert km. induction l as [| j r IH]; intros km H; cbn [fold_left] in H;
    [now left |].
  destruct (IH _ H) as [H1 | H1]; [| now right; right].
  unfold add_white in H1. destruct (negb (is_black_pitch j)); [| now left].
  rewrite lookup_insert in H1. case_decide; [right; left; assumption | now left].
Qed.

Lemma add_black_dom (l : list Z) (km : gmap Z Key) (i : Z) :
  is_Some (fold_left add_black l km !! i) -> is_Some (km !! i) \/ In i l.
Proof.
  revert km. induction l as [| j r IH]; intros km H; cbn [fold_left] in H;
    [now left |].
  destruct (IH _ H) as [H1 | H1]; [| now right; right].
  unfold add_black in H1. destruct (is_black_pitch j); [| now left].
  destruct (km !! (j - 1)%Z); [| now left].
  rewrite lookup_insert in H1. case_decide; [right; left; assumption | now left].
Qed.

Lemma has_key_spec (km : gmap Z Key) (i : Z) :
  has_key km i = true <-> is_Some (km !! i).
Proof.
  unfold has_key. destruct (km !! i); split; intros H; eauto; try discriminate.
  destruct H as [? H]. discriminate.
Qed.

Lemma setup_keys_complete : forallb (has_key setup_keys) key_range = true.
Proof. vm_compute. reflexivity. Qed.

Lemma setup_keys_unfold :
  setup_keys = fold_left add_black key_range (fold_left add_white key_range ∅).
Proof. reflexivity. Qed.

(** [setup_keys] creates a key for each pitch of 21..108 and no other. *)
Lemma setup_keys_dom (i : Z) :
  is_Some (setup_keys !! i) <-> (21 <= i <= 108)%Z.
Proof.
  split.
  - intros H. apply key_range_spec. rewrite setup_keys_unfold in H.
    apply add_black_dom in H. destruct H as [H | H]; [| exact H].
    apply add_white_dom in H. destruct H as [H | H]; [| exact H].
    rewrite lookup_empty in H. destruct H as [? H]. discriminate.
  - intros H. apply key_range_spec in H. apply has_key_spec.
    exact (proj1 (forallb_forall _ _) setup_keys_complete i H).
Qed.

(** *** Durations *)

Lemma tick2second_nonneg (tick tpb tempo : Z) :
  (0 <= tick)%Z -> (0 <= tempo)%Z -> (0 < tpb)%Z ->
  0 <= tick2second tick tpb tempo.
Proof.
  intros H1 H2 H3. unfold tick2second, Qdiv.
  rewrite Zle_Qle in H1, H2. rewrite Zlt_Qlt in H3.
  change (inject_Z 0) with 0 in *.
  apply Qmult_le_0_compat; [now apply Qmult_le_0_compat |].
  apply Qinv_le_0_compat. apply Qmult_le_0_compat; lra.
Qed.

Section Durations.
Variable key_map : gmap Z Key.
Variable ticks_per_beat : Z.
Hypothesis tpb_pos : (0 < ticks_per_beat)%Z.

Lemma close_note_inv (st : parser) (now : Q) (note : Z) :
  parse_inv st -> current_time_sec st <= now ->
  parse_inv (close_note key_map now st note).
Proof.
  intros (Ht & Ha & Hn) Hnow. unfold close_note.
  destruct (active_notes st !! note) as [[start_t start_v] |] eqn:E.
  - split; [exact Ht |]. split.
    + cbn. intros k s v Hk. apply lookup_delete_Some in Hk.
      destruct Hk as [_ Hk]. specialize (Ha _ _ _ Hk). lra.
    + cbn. destruct (key_map !! note); [| exact Hn].
      apply Forall_app. split; [exact Hn |]. constructor; [| constructor].
      cbn. specialize (Ha _ _ _ E). lra.
  - split; [exact Ht |]. split; [| exact Hn].
    cbn. intros k s v Hk. specialize (Ha _ _ _ Hk). lra.
Qed.

Lemma parse_msg_inv (st : parser) (m : msg) :
  wf_msg m -> parse_inv st -> parse_inv (parse_msg key_map ticks_per_beat st m).
Proof.
  intros [Hd Hm] Hinv.
  assert (Hdelta : 0 <= tick2second (msg_time m) ticks_per_beat (current_tempo st)).
  { destruct Hinv as (Ht & _). now apply tick2second_nonneg. }
  unfold parse_msg. cbv zeta.
  set (now := current_time_sec st + _) in *.
  assert (Hnow : current_time_sec st <= now) by (subst now; lra).
  destruct m as [d tempo | d note vel | d note vel | d].
  - destruct Hinv as (Ht & Ha & Hn). split; [exact Hm |]. split; [| exact Hn].
    cbn. intros k s v Hk. specialize (Ha _ _ _ Hk). lra.
  - destruct (0 <? vel)%Z; [| now apply close_note_inv].
    destruct Hinv as (Ht & Ha & Hn). split; [exact Ht |]. split; [| exact Hn].
    cbn. intros k s v Hk. apply lookup_insert_Some in Hk.
    destruct Hk as [[_ Hk] | [_ Hk]].
    + injection Hk as <- _. lra.
    + specialize (Ha _ _ _ Hk). lra.
  - now apply close_note_inv.
  - destruct Hinv as (Ht & Ha & Hn). split; [exact Ht |]. split; [| exact Hn].
    cbn. intros k s v Hk. specialize (Ha _ _ _ Hk). lra.
Qed.

Lemma parse_loop_inv (msgs : list msg) :
  Forall wf_msg msgs -> parse_inv (parse_loop key_map ticks_per_beat msgs).
Proof.
  intros H. unfold parse_loop.
  assert (H0 : parse_inv parser_init).
  { split; [cbn; lia |]. split; [| constructor].
    cbn. intros k s v Hk. rewrite lookup_empty in Hk. discriminate. }
  revert H0. generalize parser_init.
  induction H as [| m r Hm _ IH]; intros st Hst; cbn; [exact Hst |].
  apply IH. now apply parse_msg_inv.
Qed.
End Durations.

Section Pairing.
Variable key_map : gmap Z Key.
Variable ticks_per_beat : Z.

Lemma close_note_keys (st : parser) (now : Q) (note : Z) :
  Forall (fun n => is_Some (key_map !! FallingNote.midi n)) (notes_list st) ->
  Forall (fun n => is_Some (key_map !! FallingNote.midi n))
    (notes_list (close_note key_map now st note)).
Proof.
  intros Hst. unfold close_note.
  destruct (active_notes st !! note) as [[s v] |];
    cbn [notes_list]; [| exact Hst].
  destruct (key_map !! note) eqn:E; [| exact Hst].
  apply Forall_app. split; [exact Hst |]. constructor; [| constructor].
  cbn [FallingNote.midi FallingNote.init]. rewrite E. eauto.
Qed.

Lemma parse_msg_keys (st : parser) (m : msg) :
  Forall (fun n => is_Some (key_map !! FallingNote.midi n)) (notes_list st) ->
  Forall (fun n => is_Some (key_map !! FallingNote.midi n))
    (notes_list (parse_msg key_map ticks_per_beat st m)).
Proof.
  intros Hst. destruct m; cbn [parse_msg notes_list]; try exact Hst.
  - destruct (0 <? velocity)%Z; [exact Hst | now apply close_note_keys].
  - now apply close_note_keys.
Qed.

Lemma parse_loop_keys (msgs : list msg) :
  Forall (fun n => is_Some (key_map !! FallingNote.midi n))
    (notes_list (parse_loop key_map ticks_per_beat msgs)).
Proof.
  unfold parse_loop.
  assert (H0 : Forall (fun n => is_Some (key_map !! FallingNote.midi n))
                 (notes_list parser_init)) by constructor.
  revert H0. generalize parser_init.
  induction msgs as [| m r IH]; intros st Hst; cbn [fold_left]; [exact Hst |].
  apply IH. now apply parse_msg_keys.
Qed.

Lemma zero_length_pair (msgs : list msg) (delta pitch vel vel' : Z) :
  is_Some (key_map !! pitch) -> (0 < vel)%Z ->
  exists n,
    In n (notes_list (parse_loop key_map ticks_per_beat
                        (msgs ++ [note_on delta pitch vel;
                                  note_off 0 pitch vel'])))
    /\ FallingNote.midi n = pitch
    /\ FallingNote.end_time n == FallingNote.start_time n.
Proof.
  intros [k Hk] Hv.
  change (msgs ++ [note_on delta pitch vel; note_off 0 pitch vel'])
    with (msgs ++ [note_on delta pitch vel] ++ [note_off 0 pitch vel']).
  rewrite app_assoc, !parse_loop_snoc.
  generalize (parse_loop key_map ticks_per_beat msgs). intros st.
  cbn [parse_msg msg_time]. apply Z.ltb_lt in Hv. rewrite Hv.
  unfold close_note. cbn [active_notes current_time_sec current_tempo
                            notes_list tempo_map].
  rewrite lookup_insert_eq, Hk. cbn [notes_list].
  eexists. split; [apply in_or_app; right; left; reflexivity |].
  split; [reflexivity |].
  cbn [FallingNote.end_time FallingNote.start_time FallingNote.init].
  rewrite tick2second_zero. lra.
Qed.
End Pairing.

(** *** Sorting *)

Lemma insert_by_start_In (n x : FallingNote) (l : list FallingNote) :
  In x (insert_by_start n l) <-> x = n \/ In x l.
Proof.
  induction l as [| m r IH]; cbn.
  - intuition.
  - destruct (Qle_bool _ _); cbn; [intuition |]. rewrite IH. intuition.
Qed.

Lemma sort_by_start_In (x : FallingNote) (l : list FallingNote) :
  In x (sort_by_start l) <-> In x l.
Proof.
  induction l as [| n r IH]; cbn; [reflexivity |].
  rewrite insert_by_start_In, IH. intuition.
Qed.

Lemma insert_by_start_sorted (n : FallingNote) (l : list FallingNote) :
  sorted_by_start_time l -> sorted_by_start_time (insert_by_start n l).
Proof.
  unfold sorted_by_start_time.
  induction 1 as [| m r Hr IH Hm]; cbn.
  - constructor; constructor.
  - destruct (Qle_boolP (FallingNote.start_time n) (FallingNote.start_time m)).
    + constructor; [now constructor |]. constructor; [assumption |].
      rewrite List.Forall_forall in *. intros x Hx. specialize (Hm x Hx). lra.
    + constructor; [exact IH |].
      rewrite List.Forall_forall in *. intros x Hx.
      apply insert_by_start_In in Hx. destruct Hx as [-> | Hx]; [lra | auto].
Qed.

Lemma sort_by_start_sorted (l : list FallingNote) :
  sorted_by_start_time (sort_by_start l).
Proof.
  induction l as [| n r IH]; cbn; [constructor |].
  now apply insert_by_start_sorted.
Qed.

(** C6 (amended): for a stream with unsigned deltas and tempos and a
    positive ticks-per-beat, every note of the built list has
    start <= end; nothing is dropped for its duration, and a note-off at
    the very time of its note-on yields a note with start = end. *)
Theorem parse_midi_durations (ticks_per_beat : Z) (msgs : list msg) :
  (0 < ticks_per_beat)%Z -> Forall wf_msg msgs ->
  (forall n, In n (fst (parse_midi ticks_per_beat msgs)) ->
             FallingNote.start_time n <= FallingNote.end_time n)
  /\ (forall delta pitch vel vel',
        (21 <= pitch <= 108)%Z -> (0 < vel)%Z ->
        exists n,
          In n (fst (parse_midi ticks_per_beat
                       (msgs ++ [note_on delta pitch vel; note_off 0 pitch vel'])))
          /\ FallingNote.midi n = pitch
          /\ FallingNote.end_time n == FallingNote.start_time n).
Proof.
  intros Htpb Hwf. split.
  - intros n Hn. unfold parse_midi in Hn. cbn [fst] in Hn.
    rewrite sort_by_start_In in Hn.
    destruct (parse_loop_inv setup_keys ticks_per_beat Htpb msgs Hwf)
      as (_ & _ & H).
    rewrite List.Forall_forall in H. now apply H.
  - intros delta pitch vel vel' Hp Hv. unfold parse_midi. cbn [fst].
    destruct (zero_length_pair setup_keys ticks_per_beat msgs delta pitch vel vel')
      as (n & Hn & Hrest); [now apply setup_keys_dom | exact Hv |].
    exists n. split; [| exact Hrest]. now apply sort_by_start_In.
Qed.

Lemma parse_midi_durations_witness :
  (0 < 480)%Z /\ Forall wf_msg [note_on 0 64 70; note_off 240 64 0]
  /\ (21 <= 60 <= 108)%Z /\ (0 < 80)%Z
  /\ (forall n,
        In n (fst (parse_midi 480 [note_on 0 64 70; note_off 240 64 0])) ->
        FallingNote.start_time n <= FallingNote.end_time n)
  /\ exists n,
      In n (fst (parse_midi 480
                   ([note_on 0 64 70; note_off 240 64 0]
                    ++ [note_on 0 60 80; note_off 0 60 0])))
      /\ FallingNote.midi n = 60%Z
      /\ FallingNote.end_time n == FallingNote.start_time n.
Proof.
  assert (Hwf : Forall wf_msg [note_on 0 64 70; note_off 240 64 0]).
  { repeat constructor; cbn; lia. }
  destruct (parse_midi_durations 480 [note_on 0 64 70; note_off 240 64 0]
              ltac:(lia) Hwf) as [H1 H2].
  split; [lia |]. split; [exact Hwf |]. split; [lia |]. split; [lia |].
  split; [exact H1 |]. apply (H2 0%Z 60%Z 80%Z 0%Z); lia.
Defined.

(** C6, as stated, fails: a note-off in the same tick as its note-on is
    paired into a note that is kept and has start = end. *)
Lemma zero_duration_note_kept :
  exists n,
    fst (parse_midi 480 [note_on 0 60 80; note_off 0 60 0]) = [n]
    /\ ~ FallingNote.start_time n < FallingNote.end_time n.
Proof.
  eexists. split; [vm_compute; reflexivity |].
  cbn [FallingNote.start_time FallingNote.end_time]. intros H. discriminate H.
Qed.

(** C7 (amended): a paired note whose pitch has no key is left out of the
    built list, so every note of the list has a pitch of 21..108 and its
    key lookup succeeds; the list is sorted by start time. *)
Theorem parse_midi_pitches (ticks_per_beat : Z) (msgs : list msg) :
  (forall n, In n (fst (parse_midi ticks_per_beat msgs)) ->
             (21 <= FallingNote.midi n <= 108)%Z
             /\ is_Some (setup_keys !! FallingNote.midi n))
  /\ sorted_by_start_time (fst (parse_midi ticks_per_beat msgs)).
Proof.
  split; [| apply sort_by_start_sorted].
  intros n Hn. unfold parse_midi in Hn. cbn [fst] in Hn.
  rewrite sort_by_start_In in Hn.
  assert (Hk := parse_loop_keys setup_keys ticks_per_beat msgs).
  rewrite List.Forall_forall in Hk. specialize (Hk n Hn).
  split; [now apply setup_keys_dom | exact Hk].
Qed.

(** C7, as stated, fails: a paired note on pitch 20 is not retained. *)
Lemma out_of_range_note_dropped :
  fst (parse_midi 480 [note_on 0 20 80; note_off 480 20 0]) = []
  /\ ~ (exists n,
          In n (fst (parse_midi 480 [note_on 0 20 80; note_off 480 20 0]))
          /\ FallingNote.midi n = 20%Z).
Proof.
  assert (H : fst (parse_midi 480 [note_on 0 20 80; note_off 480 20 0]) = [])
    by (vm_compute; reflexivity).
  split; [exact H |]. rewrite H. intros (n & [] & _).
Qed.

(** ** The loop over the notes *)

Ltac note_simpl :=
  cbn [FallingNote.hit FallingNote.playing FallingNote.midi
       FallingNote.start_time FallingNote.end_time FallingNote.velocity
       FallingNote.set_hit FallingNote.set_playing negb andb orb
       app fst snd key_after fold_left signal_midi signal_idx is_press
       is_release].

Lemma visit_spec (t : Q) (i : nat) (n : FallingNote) (km : gmap Z Key) :
  exists km',
    visit t i n km
    = (visit_note t n, km', visit_sigs t i n (has_key km (FallingNote.midi n)))
    /\ (forall q, is_Some (km' !! q) <-> is_Some (km !! q))
    /\ (forall q, pressed km' q
                  = key_after q
                      (visit_sigs t i n (has_key km (FallingNote.midi n)))
                      (pressed km q)).
Proof.
  unfold visit, visit_note, visit_sigs, press_key, release_key, has_key, pressed.
  destruct n as [m s e v h pl]. note_simpl.
  destruct (km !! m) as [k |] eqn:E;
    destruct h, pl, (Qle_bool s t); note_simpl;
    rewrite ?lookup_insert_eq, ?E; note_simpl;
    destruct (Qle_bool e t); note_simpl;
    rewrite ?lookup_insert_eq, ?E; note_simpl;
    eexists; (split; [reflexivity |]); split; intros q;
    rewrite ?lookup_insert; repeat case_decide; subst;
    rewrite ?Z.eqb_refl, ?E; try reflexivity;
    try (destruct (Z.eqb_spec m q); [congruence | reflexivity]);
    try (split; eauto).
Qed.

Lemma key_after_app (q : Z) (a b : list signal) (x : bool) :
  key_after q (a ++ b) x = key_after q b (key_after q a x).
Proof. unfold key_after. apply fold_left_app. Qed.

Lemma visit_sigs_ext (t : Q) (i : nat) (n : FallingNote) (k k' : bool) :
  k = k' -> visit_sigs t i n k = visit_sigs t i n k'.
Proof. now intros ->. Qed.

Lemma loop_sigs_ext (t : Q) (notes : list FallingNote) (key key' : Z -> bool) :
  (forall q, key q = key' q) ->
  forall i, loop_sigs t i notes key = loop_sigs t i notes key'.
Proof.
  intros H. induction notes as [| n r IH]; intros i; cbn [loop_sigs];
    [reflexivity |].
  now rewrite !IH, H.
Qed.

Lemma has_key_dom (km km' : gmap Z Key) :
  (forall q, is_Some (km' !! q) <-> is_Some (km !! q)) ->
  forall q, has_key km' q = has_key km q.
Proof.
  intros H q. specialize (H q). unfold has_key.
  destruct (km' !! q), (km !! q); try reflexivity.
  - destruct H as [H _]. destruct H as [? H]; [eauto | discriminate].
  - destruct H as [_ H]. destruct H as [? H]; [eauto | discriminate].
Qed.

Lemma notes_loop_spec (t : Q) (notes : list FallingNote) :
  forall (i : nat) (km : gmap Z Key),
  exists km',
    notes_loop t i notes km
    = (loop_notes t notes, km', loop_sigs t i notes (has_key km))
    /\ (forall q, is_Some (km' !! q) <-> is_Some (km !! q))
    /\ (forall q, pressed km' q
                  = key_after q (loop_sigs t i notes (has_key km)) (pressed km q)).
Proof.
  induction notes as [| n r IH]; intros i km; cbn [notes_loop loop_notes loop_sigs].
  - exists km. split; [reflexivity |]. split; [reflexivity |]. reflexivity.
  - destruct (Qgt_bool (FallingNote.start_time n) (t + 8)).
    { exists km. split; [reflexivity |]. split; [reflexivity |]. reflexivity. }
    destruct (Qlt_bool (FallingNote.end_time n) (t - 1)).
    { destruct (IH (S i) km) as (km' & E & Hd & Hp). exists km'.
      rewrite E. split; [reflexivity |]. split; assumption. }
    destruct (visit_spec t i n km) as (km1 & E1 & Hd1 & Hp1). rewrite E1.
    destruct (IH (S i) km1) as (km2 & E2 & Hd2 & Hp2). rewrite E2.
    rewrite (loop_sigs_ext t r _ _ (has_key_dom _ _ Hd1)).
    exists km2. split; [reflexivity |]. split.
    + intros q. rewrite Hd2. apply Hd1.
    + intros q. rewrite key_after_app, <- Hp1, Hp2.
      now rewrite (loop_sigs_ext t r _ _ (has_key_dom _ _ Hd1)).
Qed.

Lemma update_keys_pressed (km : gmap Z Key) (q : Z) :
  pressed (update_keys km) q = pressed km q.
Proof.
  unfold pressed, update_keys. rewrite lookup_fmap.
  destruct (km !! q) as [k |]; [| reflexivity].
  cbn [fmap option_fmap option_map]. unfold Key.update.
  destruct (Key.is_pressed k) eqn:E; [reflexivity | exact E].
Qed.

Lemma update_keys_dom (km : gmap Z Key) (q : Z) :
  is_Some (update_keys km !! q) <-> is_Some (km !! q).
Proof. unfold update_keys. rewrite lookup_fmap. apply fmap_is_Some. Qed.

Lemma frame_spec (t : Q) (notes : list FallingNote) (km : gmap Z Key) :
  exists km',
    frame t notes km = (loop_notes t notes, km', loop_sigs t 0 notes (has_key km))
    /\ (forall q, is_Some (km' !! q) <-> is_Some (km !! q))
    /\ (forall q, pressed km' q
                  = key_after q (loop_sigs t 0 notes (has_key km)) (pressed km q)).
Proof.
  unfold frame. destruct (notes_loop_spec t notes 0 km) as (km' & E & Hd & Hp).
  rewrite E. exists (update_keys km'). split; [reflexivity |]. split.
  - intros q. rewrite update_keys_dom. apply Hd.
  - intros q. rewrite update_keys_pressed. apply Hp.
Qed.

Lemma play_sigs_ext (times : list Q) (key key' : Z -> bool) :
  (forall q, key q = key' q) ->
  forall notes, play_sigs times notes key = play_sigs times notes key'.
Proof.
  intros H. induction times as [| t r IH]; intros notes; cbn [play_sigs];
    [reflexivity |].
  now rewrite IH, (loop_sigs_ext t notes key key' H).
Qed.

(** A run, decomposed: the notes, the signals, and the keys as the
    signals leave them. *)
Lemma play_spec (times : list Q) :
  forall (notes : list FallingNote) (km : gmap Z Key),
  exists km',
    play times notes km
    = (play_notes times notes, km', play_sigs times notes (has_key km))
    /\ (forall q, is_Some (km' !! q) <-> is_Some (km !! q))
    /\ (forall q, pressed km' q
                  = key_after q (play_sigs times notes (has_key km))
                      (pressed km q)).
Proof.
  induction times as [| t r IH]; intros notes km;
    cbn [play play_notes play_sigs].
  - exists km. split; [reflexivity |]. split; reflexivity.
  - destruct (frame_spec t notes km) as (km1 & E1 & Hd1 & Hp1). rewrite E1.
    destruct (IH (loop_notes t notes) km1) as (km2 & E2 & Hd2 & Hp2). rewrite E2.
    rewrite (play_sigs_ext r _ _ (has_key_dom _ _ Hd1)).
    exists km2. split; [reflexivity |]. split.
    + intros q. rewrite Hd2. apply Hd1.
    + intros q. rewrite key_after_app, <- Hp1, Hp2.
      now rewrite (play_sigs_ext r _ _ (has_key_dom _ _ Hd1)).
Qed.

(** ** Flags are only ever set; calls are counted by the flags *)

Lemma visit_note_progress (t : Q) (n : FallingNote) :
  note_progress n (visit_note t n).
Proof.
  unfold note_progress, same_note, visit_note.
  destruct n as [m s e v [] []]; note_simpl;
    destruct (Qle_bool s t); note_simpl; destruct (Qle_bool e t); note_simpl;
    repeat split; auto.
Qed.

Lemma note_progress_refl (n : FallingNote) : note_progress n n.
Proof. unfold note_progress, same_note. repeat split; auto. Qed.

Lemma note_progress_trans (a b c : FallingNote) :
  note_progress a b -> note_progress b c -> note_progress a c.
Proof.
  unfold note_progress, same_note.
  intros ((A1 & A2 & A3 & A4) & A5 & A6) ((B1 & B2 & B3 & B4) & B5 & B6).
  repeat split; try congruence; auto.
Qed.

Lemma loop_notes_progress (t : Q) (notes : list FallingNote) :
  Forall2 note_progress notes (loop_notes t notes).
Proof.
  induction notes as [| n r IH]; cbn [loop_notes]; [constructor |].
  destruct (Qgt_bool _ _).
  { clear IH. induction (n :: r); constructor; auto using note_progress_refl. }
  destruct (Qlt_bool _ _); constructor;
    auto using note_progress_refl, visit_note_progress.
Qed.

Lemma Forall2_progress_trans (a b c : list FallingNote) :
  Forall2 note_progress a b -> Forall2 note_progress b c ->
  Forall2 note_progress a c.
Proof.
  intros H. revert c. induction H as [| x y l l' Hxy _ IH]; intros c Hc;
    inversion Hc; subst; constructor; eauto using note_progress_trans.
Qed.

Lemma play_notes_progress (times : list Q) (notes : list FallingNote) :
  Forall2 note_progress notes (play_notes times notes).
Proof.
  revert notes. induction times as [| t r IH]; intros notes; cbn [play_notes].
  - induction notes; constructor; auto using note_progress_refl.
  - eapply Forall2_progress_trans; [apply loop_notes_progress | apply IH].
Qed.

Lemma count_press_app (j : nat) (a b : list signal) :
  count_press j (a ++ b) = (count_press j a + count_press j b)%nat.
Proof. unfold count_press. now rewrite List.filter_app, length_app. Qed.

Lemma count_release_app (j : nat) (a b : list signal) :
  count_release j (a ++ b) = (count_release j a + count_release j b)%nat.
Proof. unfold count_release. now rewrite List.filter_app, length_app. Qed.

Lemma count_key_release_app (p : Z) (a b : list signal) :
  count_key_release p (a ++ b)
  = (count_key_release p a + count_key_release p b)%nat.
Proof. unfold count_key_release. now rewrite List.filter_app, length_app. Qed.

Ltac visit_cases n t :=
  let m := fresh "m" in let s := fresh "s" in let e := fresh "e" in
  let v := fresh "v" in
  destruct n as [m s e v [] []]; note_simpl;
  destruct (Qle_bool s t); note_simpl; destruct (Qle_bool e t); note_simpl.

Lemma visit_press_count (t : Q) (i j : nat) (n : FallingNote) (key : bool) :
  (count_press j (visit_sigs t i n key)
   + (if Nat.eqb i j && negb (FallingNote.hit (visit_note t n)) then 1 else 0)
   <= (if Nat.eqb i j && negb (FallingNote.hit n) then 1 else 0))%nat.
Proof.
  unfold count_press, visit_sigs, visit_note.
  visit_cases n t; destruct key; cbn; destruct (Nat.eqb i j); cbn; lia.
Qed.

Lemma visit_release_count (t : Q) (i j : nat) (n : FallingNote) (key : bool) :
  (count_release j (visit_sigs t i n key)
   + (if Nat.eqb i j && negb (FallingNote.playing (visit_note t n)) then 1 else 0)
   <= (if Nat.eqb i j && negb (FallingNote.playing n) then 1 else 0))%nat.
Proof.
  unfold count_release, visit_sigs, visit_note.
  visit_cases n t; destruct key; cbn; destruct (Nat.eqb i j); cbn; lia.
Qed.

Lemma loop_press_count (t : Q) (j : nat) (key : Z -> bool)
    (notes : list FallingNote) :
  forall i,
    (count_press j (loop_sigs t i notes key)
     + pending_press i (loop_notes t notes) j
     <= pending_press i notes j)%nat.
Proof.
  induction notes as [| n r IH]; intros i;
    cbn [loop_sigs loop_notes pending_press]; [cbn; lia |].
  destruct (Qgt_bool _ _); [cbn; lia |].
  destruct (Qlt_bool _ _); cbn [pending_press].
  - specialize (IH (S i)). lia.
  - rewrite count_press_app. specialize (IH (S i)).
    assert (H := visit_press_count t i j n (key (FallingNote.midi n))). lia.
Qed.

Lemma loop_release_count (t : Q) (j : nat) (key : Z -> bool)
    (notes : list FallingNote) :
  forall i,
    (count_release j (loop_sigs t i notes key)
     + pending_release i (loop_notes t notes) j
     <= pending_release i notes j)%nat.
Proof.
  induction notes as [| n r IH]; intros i;
    cbn [loop_sigs loop_notes pending_release]; [cbn; lia |].
  destruct (Qgt_bool _ _); [cbn; lia |].
  destruct (Qlt_bool _ _); cbn [pending_release].
  - specialize (IH (S i)). lia.
  - rewrite count_release_app. specialize (IH (S i)).
    assert (H := visit_release_count t i j n (key (FallingNote.midi n))). lia.
Qed.

Lemma play_press_count (times : list Q) (j : nat) (key : Z -> bool) :
  forall notes,
    (count_press j (play_sigs times notes key)
     + pending_press 0 (play_notes times notes) j
     <= pending_press 0 notes j)%nat.
Proof.
  induction times as [| t r IH]; intros notes; cbn [play_sigs play_notes];
    [cbn; lia |].
  rewrite count_press_app. specialize (IH (loop_notes t notes)).
  assert (H := loop_press_count t j key notes 0%nat). lia.
Qed.

Lemma play_release_count (times : list Q) (j : nat) (key : Z -> bool) :
  forall notes,
    (count_release j (play_sigs times notes key)
     + pending_release 0 (play_notes times notes) j
     <= pending_release 0 notes j)%nat.
Proof.
  induction times as [| t r IH]; intros notes; cbn [play_sigs play_notes];
    [cbn; lia |].
  rewrite count_release_app. specialize (IH (loop_notes t notes)).
  assert (H := loop_release_count t j key notes 0%nat). lia.
Qed.

Lemma pending_press_below (notes : list FallingNote) :
  forall i j, (j < i)%nat -> pending_press i notes j = 0%nat.
Proof.
  induction notes as [| n r IH]; intros i j H; cbn [pending_press];
    [reflexivity |].
  rewrite IH by lia. destruct (Nat.eqb_spec i j); [lia | reflexivity].
Qed.

Lemma pending_release_below (notes : list FallingNote) :
  forall i j, (j < i)%nat -> pending_release i notes j = 0%nat.
Proof.
  induction notes as [| n r IH]; intros i j H; cbn [pending_release];
    [reflexivity |].
  rewrite IH by lia. destruct (Nat.eqb_spec i j); [lia | reflexivity].
Qed.

Lemma pending_press_nth (notes : list FallingNote) :
  forall i k,
    pending_press i notes (i + k)
    = match nth_error notes k with
      | Some n => if FallingNote.hit n then 0%nat else 1%nat
      | None => 0%nat
      end.
Proof.
  induction notes as [| n r IH]; intros i k; cbn [pending_press].
  - destruct k; reflexivity.
  - destruct k as [| k]; cbn [nth_error].
    + rewrite Nat.add_0_r, Nat.eqb_refl, pending_press_below by lia.
      destruct (FallingNote.hit n); reflexivity.
    + replace (i + S k)%nat with (S i + k)%nat by lia. rewrite IH.
      destruct (Nat.eqb_spec i (S i + k)); [lia | reflexivity].
Qed.

Lemma pending_release_nth (notes : list FallingNote) :
  forall i k,
    pending_release i notes (i + k)
    = match nth_error notes k with
      | Some n => if FallingNote.playing n then 0%nat else 1%nat
      | None => 0%nat
      end.
Proof.
  induction notes as [| n r IH]; intros i k; cbn [pending_release].
  - destruct k; reflexivity.
  - destruct k as [| k]; cbn [nth_error].
    + rewrite Nat.add_0_r, Nat.eqb_refl, pending_release_below by lia.
      destruct (FallingNote.playing n); reflexivity.
    + replace (i + S k)%nat with (S i + k)%nat by lia. rewrite IH.
      destruct (Nat.eqb_spec i (S i + k)); [lia | reflexivity].
Qed.

Lemma Forall2_nth_progress (a b : list FallingNote) (j : nat) (n : FallingNote) :
  Forall2 note_progress a b -> nth_error a j = Some n ->
  exists n', nth_error b j = Some n' /\ note_progress n n'.
Proof.
  intros H. revert j. induction H as [| x y l l' Hxy _ IH]; intros j Hj.
  - destruct j; discriminate.
  - destruct j as [| j]; cbn in *.
    + injection Hj as <-. eauto.
    + now apply IH.
Qed.

(** ** The flags as a function of the clock, for runs that move forward
       by at most one second per frame *)

Ltac split_time a b :=
  let H := fresh "Hcmp" in destruct (Qlt_le_dec a b) as [H | H].

Lemma note_step_flags (t' : option Q) (t : Q) (n : FallingNote) :
  FallingNote.start_time n <= FallingNote.end_time n ->
  step_ok t' t -> flags_before t' n ->
  flags_at t (if Qlt_bool (FallingNote.end_time n) (t - 1)
              then n else visit_note t n).
Proof.
  unfold flags_before, step_ok, flags_at, fresh, sounding, visit_note.
  destruct n as [m s e v h pl]. note_simpl.
  destruct (Qlt_boolP e (t - 1)); destruct h, pl; note_simpl;
    destruct (Qle_boolP s t); note_simpl;
    destruct (Qle_boolP e t); note_simpl;
    intros Hse Hstep Hb;
    destruct t' as [t0 |];
    try (destruct Hb as (B1 & B2 & B3);
         split_time t0 s; [specialize (B1 Hcmp) |];
         split_time t0 e;
         try (specialize (B2 ltac:(assumption) ltac:(assumption)));
         try (specialize (B3 ltac:(assumption) ltac:(assumption))));
    repeat match goal with
           | H : _ /\ _ |- _ => destruct H
           | H : true = false |- _ => discriminate H
           | H : false = true |- _ => discriminate H
           | H : false = false -> _ |- _ => specialize (H eq_refl)
           end;
    repeat split; intros; try reflexivity; try lra; try discriminate.
Qed.

Lemma note_break_flags (t' : option Q) (t : Q) (n : FallingNote) :
  t < FallingNote.start_time n ->
  step_ok t' t -> flags_before t' n -> flags_at t n.
Proof.
  unfold flags_before, step_ok, flags_at. intros Hlt Hstep Hb.
  assert (Hf : fresh n).
  { destruct t' as [t0 |]; [| exact Hb]. destruct Hb as (B1 & _). apply B1. lra. }
  repeat split; intros; try lra; apply Hf.
Qed.

Lemma ordered_notes_tail (n : FallingNote) (r : list FallingNote) :
  ordered_notes (n :: r) ->
  ordered_notes r
  /\ FallingNote.start_time n <= FallingNote.end_time n
  /\ (forall x, In x r -> FallingNote.start_time n <= FallingNote.start_time x).
Proof.
  intros [Hs Hd]. inversion Hs as [| ? ? Hr Hn]; subst.
  inversion Hd as [| ? ? Hne Hrd]; subst.
  split; [split; assumption |]. split; [assumption |].
  now apply List.Forall_forall.
Qed.

Lemma wf_notes_ordered (l : list FallingNote) : wf_notes l -> ordered_notes l.
Proof.
  intros [Hs Hd]. split; [| exact Hd]. clear Hd.
  unfold sorted_by_start_time.
  induction Hs as [| n r Hr IH Hn]; constructor; [exact IH |].
  rewrite List.Forall_forall in *. intros x Hx. now destruct (Hn x Hx).
Qed.

Lemma wf_notes_tail (n : FallingNote) (r : list FallingNote) :
  wf_notes (n :: r) ->
  wf_notes r
  /\ FallingNote.start_time n <= FallingNote.end_time n
  /\ (forall x, In x r -> note_before n x).
Proof.
  intros [Hs Hd]. inversion Hs as [| ? ? Hr Hn]; subst.
  inversion Hd as [| ? ? Hne Hrd]; subst.
  split; [split; assumption |]. split; [assumption |].
  now apply List.Forall_forall.
Qed.

Lemma loop_flags_at (t' : option Q) (t : Q) (notes : list FallingNote) :
  ordered_notes notes -> step_ok t' t ->
  Forall (flags_before t') notes ->
  Forall (flags_at t) (loop_notes t notes).
Proof.
  intros Hwf Hstep. induction notes as [| n r IH]; intros Hb;
    cbn [loop_notes]; [constructor |].
  destruct (ordered_notes_tail n r Hwf) as (Hwr & Hse & Hord).
  inversion Hb as [| ? ? Hbn Hbr]; subst.
  destruct (Qgt_boolP (FallingNote.start_time n) (t + 8)) as [Hbrk | Hbrk].
  - apply List.Forall_forall. intros x Hx.
    rewrite List.Forall_forall in Hb.
    apply (note_break_flags t'); [| exact Hstep | now apply Hb].
    destruct Hx as [<- | Hx]; [lra |].
    specialize (Hord x Hx). lra.
  - assert (Hn := note_step_flags t' t n Hse Hstep Hbn).
    destruct (Qlt_bool (FallingNote.end_time n) (t - 1));
      (constructor; [exact Hn | now apply IH]).
Qed.

Lemma nth_same_note (l l' : list FallingNote) (k : nat) (z : FallingNote) :
  Forall2 note_progress l l' -> nth_error l' k = Some z ->
  exists z0, nth_error l k = Some z0 /\ same_note z0 z.
Proof.
  intros Hl. revert k. induction Hl as [| p q u u' [Hpq _] _ IHl]; intros k Hk.
  - destruct k; discriminate.
  - destruct k as [| k]; cbn in *; [injection Hk as <-; eauto | auto].
Qed.

Lemma same_note_before (a a' b b' : FallingNote) :
  same_note a a' -> same_note b b' -> note_before a b -> note_before a' b'.
Proof.
  unfold same_note, note_before.
  intros (A1 & A2 & A3 & _) (B1 & B2 & B3 & _) [H1 H2].
  rewrite A1, A2, A3, B1, B2. split; assumption.
Qed.

Lemma wf_notes_progress (a b : list FallingNote) :
  Forall2 note_progress a b -> wf_notes a -> wf_notes b.
Proof.
  intros H. induction H as [| x y l l' Hxy Hl IH]; intros Hwf; [exact Hwf |].
  destruct (wf_notes_tail x l Hwf) as (Hwl & Hse & Hord).
  destruct (IH Hwl) as [Hs Hd]. destruct Hxy as [Hsame _].
  split.
  - constructor; [exact Hs |]. apply List.Forall_forall. intros z Hz.
    apply In_nth_error in Hz. destruct Hz as [k Hk].
    destruct (nth_same_note l l' k z Hl Hk) as (z0 & Hz0 & Hzz).
    apply (same_note_before x y z0 z Hsame Hzz).
    apply Hord. eapply nth_error_In. exact Hz0.
  - constructor; [| exact Hd].
    destruct Hsame as (_ & E2 & E3 & _). now rewrite E2, E3.
Qed.

Lemma ordered_notes_progress (a b : list FallingNote) :
  Forall2 note_progress a b -> ordered_notes a -> ordered_notes b.
Proof.
  intros H. induction H as [| x y l l' Hxy Hl IH]; intros Hwf; [exact Hwf |].
  destruct (ordered_notes_tail x l Hwf) as (Hwl & Hse & Hord).
  destruct (IH Hwl) as [Hs Hd]. destruct Hxy as [(_ & E2 & E3 & _) _].
  split.
  - constructor; [exact Hs |]. apply List.Forall_forall. intros z Hz.
    apply In_nth_error in Hz. destruct Hz as [k Hk].
    destruct (nth_same_note l l' k z Hl Hk) as (z0 & Hz0 & (_ & F2 & _)).
    rewrite E2, F2. apply Hord. eapply nth_error_In. exact Hz0.
  - constructor; [| exact Hd]. now rewrite E2, E3.
Qed.

Lemma play_flags_at (times : list Q) :
  forall (t' : option Q) (t : Q) (notes : list FallingNote),
    ordered_notes notes -> steps_ok t' (times ++ [t]) ->
    Forall (flags_before t') notes ->
    Forall (flags_at t) (play_notes (times ++ [t]) notes).
Proof.
  induction times as [| t1 r IH]; intros t' t notes Hwf Hsteps Hb.
  - cbn [app play_notes]. destruct Hsteps as [Hstep _].
    now apply (loop_flags_at t').
  - cbn [app play_notes]. destruct Hsteps as [Hstep Hrest].
    apply (IH (Some t1)); [| exact Hrest |].
    + eapply ordered_notes_progress; [apply loop_notes_progress | exact Hwf].
    + cbn [flags_before]. now apply (loop_flags_at t').
Qed.

(** ** The pressed flag of a key when the notes of its pitch do not
       overlap *)

Lemma key_after_visit (p : Z) (t : Q) (i : nat) (n : FallingNote)
    (k b : bool) :
  key_after p (visit_sigs t i n k) b
  = if Z.eqb (FallingNote.midi n) p && k then
      if (FallingNote.hit n || Qle_bool (FallingNote.start_time n) t)
         && negb (FallingNote.playing n)
         && Qle_bool (FallingNote.end_time n) t
      then false
      else if negb (FallingNote.hit n) && Qle_bool (FallingNote.start_time n) t
           then true else b
    else b.
Proof.
  unfold visit_sigs. visit_cases n t; destruct k; note_simpl;
    destruct (Z.eqb m p); reflexivity.
Qed.

Lemma sounding_before_time (t' : option Q) (n : FallingNote) :
  flags_before t' n -> sounding n ->
  exists t0, t' = Some t0
             /\ FallingNote.start_time n <= t0 /\ t0 < FallingNote.end_time n.
Proof.
  unfold flags_before, flags_at, fresh, sounding. intros Hb [Hh Hp].
  destruct t' as [t0 |]; [| destruct Hb; congruence].
  exists t0. split; [reflexivity |]. destruct Hb as (B1 & B2 & B3).
  split_time t0 (FallingNote.start_time n).
  { destruct (B1 Hcmp). congruence. }
  split; [assumption |]. split_time t0 (FallingNote.end_time n); [assumption |].
  destruct (B3 ltac:(assumption) ltac:(assumption)). congruence.
Qed.

Lemma spans_cons (p : Z) (t : Q) (n : FallingNote) (r : list FallingNote) :
  spans p t (n :: r)
  <-> (FallingNote.midi n = p
       /\ FallingNote.start_time n <= t /\ t < FallingNote.end_time n)
      \/ spans p t r.
Proof.
  unfold spans. split.
  - intros (x & [<- | Hx] & H); [now left | right; eauto].
  - intros [H | (x & Hx & H)]; [exists n | exists x]; cbn; auto.
Qed.

Lemma flagged_cons (p : Z) (n : FallingNote) (r : list FallingNote) :
  flagged p (n :: r) <-> (FallingNote.midi n = p /\ sounding n) \/ flagged p r.
Proof.
  unfold flagged. split.
  - intros (x & [<- | Hx] & H); [now left | right; eauto].
  - intros [H | (x & Hx & H)]; [exists n | exists x]; cbn; auto.
Qed.

Lemma all_pending_cons (p : Z) (t : Q) (n : FallingNote) (r : list FallingNote) :
  all_pending p t (n :: r)
  <-> (FallingNote.midi n = p -> t < FallingNote.start_time n)
      /\ all_pending p t r.
Proof.
  unfold all_pending. split.
  - intros H. split; [apply H; now left | intros x Hx; apply H; now right].
  - intros [H1 H2] x [<- | Hx]; auto.
Qed.

Ltac feed_arith :=
  repeat match goal with
         | H : ?P -> _ |- _ =>
             match type of P with
             | Prop => first [ specialize (H ltac:(lra))
                             | specialize (H ltac:(reflexivity)) ]
             end
         | H : _ /\ _ |- _ => destruct H
         | H : true = false |- _ => discriminate H
         | H : false = true |- _ => discriminate H
         end.

Ltac key_solve := intuition (try lra; try discriminate; try congruence).

Section KeyState.
Variables (p : Z) (t' : option Q) (t : Q) (key : Z -> bool).
Hypothesis key_p : key p = true.
Hypothesis Hstep : step_ok t' t.

Lemma loop_key_state (rest : list FallingNote) :
  wf_notes rest -> Forall (flags_before t') rest ->
  forall (i : nat) (b : bool),
    (b = true -> flagged p rest \/ all_pending p t rest) ->
    (flagged p rest -> b = true) ->
    (key_after p (loop_sigs t i rest key) b = true
     <-> spans p t rest \/ (b = true /\ all_pending p t rest)).
Proof.
  induction rest as [| n r IH]; intros Hwf Hfb i b H2 H3.
  - cbn [loop_sigs key_after fold_left]. unfold spans, all_pending.
    split; [intros ->; right; split; [reflexivity | intros ? []] |].
    intros [(x & [] & _) | [H _]]; exact H.
  - destruct (wf_notes_tail n r Hwf) as (Hwr & Hse & Hord).
    inversion Hfb as [| ? ? Hbn Hbr]; subst.
    specialize (IH Hwr Hbr (S i)).
    rewrite spans_cons, all_pending_cons.
    rewrite flagged_cons in H2, H3. rewrite all_pending_cons in H2.
    assert (A1 : FallingNote.midi n = p -> t < FallingNote.end_time n ->
                 all_pending p t r).
    { intros Hm Hlt x Hx Hxp. destruct (Hord x Hx) as [_ Hov].
      specialize (Hov ltac:(congruence)). lra. }
    assert (A2 : FallingNote.midi n = p -> t < FallingNote.end_time n ->
                 ~ spans p t r).
    { intros Hm Hlt (x & Hx & Hxp & Hxs & _). destruct (Hord x Hx) as [_ Hov].
      specialize (Hov ltac:(congruence)). lra. }
    assert (A3 : flagged p r -> ~ all_pending p t r).
    { intros (x & Hx & Hxp & Hxf) Hap. specialize (Hap x Hx Hxp).
      rewrite List.Forall_forall in Hbr.
      destruct (sounding_before_time t' x (Hbr x Hx) Hxf) as (t0 & -> & Hs & _).
      cbn [step_ok] in Hstep. lra. }
    assert (A4 : FallingNote.midi n = p -> flagged p r ->
                 match t' with
                 | Some t0 => FallingNote.end_time n <= t0
                 | None => False
                 end).
    { intros Hm (x & Hx & Hxp & Hxf). rewrite List.Forall_forall in Hbr.
      destruct (sounding_before_time t' x (Hbr x Hx) Hxf) as (t0 & -> & Hs & _).
      destruct (Hord x Hx) as [_ Hov]. specialize (Hov ltac:(congruence)). lra. }
    assert (A5 : t + 8 < FallingNote.start_time n ->
                 all_pending p t r /\ ~ spans p t r).
    { intros Hlt. split.
      - intros x Hx _. destruct (Hord x Hx) as [Hle _]. lra.
      - intros (x & Hx & _ & Hxs & _). destruct (Hord x Hx) as [Hle _]. lra. }
    assert (A6 : spans p t r -> ~ all_pending p t r).
    { intros (x & Hx & Hxp & Hxs & _) Hap. specialize (Hap x Hx Hxp). lra. }
    cbn [loop_sigs].
    destruct (Qgt_boolP (FallingNote.start_time n) (t + 8)) as [Hbrk | Hbrk].
    { cbn [key_after fold_left]. destruct (A5 Hbrk) as [Hap Hns].
      split; [intros ->; right; repeat split; auto; intros; lra |].
      intros [[(_ & Hs & _) | Hs] | [Hb _]]; [lra | contradiction | exact Hb]. }
    clear A5.
    destruct (Z.eq_dec (FallingNote.midi n) p) as [Hm | Hm].
    2: { assert (Hsame : forall l,
                   key_after p
                     (if Qlt_bool (FallingNote.end_time n) (t - 1) then l
                      else visit_sigs t i n (key (FallingNote.midi n)) ++ l) b
                   = key_after p l b).
         { intros l. destruct (Qlt_bool _ _); [reflexivity |].
           rewrite key_after_app, key_after_visit.
           destruct (Z.eqb_spec (FallingNote.midi n) p); [contradiction |].
           reflexivity. }
         assert (Hgoal : key_after p (loop_sigs t (S i) r key) b = true
                         <-> spans p t r \/ (b = true /\ all_pending p t r)).
         { apply IH; tauto. }
         destruct (Qlt_bool (FallingNote.end_time n) (t - 1));
           [| rewrite key_after_app, key_after_visit;
              destruct (Z.eqb_spec (FallingNote.midi n) p); [contradiction |];
              cbn [andb]];
           rewrite Hgoal; tauto. }
    specialize (A1 Hm). specialize (A2 Hm). specialize (A4 Hm).
    unfold flags_before, flags_at, fresh, sounding, step_ok in *.
    destruct n as [m s e v h pl]. cbn [FallingNote.hit FallingNote.playing
      FallingNote.midi FallingNote.start_time FallingNote.end_time] in *.
    subst m.
    destruct (Qlt_boolP e (t - 1)) as [Hskip | Hskip].
    + (* continue *)
      assert (G : key_after p (loop_sigs t (S i) r key) b = true
                  <-> spans p t r \/ (b = true /\ all_pending p t r)).
      { apply IH.
        - destruct t' as [t0 |]; destruct h, pl;
            try (split_time t0 s); try (split_time t0 e);
            feed_arith; try lra; key_solve.
        - tauto. }
      rewrite G. clear G IH.
      destruct t' as [t0 |]; destruct h, pl;
        try (split_time t0 s); try (split_time t0 e);
        feed_arith; try lra; key_solve.
    + rewrite key_after_app, key_after_visit.
      cbn [FallingNote.hit FallingNote.playing FallingNote.midi
           FallingNote.start_time FallingNote.end_time].
      rewrite key_p, Z.eqb_refl. cbn [andb].
      destruct h, pl; cbn [negb andb orb];
        destruct (Qle_boolP s t); cbn [negb andb orb];
        destruct (Qle_boolP e t); cbn [negb andb orb];
        (match goal with
         | |- key_after p _ ?b1 = true <-> _ =>
             let G := fresh "G" in
             assert (G : key_after p (loop_sigs t (S i) r key) b1 = true
                         <-> spans p t r \/ (b1 = true /\ all_pending p t r));
             [ apply IH;
               [ destruct t' as [t0 |];
                 try (split_time t0 s); try (split_time t0 e);
                 feed_arith; try lra; key_solve
               | destruct t' as [t0 |];
                 try (split_time t0 s); try (split_time t0 e);
                 feed_arith; try lra; key_solve ]
             | rewrite G; clear G IH;
               destruct t' as [t0 |];
               try (split_time t0 s); try (split_time t0 e);
               feed_arith; try lra; key_solve ]
         end).
Qed.
End KeyState.

Lemma spans_progress (p : Z) (t : Q) (a b : list FallingNote) :
  Forall2 note_progress a b -> (spans p t a <-> spans p t b).
Proof.
  intros H. induction H as [| x y l l' [(E1 & E2 & E3 & _) _] _ IH].
  - reflexivity.
  - rewrite !spans_cons, IH, E1, E2, E3. reflexivity.
Qed.

Lemma pressed_outside (km : gmap Z Key) (p : Z) :
  ~ is_Some (km !! p) -> pressed km p = false.
Proof.
  unfold pressed. destruct (km !! p); [| reflexivity].
  intros H. exfalso. apply H. eauto.
Qed.

Lemma frame_key_state (t' : option Q) (t : Q) (notes : list FallingNote)
    (km : gmap Z Key) (p : Z) :
  wf_notes notes -> step_ok t' t ->
  Forall (flags_before t') notes -> keys_before t' km notes ->
  is_Some (km !! p) ->
  (key_after p (loop_sigs t 0 notes (has_key km)) (pressed km p) = true
   <-> spans p t notes).
Proof.
  intros Hwf Hstep Hfb Hkb Hp.
  assert (Hkey : has_key km p = true) by now apply has_key_spec.
  assert (Hfl : flagged p notes -> pressed km p = true /\ ~ all_pending p t notes).
  { intros (x & Hx & Hxp & Hxf). rewrite List.Forall_forall in Hfb.
    destruct (sounding_before_time t' x (Hfb x Hx) Hxf) as (t0 & -> & Hs & He).
    cbn [keys_before step_ok] in *. split.
    - apply Hkb; [exact Hp |]. exists x. auto.
    - intros Hap. specialize (Hap x Hx Hxp). lra. }
  assert (Hpr : pressed km p = true -> flagged p notes).
  { intros Hb. destruct t' as [t0 |]; cbn [keys_before] in Hkb;
      [| rewrite Hkb in Hb; discriminate].
    apply Hkb in Hb; [| exact Hp]. destruct Hb as (x & Hx & Hxp & Hs & He).
    exists x. split; [exact Hx |]. split; [exact Hxp |].
    rewrite List.Forall_forall in Hfb. destruct (Hfb x Hx) as (_ & B2 & _).
    now apply B2. }
  rewrite (loop_key_state p t' t (has_key km) Hkey Hstep notes Hwf Hfb 0
             (pressed km p)); [| tauto | tauto].
  split; [| tauto]. intros [H | [Hb Hap]]; [exact H |].
  destruct (Hfl (Hpr Hb)) as [_ Hn]. contradiction.
Qed.

Lemma play_cons (t : Q) (later : list Q) (notes : list FallingNote)
    (km : gmap Z Key) :
  exists km1,
    (forall q, is_Some (km1 !! q) <-> is_Some (km !! q))
    /\ (forall q, pressed km1 q
                  = key_after q (loop_sigs t 0 notes (has_key km)) (pressed km q))
    /\ run_keys (play (t :: later) notes km)
       = run_keys (play later (loop_notes t notes) km1)
    /\ run_notes (play (t :: later) notes km)
       = run_notes (play later (loop_notes t notes) km1).
Proof.
  destruct (frame_spec t notes km) as (km1 & E1 & Hd1 & Hp1).
  exists km1. split; [exact Hd1 |]. split; [exact Hp1 |].
  cbn [play]. rewrite E1.
  destruct (play later (loop_notes t notes) km1) as [[a b] c].
  split; reflexivity.
Qed.

(** After any run that starts with all keys released and all flags
    cleared and moves forward by at most a second per frame, a key is
    pressed exactly when a note of its pitch spans the last frame time. *)
Lemma play_key_state (times : list Q) :
  forall (t' : option Q) (t : Q) (notes : list FallingNote) (km : gmap Z Key),
    wf_notes notes -> steps_ok t' (times ++ [t]) ->
    Forall (flags_before t') notes -> keys_before t' km notes ->
    forall p,
      (is_Some (km !! p) ->
       (pressed (run_keys (play (times ++ [t]) notes km)) p = true
        <-> spans p t notes))
      /\ (~ is_Some (km !! p) ->
          pressed (run_keys (play (times ++ [t]) notes km)) p = false).
Proof.
  induction times as [| t1 r IH]; intros t' t notes km Hwf Hsteps Hfb Hkb p.
  - cbn [app]. destruct Hsteps as [Hstep _].
    destruct (play_cons t [] notes km) as (km1 & Hd & Hp & -> & _).
    cbn [play run_keys fst snd]. split.
    + intros Hk. rewrite Hp. now apply (frame_key_state t').
    + intros Hk. apply pressed_outside. now rewrite Hd.
  - cbn [app]. destruct Hsteps as [Hstep Hrest].
    destruct (play_cons t1 (r ++ [t]) notes km) as (km1 & Hd & Hp & -> & _).
    assert (Hprog := loop_notes_progress t1 notes).
    assert (Hwf1 : wf_notes (loop_notes t1 notes))
      by (eapply wf_notes_progress; eauto).
    assert (Hfb1 : Forall (flags_before (Some t1)) (loop_notes t1 notes))
      by (apply (loop_flags_at t'); auto using wf_notes_ordered).
    assert (Hkb1 : keys_before (Some t1) km1 (loop_notes t1 notes)).
    { intros q Hq. rewrite <- (spans_progress q t1 _ _ Hprog), Hp.
      apply (frame_key_state t'); auto. now apply Hd. }
    destruct (IH (Some t1) t _ km1 Hwf1 Hrest Hfb1 Hkb1 p) as [H1 H2].
    split.
    + intros Hk. rewrite (spans_progress p t _ _ Hprog). apply H1. now apply Hd.
    + intros Hk. apply H2. now rewrite Hd.
Qed.

Lemma spans_Qeq (p : Z) (t1 t2 : Q) (l : list FallingNote) :
  t1 == t2 -> spans p t1 l -> spans p t2 l.
Proof.
  intros E (x & Hx & Hp & Hs & He). exists x. repeat split; auto; lra.
Qed.

Lemma fresh_flags_before (notes : list FallingNote) :
  Forall fresh notes -> Forall (flags_before None) notes.
Proof. intros H. exact H. Qed.

(** C3 (amended): for a list of notes sorted by start in which no two
    notes of a pitch overlap, two runs that start with cleared flags and
    released keys, never move back and never jump by more than a second
    per frame, and end at the same time, leave every key with the same
    pressed flag: set exactly when a note of the pitch spans that time. *)
Theorem forward_runs_agree (notes : list FallingNote) (km : gmap Z Key)
    (times1 times2 : list Q) (t1 t2 : Q) :
  wf_notes notes -> Forall fresh notes -> (forall p, pressed km p = false) ->
  steps_ok None (times1 ++ [t1]) -> steps_ok None (times2 ++ [t2]) ->
  t1 == t2 ->
  forall p,
    pressed (run_keys (play (times1 ++ [t1]) notes km)) p
    = pressed (run_keys (play (times2 ++ [t2]) notes km)) p
    /\ (is_Some (km !! p) ->
        (pressed (run_keys (play (times1 ++ [t1]) notes km)) p = true
         <-> spans p t1 notes)).
Proof.
  intros Hwf Hfr Hkm Hs1 Hs2 Ht p.
  destruct (play_key_state times1 None t1 notes km Hwf Hs1 Hfr Hkm p) as [A1 A2].
  destruct (play_key_state times2 None t2 notes km Hwf Hs2 Hfr Hkm p) as [B1 B2].
  split; [| exact A1].
  destruct (km !! p) as [k |] eqn:E.
  - assert (Hk : is_Some (Some k)) by eauto.
    specialize (A1 Hk). specialize (B1 Hk).
    destruct (pressed (run_keys (play (times1 ++ [t1]) notes km)) p);
      destruct (pressed (run_keys (play (times2 ++ [t2]) notes km)) p);
      try reflexivity.
    + assert (H : spans p t2 notes)
        by (apply (spans_Qeq p t1 t2); [exact Ht | now apply A1]).
      apply B1 in H. discriminate H.
    + assert (H : spans p t1 notes)
        by (apply (spans_Qeq p t2 t1); [now symmetry | now apply B1]).
      apply A1 in H. discriminate H.
  - assert (Hk : ~ is_Some (@None Key)) by (intros [? H]; discriminate H).
    now rewrite (A2 Hk), (B2 Hk).
Qed.

(** ** Calls on a key, counted by the flags of the notes of its pitch *)

Lemma count_key_press_app (p : Z) (a b : list signal) :
  count_key_press p (a ++ b) = (count_key_press p a + count_key_press p b)%nat.
Proof. unfold count_key_press. now rewrite List.filter_app, length_app. Qed.

Lemma unhit_cons (p : Z) (n : FallingNote) (r : list FallingNote) :
  unhit p (n :: r) = (unhit p [n] + unhit p r)%nat.
Proof.
  unfold unhit. cbn [List.filter]. destruct (_ && _); reflexivity.
Qed.

Lemma unplayed_cons (p : Z) (n : FallingNote) (r : list FallingNote) :
  unplayed p (n :: r) = (unplayed p [n] + unplayed p r)%nat.
Proof.
  unfold unplayed. cbn [List.filter]. destruct (_ && _); reflexivity.
Qed.

Lemma visit_key_counts (p : Z) (t : Q) (i : nat) (n : FallingNote) (k : bool) :
  (FallingNote.midi n = p -> k = true) ->
  (count_key_press p (visit_sigs t i n k) + unhit p [visit_note t n]
   = unhit p [n])%nat
  /\ (count_key_release p (visit_sigs t i n k) + unplayed p [visit_note t n]
      = unplayed p [n])%nat.
Proof.
  unfold count_key_press, count_key_release, unhit, unplayed,
    visit_sigs, visit_note.
  intros Hk. destruct (Z.eqb_spec (FallingNote.midi n) p) as [Hm | Hm].
  - rewrite (Hk Hm). revert Hm. visit_cases n t; intros <-; cbn;
      rewrite ?Z.eqb_refl; cbn; split; reflexivity.
  - revert Hm. visit_cases n t; intros Hm; destruct k; cbn;
      destruct (Z.eqb_spec m p); try contradiction; cbn; split; reflexivity.
Qed.

Lemma loop_key_counts (p : Z) (t : Q) (key : Z -> bool)
    (notes : list FallingNote) :
  key p = true ->
  forall i,
    (count_key_press p (loop_sigs t i notes key) + unhit p (loop_notes t notes)
     = unhit p notes)%nat
    /\ (count_key_release p (loop_sigs t i notes key)
        + unplayed p (loop_notes t notes)
        = unplayed p notes)%nat.
Proof.
  intros Hk. induction notes as [| n r IH]; intros i;
    cbn [loop_sigs loop_notes]; [split; reflexivity |].
  destruct (Qgt_bool _ _); [split; reflexivity |].
  destruct (IH (S i)) as [IH1 IH2].
  destruct (Qlt_bool _ _).
  - rewrite (unhit_cons p n (loop_notes t r)), (unhit_cons p n r),
      (unplayed_cons p n (loop_notes t r)), (unplayed_cons p n r). lia.
  - rewrite count_key_press_app, count_key_release_app.
    rewrite (unhit_cons p _ (loop_notes t r)), (unhit_cons p n r),
      (unplayed_cons p _ (loop_notes t r)), (unplayed_cons p n r).
    destruct (visit_key_counts p t i n (key (FallingNote.midi n))) as [V1 V2];
      [intros <-; exact Hk |]. lia.
Qed.

Lemma play_key_counts (p : Z) (key : Z -> bool) (times : list Q) :
  key p = true ->
  forall notes,
    (count_key_press p (play_sigs times notes key)
     + unhit p (play_notes times notes)
     = unhit p notes)%nat
    /\ (count_key_release p (play_sigs times notes key)
        + unplayed p (play_notes times notes)
        = unplayed p notes)%nat.
Proof.
  intros Hk. induction times as [| t r IH]; intros notes;
    cbn [play_sigs play_notes]; [split; reflexivity |].
  rewrite count_key_press_app, count_key_release_app.
  destruct (IH (loop_notes t notes)) as [IH1 IH2].
  destruct (loop_key_counts p t key notes Hk 0%nat) as [L1 L2]. lia.
Qed.

(** ** Released notes are never replayed *)

Lemma visit_note_hit_first (t : Q) (n : FallingNote) :
  (FallingNote.playing n = true -> FallingNote.hit n = true) ->
  FallingNote.playing (visit_note t n) = true ->
  FallingNote.hit (visit_note t n) = true.
Proof.
  unfold visit_note. visit_cases n t; intros H1 H2;
    try reflexivity; try discriminate; auto.
Qed.

Lemma loop_notes_hit_first (t : Q) (notes : list FallingNote) :
  Forall (fun n => FallingNote.playing n = true -> FallingNote.hit n = true)
    notes ->
  Forall (fun n => FallingNote.playing n = true -> FallingNote.hit n = true)
    (loop_notes t notes).
Proof.
  induction 1 as [| n r Hn Hr IH]; cbn [loop_notes]; [constructor |].
  destruct (Qgt_bool _ _); [now constructor |].
  destruct (Qlt_bool _ _); constructor; auto using visit_note_hit_first.
Qed.

Lemma play_notes_hit_first (times : list Q) :
  forall notes,
    Forall (fun n => FallingNote.playing n = true -> FallingNote.hit n = true)
      notes ->
    Forall (fun n => FallingNote.playing n = true -> FallingNote.hit n = true)
      (play_notes times notes).
Proof.
  induction times as [| t r IH]; intros notes H; cbn [play_notes]; [exact H |].
  apply IH. now apply loop_notes_hit_first.
Qed.

(** C2 (amended): once the release of a note has been processed in a run
    from cleared flags (its [playing] flag is set), no later sequence of
    clock values, a backward seek into [start, end) included, makes the
    loop call [press] or [release] for that note again; its flags stay
    set and its other fields unchanged. *)
Theorem no_replay_after_release (notes : list FallingNote) (km : gmap Z Key)
    (times1 times2 : list Q) (j : nat) (n1 : FallingNote) :
  Forall fresh notes ->
  nth_error (run_notes (play times1 notes km)) j = Some n1 ->
  FallingNote.playing n1 = true ->
  FallingNote.hit n1 = true
  /\ count_press j
       (run_signals (play times2 (run_notes (play times1 notes km))
                       (run_keys (play times1 notes km)))) = 0%nat
  /\ count_release j
       (run_signals (play times2 (run_notes (play times1 notes km))
                       (run_keys (play times1 notes km)))) = 0%nat
  /\ exists n2,
      nth_error
        (run_notes (play times2 (run_notes (play times1 notes km))
                      (run_keys (play times1 notes km)))) j = Some n2
      /\ same_note n1 n2
      /\ FallingNote.hit n2 = true /\ FallingNote.playing n2 = true.
Proof.
  intros Hfr.
  destruct (play_spec times1 notes km) as (km1 & E1 & _ & _). rewrite E1.
  unfold run_notes, run_keys, run_signals. cbn [fst snd]. intros Hj Hpl.
  assert (Hh : FallingNote.hit n1 = true).
  { assert (H := play_notes_hit_first times1 notes).
    rewrite !List.Forall_forall in H. apply (H ltac:(intros x Hx;
      rewrite List.Forall_forall in Hfr; destruct (Hfr x Hx); congruence) n1);
      [| exact Hpl].
    eapply nth_error_In. exact Hj. }
  destruct (play_spec times2 (play_notes times1 notes) km1) as (km2 & E2 & _ & _).
  rewrite E2. cbn [fst snd].
  assert (Cp := play_press_count times2 j (has_key km1) (play_notes times1 notes)).
  assert (Cr := play_release_count times2 j (has_key km1) (play_notes times1 notes)).
  assert (Np := pending_press_nth (play_notes times1 notes) 0 j).
  assert (Nr := pending_release_nth (play_notes times1 notes) 0 j).
  cbn [Nat.add] in Np, Nr. rewrite Hj in Np, Nr. rewrite Hh in Np. rewrite Hpl in Nr.
  split; [exact Hh |]. split; [lia |]. split; [lia |].
  destruct (Forall2_nth_progress _ _ j n1
              (play_notes_progress times2 (play_notes times1 notes)) Hj)
    as (n2 & Hn2 & Hs & H1 & H2).
  exists n2. auto.
Qed.

(** ** Concrete runs *)

Ltac split_all := repeat match goal with |- _ /\ _ => split end.

Lemma add_white_released (l : list Z) :
  forall km,
    (forall p, pressed km p = false) ->
    forall p, pressed (fold_left add_white l km) p = false.
Proof.
  induction l as [| j r IH]; intros km H; cbn [fold_left]; [exact H |].
  apply IH. intros p. unfold add_white.
  destruct (negb (is_black_pitch j)); [| apply H].
  unfold pressed. rewrite lookup_insert. case_decide; [reflexivity | apply H].
Qed.

Lemma add_black_released (l : list Z) :
  forall km,
    (forall p, pressed km p = false) ->
    forall p, pressed (fold_left add_black l km) p = false.
Proof.
  induction l as [| j r IH]; intros km H; cbn [fold_left]; [exact H |].
  apply IH. intros p. unfold add_black.
  destruct (is_black_pitch j); [| apply H].
  destruct (km !! (j - 1)%Z); [| apply H].
  unfold pressed. rewrite lookup_insert. case_decide; [reflexivity | apply H].
Qed.

(** [setup_keys] leaves every key released. *)
Lemma setup_keys_released (p : Z) : pressed setup_keys p = false.
Proof.
  rewrite setup_keys_unfold. apply add_black_released, add_white_released.
  intros q. unfold pressed. now rewrite lookup_empty.
Qed.

Lemma no_replay_after_release_witness :
  let n := FallingNote.init 60 1 4 (80 # 127) in
  let r1 := play [0; 1; 2; 3; 4] [n] setup_keys in
  Forall fresh [n]
  /\ note_flags (run_notes r1) = [(true, true)]
  /\ count_press 0 (run_signals (play [21 # 10] (run_notes r1) (run_keys r1)))
     = 0%nat.
Proof.
  intros n r1.
  assert (Hfr : Forall fresh [n]) by (repeat constructor).
  assert (Hfl : note_flags (run_notes r1) = [(true, true)])
    by (vm_compute; reflexivity).
  split; [exact Hfr |]. split; [exact Hfl |].
  destruct (nth_error (run_notes r1) 0) as [x |] eqn:E;
    [| vm_compute in E; discriminate E].
  assert (Hx : FallingNote.playing x = true).
  { revert E. vm_compute. intros E. injection E as <-. reflexivity. }
  destruct (no_replay_after_release [n] setup_keys [0; 1; 2; 3; 4] [21 # 10]
              0 x Hfr E Hx) as (_ & W & _).
  exact W.
Defined.

(** C2, as stated, fails: the note [1,4) on pitch 60 is released at 4.0;
    a left-arrow press in the next frame puts the clock at 2.1, inside
    the span, and that frame makes no call at all: the key stays
    released. *)
Lemma seek_back_no_retrigger :
  let notes := [FallingNote.init 60 1 4 (80 # 127)] in
  let g := main_loop [(0, 120)] ((0%Z, []) :: steady 40) (game_init notes) in
  let g' := main_iter [(0, 120)] g (100%Z, [KEYDOWN K_LEFT]) in
  (playback_time (g_clock g) == 4 /\ note_flags (g_notes g) = [(true, true)])
  /\ (playback_time (g_clock g') == 21 # 10
      /\ 1 <= playback_time (g_clock g') /\ playback_time (g_clock g') < 4)
  /\ g_log g' = g_log g
  /\ count_press 0 (g_log g') = 1%nat
  /\ pressed (g_keys g') 60 = false.
Proof.
  cbv zeta. split_all; try (vm_compute; reflexivity).
  vm_compute. discriminate.
Qed.

Lemma forward_runs_agree_witness :
  let notes := [FallingNote.init 60 1 2 (1 # 2);
                FallingNote.init 64 (3 # 2) (5 # 2) (1 # 2);
                FallingNote.init 60 2 3 (1 # 2)] in
  wf_notes notes /\ Forall fresh notes
  /\ steps_ok None ([0; 1 # 2; 1; 2] ++ [9 # 4])
  /\ steps_ok None ([2] ++ [18 # 8])
  /\ 9 # 4 == 18 # 8
  /\ forall p,
      pressed (run_keys (play ([0; 1 # 2; 1; 2] ++ [9 # 4]) notes setup_keys)) p
      = pressed (run_keys (play ([2] ++ [18 # 8]) notes setup_keys)) p.
Proof.
  intros notes.
  assert (Hwf : wf_notes notes).
  { split.
    - repeat constructor; cbn; try lra; intros H; try discriminate H.
    - repeat constructor; cbn; lra. }
  assert (Hfr : Forall fresh notes) by (repeat constructor).
  assert (H1 : steps_ok None ([0; 1 # 2; 1; 2] ++ [9 # 4]))
    by (cbn [app steps_ok step_ok]; repeat split; lra).
  assert (H2 : steps_ok None ([2] ++ [18 # 8]))
    by (cbn [app steps_ok step_ok]; repeat split; lra).
  assert (H3 : 9 # 4 == 18 # 8) by reflexivity.
  split; [exact Hwf |]. split; [exact Hfr |]. split; [exact H1 |].
  split; [exact H2 |]. split; [exact H3 |].
  intros p.
  destruct (forward_runs_agree notes setup_keys [0; 1 # 2; 1; 2] [2]
              (9 # 4) (18 # 8) Hwf Hfr setup_keys_released H1 H2 H3 p)
    as [W _].
  exact W.
Defined.

(** C3, as stated, fails: for the note [1,4) on pitch 60, a run of
    steady 100 ms frames and a run that goes on to 4.0 and then seeks
    back both end at 2.1, the first with the key pressed, the second
    with the key released. *)
Lemma scrub_depends_on_history :
  let notes := [FallingNote.init 60 1 4 (80 # 127)] in
  let forward :=
    main_loop [(0, 120)] ((0%Z, []) :: steady 21) (game_init notes) in
  let scrubbed :=
    main_loop [(0, 120)]
      ((0%Z, []) :: steady 40 ++ [(100%Z, [KEYDOWN K_LEFT])])
      (game_init notes) in
  playback_time (g_clock forward) == playback_time (g_clock scrubbed)
  /\ pressed (g_keys forward) 60 = true
  /\ pressed (g_keys scrubbed) 60 = false.
Proof.
  cbv zeta. split_all; vm_compute; reflexivity.
Qed.

(** ** The built list: pitch by pitch, notes never overlap *)

Lemma emitted_in_order_snoc (l : list FallingNote) (x : FallingNote) :
  emitted_in_order l ->
  (forall a, In a l -> FallingNote.midi a = FallingNote.midi x ->
             FallingNote.end_time a <= FallingNote.start_time x) ->
  emitted_in_order (l ++ [x]).
Proof.
  induction l as [| a r IH]; intros Hl Hx; cbn [app emitted_in_order].
  - split; [intros ? [] | exact I].
  - destruct Hl as [Ha Hr]. split.
    + intros b Hb Hm. apply in_app_or in Hb. destruct Hb as [Hb | [<- | []]].
      * now apply Ha.
      * apply Hx; [now left | exact Hm].
    + apply IH; [exact Hr |]. intros a' Ha'. apply Hx. now right.
Qed.

Section PairInv.
Variable key_map : gmap Z Key.
Variable ticks_per_beat : Z.
Hypothesis tpb_pos : (0 < ticks_per_beat)%Z.

Lemma close_note_pair_inv (st : parser) (now : Q) (note : Z) :
pair_inv st -> current_time_sec st <= now ->
pair_inv (close_note key_map now st note).
Proof.
intros (Ht & H0 & Ha & Hn & Ho) Hnow. unfold close_note.
destruct (active_notes st !! note) as [[start_t start_v] |] eqn:E.
- destruct (Ha _ _ _ E) as (Hs0 & Hs & Hprev).
  assert (Hact : forall q s v,
             delete note (active_notes st) !! q = Some (s, v) ->
             q <> note /\ active_notes st !! q = Some (s, v)).
  { intros q s v Hq. apply lookup_delete_Some in Hq.
    destruct Hq as [Hne Hq]. split; [congruence | exact Hq]. }
  destruct (key_map !! note) as [k |].
  + split; [exact Ht |]. split; [cbn; lra |]. split; [| split].
    * cbn [active_notes current_time_sec notes_list]. intros q s v Hq.
      destruct (Hact _ _ _ Hq) as [Hne Hq'].
      destruct (Ha _ _ _ Hq') as (A1 & A2 & A3).
      split; [exact A1 |]. split; [lra |].
      intros n Hin Hm. apply in_app_or in Hin.
      destruct Hin as [Hin | [<- | []]]; [now apply A3 |].
      cbn in Hm. congruence.
    * cbn [notes_list current_time_sec]. intros n Hin.
      apply in_app_or in Hin. destruct Hin as [Hin | [<- | []]].
      -- destruct (Hn n Hin) as (N1 & N2 & N3 & N4).
         repeat split; try assumption; try lra; apply N4.
      -- cbn. repeat split; lra.
    * cbn [notes_list]. apply emitted_in_order_snoc; [exact Ho |].
      intros a Hin Hm. cbn in Hm |- *. now apply Hprev.
  + split; [exact Ht |]. split; [cbn; lra |]. split; [| split].
    * cbn [active_notes current_time_sec notes_list]. intros q s v Hq.
      destruct (Hact _ _ _ Hq) as [Hne Hq'].
      destruct (Ha _ _ _ Hq') as (A1 & A2 & A3).
      split; [exact A1 |]. split; [lra | exact A3].
    * cbn [notes_list current_time_sec]. intros n Hin.
      destruct (Hn n Hin) as (N1 & N2 & N3 & N4).
      repeat split; try assumption; try lra; apply N4.
    * exact Ho.
- split; [exact Ht |]. split; [cbn; lra |]. split; [| split].
  + cbn [active_notes current_time_sec notes_list]. intros q s v Hq.
    destruct (Ha _ _ _ Hq) as (A1 & A2 & A3).
    split; [exact A1 |]. split; [lra | exact A3].
  + cbn [notes_list current_time_sec]. intros n Hin.
    destruct (Hn n Hin) as (N1 & N2 & N3 & N4).
    repeat split; try assumption; try lra; apply N4.
  + exact Ho.
Qed.

Lemma parse_msg_pair_inv (st : parser) (m : msg) :
wf_msg m -> pair_inv st -> pair_inv (parse_msg key_map ticks_per_beat st m).
Proof.
intros [Hd Hm] Hinv.
assert (Hdelta : 0 <= tick2second (msg_time m) ticks_per_beat (current_tempo st)).
{ destruct Hinv as (Ht & _). now apply tick2second_nonneg. }
unfold parse_msg. cbv zeta.
set (now := current_time_sec st + _) in *.
assert (Hnow : current_time_sec st <= now) by (subst now; lra).
assert (Hkeep : forall tempo,
           (0 <= tempo)%Z ->
           forall tm, pair_inv (mk_parser now tempo (active_notes st)
                                  (notes_list st) tm)).
{ intros tempo Htempo tm. destruct Hinv as (Ht & H0 & Ha & Hn & Ho).
  split; [exact Htempo |]. split; [cbn; lra |]. split; [| split].
  - cbn [active_notes current_time_sec notes_list]. intros q s v Hq.
    destruct (Ha _ _ _ Hq) as (A1 & A2 & A3).
    split; [exact A1 |]. split; [lra | exact A3].
  - cbn [notes_list current_time_sec]. intros n Hin.
    destruct (Hn n Hin) as (N1 & N2 & N3 & N4).
    repeat split; try assumption; try lra; apply N4.
  - exact Ho. }
destruct m as [d tempo | d note vel | d note vel | d].
- apply Hkeep. exact Hm.
- destruct (0 <? vel)%Z; [| now apply close_note_pair_inv].
  destruct Hinv as (Ht & H0 & Ha & Hn & Ho).
  split; [exact Ht |]. split; [cbn; lra |]. split; [| split].
  + cbn [active_notes current_time_sec notes_list]. intros q s v Hq.
    apply lookup_insert_Some in Hq. destruct Hq as [[<- Hq] | [_ Hq]].
    * injection Hq as <- _. split; [lra |]. split; [lra |].
      intros n Hin _. destruct (Hn n Hin) as (_ & _ & N3 & _). lra.
    * destruct (Ha _ _ _ Hq) as (A1 & A2 & A3).
      split; [exact A1 |]. split; [lra | exact A3].
  + cbn [notes_list current_time_sec]. intros n Hin.
    destruct (Hn n Hin) as (N1 & N2 & N3 & N4).
    repeat split; try assumption; try lra; apply N4.
  + exact Ho.
- now apply close_note_pair_inv.
- apply Hkeep. now destruct Hinv.
Qed.

Lemma parse_loop_pair_inv (msgs : list msg) :
Forall wf_msg msgs -> pair_inv (parse_loop key_map ticks_per_beat msgs).
Proof.
intros H. unfold parse_loop.
assert (H0 : pair_inv parser_init).
{ split; [cbn; lia |]. split; [cbn; lra |]. split; [| split].
  - cbn. intros q s v Hq. rewrite lookup_empty in Hq. discriminate.
  - intros n [].
  - exact I. }
revert H0. generalize parser_init.
induction H as [| m r Hm _ IH]; intros st Hst; cbn [fold_left]; [exact Hst |].
apply IH. now apply parse_msg_pair_inv.
Qed.
End PairInv.

Lemma insert_by_start_wf (n : FallingNote) (l : list FallingNote) :
  wf_notes l ->
  FallingNote.start_time n <= FallingNote.end_time n ->
  (forall x, In x l -> FallingNote.midi n = FallingNote.midi x ->
             FallingNote.end_time n <= FallingNote.start_time x) ->
  wf_notes (insert_by_start n l).
Proof.
  induction l as [| m r IH]; intros Hwf Hn Hx; cbn [insert_by_start].
  - split; repeat constructor. exact Hn.
  - destruct (wf_notes_tail m r Hwf) as (Hwr & Hm & Hord).
    destruct (Qle_boolP (FallingNote.start_time n) (FallingNote.start_time m))
      as [Hle | Hgt].
    + destruct Hwf as [Hs Hd]. split.
      * constructor; [exact Hs |]. apply List.Forall_forall. intros x Hin.
        split; [| now apply Hx].
        destruct Hin as [<- | Hin]; [exact Hle |].
        destruct (Hord x Hin) as [H1 _]. lra.
      * constructor; assumption.
    + assert (Hins : wf_notes (insert_by_start n r)).
      { apply IH; [exact Hwr | exact Hn |]. intros x Hin. apply Hx. now right. }
      destruct Hins as [Hs Hd]. split.
      * constructor; [exact Hs |]. apply List.Forall_forall. intros x Hin.
        apply insert_by_start_In in Hin. destruct Hin as [-> | Hin].
        -- split; [lra |]. intros Hmid.
           assert (H := Hx m ltac:(now left) ltac:(congruence)). lra.
        -- now apply Hord.
      * constructor; assumption.
Qed.

Lemma sort_by_start_wf (l : list FallingNote) :
  emitted_in_order l ->
  Forall (fun n => FallingNote.start_time n <= FallingNote.end_time n) l ->
  wf_notes (sort_by_start l).
Proof.
  induction l as [| n r IH]; intros Ho Hd; cbn [sort_by_start fold_right].
  - split; constructor.
  - destruct Ho as [Hn Hr]. inversion Hd as [| ? ? Hnd Hrd]; subst.
    apply insert_by_start_wf; [now apply IH | exact Hnd |].
    intros x Hin. apply Hn. now apply sort_by_start_In.
Qed.

Lemma built_list_wf_aux (ticks_per_beat : Z) (msgs : list msg) :
  (0 < ticks_per_beat)%Z -> Forall wf_msg msgs ->
  wf_notes (fst (parse_midi ticks_per_beat msgs))
  /\ (forall n, In n (fst (parse_midi ticks_per_beat msgs)) ->
                0 <= FallingNote.start_time n /\ fresh n).
Proof.
  intros Htpb Hwf. unfold parse_midi. cbn [fst].
  destruct (parse_loop_pair_inv setup_keys ticks_per_beat Htpb msgs Hwf)
    as (_ & _ & _ & Hn & Ho).
  split.
  - apply sort_by_start_wf; [exact Ho |]. apply List.Forall_forall.
    intros n Hin. now destruct (Hn n Hin) as (_ & H & _).
  - intros n Hin. rewrite sort_by_start_In in Hin.
    destruct (Hn n Hin) as (H1 & _ & _ & H4). split; assumption.
Qed.

(** X1: whatever the stream (unsigned deltas and tempos, positive
    ticks-per-beat), the built list is sorted by start, every note has
    0 <= start <= end and cleared flags, and a note ends before the next
    note of the same pitch starts. *)
Theorem built_list_wf (ticks_per_beat : Z) (msgs : list msg) :
  (0 < ticks_per_beat)%Z -> Forall wf_msg msgs ->
  wf_notes (fst (parse_midi ticks_per_beat msgs))
  /\ (forall n, In n (fst (parse_midi ticks_per_beat msgs)) ->
                0 <= FallingNote.start_time n /\ fresh n).
Proof. exact (built_list_wf_aux ticks_per_beat msgs). Qed.

Lemma built_list_wf_witness :
  let msgs := [note_on 0 60 80; note_on 240 64 70; note_off 240 60 0;
               note_on 0 60 90; note_off 480 64 0; note_on 0 60 0] in
  (0 < 480)%Z /\ Forall wf_msg msgs
  /\ wf_notes (fst (parse_midi 480 msgs))
  /\ length (fst (parse_midi 480 msgs)) = 3%nat.
Proof.
  intros msgs.
  assert (Hwf : Forall wf_msg msgs) by (repeat constructor; cbn; lia).
  destruct (built_list_wf 480 msgs ltac:(lia) Hwf) as [W _].
  split; [lia |]. split; [exact Hwf |]. split; [exact W |].
  vm_compute. reflexivity.
Defined.

(** X2: the builder and the player composed: for the list built from any
    well-formed stream, after a run from the initial state that never
    moves back and advances by at most a second per frame, a key of the
    keyboard is pressed exactly when a built note of its pitch spans the
    time of the last frame. *)
Theorem built_list_forward_keys (ticks_per_beat : Z) (msgs : list msg)
    (times : list Q) (t : Q) (p : Z) :
  (0 < ticks_per_beat)%Z -> Forall wf_msg msgs ->
  steps_ok None (times ++ [t]) -> (21 <= p <= 108)%Z ->
  (pressed
     (run_keys (play (times ++ [t]) (fst (parse_midi ticks_per_beat msgs))
                  setup_keys)) p = true
   <-> spans p t (fst (parse_midi ticks_per_beat msgs))).
Proof.
  intros Htpb Hwf Hsteps Hp.
  destruct (built_list_wf_aux ticks_per_beat msgs Htpb Hwf) as [Hw Hf].
  assert (Hfr : Forall (flags_before None) (fst (parse_midi ticks_per_beat msgs))).
  { apply List.Forall_forall. intros n Hin. now destruct (Hf n Hin). }
  destruct (play_key_state times None t _ setup_keys Hw Hsteps Hfr
              setup_keys_released p) as [H _].
  apply H. now apply setup_keys_dom.
Qed.

Lemma built_list_forward_keys_witness :
  let msgs := [note_on 0 60 80; note_off 480 60 0] in
  (0 < 480)%Z /\ Forall wf_msg msgs
  /\ steps_ok None ([0; 1 # 10; 2 # 10] ++ [3 # 10]) /\ (21 <= 60 <= 108)%Z
  /\ (pressed
        (run_keys (play ([0; 1 # 10; 2 # 10] ++ [3 # 10])
                     (fst (parse_midi 480 msgs)) setup_keys)) 60 = true
      <-> spans 60 (3 # 10) (fst (parse_midi 480 msgs))).
Proof.
  intros msgs.
  assert (Hwf : Forall wf_msg msgs) by (repeat constructor; cbn; lia).
  assert (Hs : steps_ok None ([0; 1 # 10; 2 # 10] ++ [3 # 10]))
    by (cbn [app steps_ok step_ok]; repeat split; lra).
  split; [lia |]. split; [exact Hwf |]. split; [exact Hs |]. split; [lia |].
  apply (built_list_forward_keys 480 msgs [0; 1 # 10; 2 # 10] (3 # 10) 60);
    [lia | exact Hwf | exact Hs | lia].
Defined.

(** ** Pairs, orphans and velocities *)

Lemma insert_by_start_length (n : FallingNote) (l : list FallingNote) :
  length (insert_by_start n l) = S (length l).
Proof.
  induction l as [| m r IH]; cbn [insert_by_start]; [reflexivity |].
  destruct (Qle_bool _ _); cbn [length]; [reflexivity | now rewrite IH].
Qed.

Lemma sort_by_start_length (l : list FallingNote) :
  length (sort_by_start l) = length l.
Proof.
  induction l as [| n r IH]; cbn [sort_by_start fold_right]; [reflexivity |].
  fold (sort_by_start r). now rewrite insert_by_start_length, IH.
Qed.

Section Pairs.
Variable key_map : gmap Z Key.
Variable ticks_per_beat : Z.

Local Abbreviation step := (parse_msg key_map ticks_per_beat).

Lemma close_note_counts (st : parser) (now : Q) (note : Z) :
(length (notes_list (close_note key_map now st note))
 + size (active_notes (close_note key_map now st note))
 <= length (notes_list st) + size (active_notes st))%nat
/\ (length (notes_list (close_note key_map now st note))
    <= S (length (notes_list st)))%nat
/\ (length (notes_list st)
    <= length (notes_list (close_note key_map now st note)))%nat.
Proof.
unfold close_note.
destruct (active_notes st !! note) as [[s v] |] eqn:E;
  cbn [notes_list active_notes]; [| lia].
rewrite map_size_delete, E.
assert (Hpos : (0 < size (active_notes st))%nat).
{ destruct (size (active_notes st)) eqn:Hs; [| lia].
  apply map_size_empty_inv in Hs. rewrite Hs, lookup_empty in E. discriminate. }
destruct (key_map !! note); rewrite ?length_app; cbn [length]; lia.
Qed.

Lemma parse_msg_counts (st : parser) (m : msg) :
(length (notes_list (step st m)) + size (active_notes (step st m))
 <= length (notes_list st) + size (active_notes st)
    + (if is_opener m then 1 else 0))%nat
/\ (length (notes_list (step st m))
    <= length (notes_list st) + (if is_closer m then 1 else 0))%nat.
Proof.
destruct m as [d tempo | d note vel | d note vel | d];
  cbn [parse_msg is_opener is_closer notes_list active_notes]; try lia.
- destruct (0 <? vel)%Z; cbn [negb notes_list active_notes].
  + rewrite map_size_insert. destruct (active_notes st !! note); cbn; lia.
  + destruct (close_note_counts st
                (current_time_sec st
                 + tick2second (msg_time (note_on d note vel)) ticks_per_beat
                     (current_tempo st)) note) as (H1 & H2 & _). lia.
- destruct (close_note_counts st
              (current_time_sec st
               + tick2second (msg_time (note_off d note vel)) ticks_per_beat
                   (current_tempo st)) note) as (H1 & H2 & _). lia.
Qed.

Lemma parse_fold_counts (msgs : list msg) :
forall st,
  (length (notes_list (fold_left step msgs st))
   + size (active_notes (fold_left step msgs st))
   <= length (notes_list st) + size (active_notes st)
      + length (List.filter is_opener msgs))%nat
  /\ (length (notes_list (fold_left step msgs st))
      <= length (notes_list st) + length (List.filter is_closer msgs))%nat.
Proof.
induction msgs as [| m r IH]; intros st; cbn [fold_left List.filter];
  [cbn; lia |].
destruct (IH (step st m)) as [I1 I2].
destruct (parse_msg_counts st m) as [M1 M2].
destruct (is_opener m), (is_closer m); cbn [length]; lia.
Qed.

(** A pitch for which the stream has no closing message yields no note. *)
Lemma parse_fold_orphans (p : Z) (msgs : list msg) :
forall st,
  Forall (fun m => is_closer m = true -> msg_note m <> Some p) msgs ->
  Forall (fun n => FallingNote.midi n <> p) (notes_list st) ->
  Forall (fun n => FallingNote.midi n <> p)
    (notes_list (fold_left step msgs st)).
Proof.
induction msgs as [| m r IH]; intros st Hm Hst; cbn [fold_left]; [exact Hst |].
inversion Hm as [| ? ? Hm1 Hmr]; subst. apply IH; [exact Hmr |].
assert (Hc : forall now note,
           note <> p ->
           Forall (fun n => FallingNote.midi n <> p)
             (notes_list (close_note key_map now st note))).
{ intros now note Hne. unfold close_note.
  destruct (active_notes st !! note) as [[s v] |]; cbn [notes_list];
    [| exact Hst].
  destruct (key_map !! note); [| exact Hst].
  apply Forall_app. split; [exact Hst |]. constructor; [| constructor].
  exact Hne. }
destruct m as [d tempo | d note vel | d note vel | d];
  cbn [parse_msg notes_list]; try exact Hst.
- cbn [is_closer msg_note] in Hm1.
  destruct (0 <? vel)%Z; [exact Hst |].
  apply Hc. intros ->. now apply Hm1.
- cbn [is_closer msg_note] in Hm1. apply Hc. intros ->. now apply Hm1.
Qed.
End Pairs.

(** X3: every built note comes from a pair of its own: the built list
    has at most as many notes as the stream has note-ons of positive
    velocity, and at most as many as it has closing messages (note-offs
    and note-ons of velocity 0); in particular a stream without closing
    messages builds nothing. *)
Theorem built_list_bounded_by_pairs (ticks_per_beat : Z) (msgs : list msg) :
  (length (fst (parse_midi ticks_per_beat msgs))
   <= length (List.filter is_opener msgs))%nat
  /\ (length (fst (parse_midi ticks_per_beat msgs))
      <= length (List.filter is_closer msgs))%nat.
Proof.
  unfold parse_midi, parse_loop. cbn [fst]. rewrite sort_by_start_length.
  destruct (parse_fold_counts setup_keys ticks_per_beat msgs parser_init)
    as [H1 H2].
  cbn [parser_init notes_list active_notes length] in H1, H2.
  rewrite map_size_empty in H1. lia.
Qed.

(** X4: orphans are dropped: a pitch for which the stream carries no
    closing message has no note in the built list, however many
    note-ons it has. *)
Theorem orphan_pitch_dropped (ticks_per_beat : Z) (msgs : list msg) (p : Z) :
  Forall (fun m => is_closer m = true -> msg_note m <> Some p) msgs ->
  forall n, In n (fst (parse_midi ticks_per_beat msgs)) ->
            FallingNote.midi n <> p.
Proof.
  intros Hm n Hin. unfold parse_midi, parse_loop in Hin. cbn [fst] in Hin.
  rewrite sort_by_start_In in Hin.
  assert (H := parse_fold_orphans setup_keys ticks_per_beat p msgs parser_init
                 Hm ltac:(constructor)).
  rewrite List.Forall_forall in H. now apply H.
Qed.

Lemma orphan_pitch_dropped_witness :
  let msgs := [note_on 0 60 80; note_on 10 62 80; note_off 470 62 0] in
  Forall (fun m => is_closer m = true -> msg_note m <> Some 60%Z) msgs
  /\ forall n, In n (fst (parse_midi 480 msgs)) -> FallingNote.midi n <> 60%Z.
Proof.
  intros msgs.
  assert (H : Forall (fun m => is_closer m = true -> msg_note m <> Some 60%Z) msgs).
  { repeat constructor; cbn; intros; congruence. }
  split; [exact H |]. exact (orphan_pitch_dropped 480 msgs 60 H).
Defined.

(** ** Velocities, the tempo map, and repeated note-ons *)

Lemma velocity_unit (v : Z) :
  (0 < v <= 127)%Z -> 0 < inject_Z v / 127 /\ inject_Z v / 127 <= 1.
Proof.
  intros [H1 H2]. rewrite Zlt_Qlt in H1. rewrite Zle_Qle in H2.
  change (inject_Z 0) with 0 in H1. change (inject_Z 127) with 127 in H2.
  split.
  - apply Qlt_shift_div_l; lra.
  - apply Qle_shift_div_r; lra.
Qed.

Section Velocities.
Variable key_map : gmap Z Key.
Variable ticks_per_beat : Z.

Local Abbreviation step := (parse_msg key_map ticks_per_beat).

Lemma close_note_velocity (st : parser) (now : Q) (note : Z) :
velocity_inv st -> velocity_inv (close_note key_map now st note).
Proof.
intros [Ha Hn]. unfold close_note.
destruct (active_notes st !! note) as [[s v] |] eqn:E; [| split; assumption].
split.
- cbn [active_notes]. intros q s' v' Hq. apply lookup_delete_Some in Hq.
  destruct Hq as [_ Hq]. eapply Ha. exact Hq.
- cbn [notes_list]. destruct (key_map !! note); [| exact Hn].
  apply Forall_app. split; [exact Hn |]. constructor; [| constructor].
  cbn. apply velocity_unit. eapply Ha. exact E.
Qed.

Lemma parse_msg_velocity (st : parser) (m : msg) :
wf_velocity m -> velocity_inv st -> velocity_inv (step st m).
Proof.
intros Hm Hinv.
destruct m as [d tempo | d note vel | d note vel | d];
  cbn [parse_msg]; try exact Hinv; try now apply close_note_velocity.
destruct (0 <? vel)%Z eqn:Ev; [| now apply close_note_velocity].
destruct Hinv as [Ha Hn]. split; [| exact Hn].
cbn [active_notes]. intros q s v Hq. apply lookup_insert_Some in Hq.
destruct Hq as [[_ Hq] | [_ Hq]]; [| eapply Ha; exact Hq].
injection Hq as _ <-. apply Z.ltb_lt in Ev. cbn in Hm. lia.
Qed.

Lemma parse_fold_velocity (msgs : list msg) :
forall st, Forall wf_velocity msgs -> velocity_inv st ->
           velocity_inv (fold_left step msgs st).
Proof.
induction msgs as [| m r IH]; intros st Hm Hst; cbn [fold_left]; [exact Hst |].
inversion Hm; subst. apply IH; [assumption |]. now apply parse_msg_velocity.
Qed.
End Velocities.

(** X5: when the velocities of the stream are 7-bit values, the velocity
    stored in every built note (the note-on velocity over 127) lies in
    (0, 1]. *)
Theorem built_velocity_unit (ticks_per_beat : Z) (msgs : list msg) :
  Forall wf_velocity msgs ->
  forall n, In n (fst (parse_midi ticks_per_beat msgs)) ->
            0 < FallingNote.velocity n /\ FallingNote.velocity n <= 1.
Proof.
  intros Hm n Hin. unfold parse_midi, parse_loop in Hin. cbn [fst] in Hin.
  rewrite sort_by_start_In in Hin.
  destruct (parse_fold_velocity setup_keys ticks_per_beat msgs parser_init Hm)
    as [_ H].
  { split; [| constructor]. cbn. intros q s v Hq.
    rewrite lookup_empty in Hq. discriminate. }
  rewrite List.Forall_forall in H. now apply H.
Qed.

Lemma built_velocity_unit_witness :
  let msgs := [note_on 0 60 127; note_off 480 60 64; note_on 0 61 1;
               note_on 480 61 0] in
  Forall wf_velocity msgs
  /\ length (fst (parse_midi 480 msgs)) = 2%nat
  /\ forall n, In n (fst (parse_midi 480 msgs)) ->
               0 < FallingNote.velocity n /\ FallingNote.velocity n <= 1.
Proof.
  intros msgs.
  assert (H : Forall wf_velocity msgs) by (repeat constructor; cbn; lia).
  split; [exact H |]. split; [vm_compute; reflexivity |].
  exact (built_velocity_unit 480 msgs H).
Defined.

(** *** The tempo map *)

Lemma sorted_snoc (l : list Q) (x : Q) :
  StronglySorted Qle l -> Forall (fun y => y <= x) l ->
  StronglySorted Qle (l ++ [x]).
Proof.
  induction 1 as [| a r Hr IH Ha]; intros Hx; cbn [app].
  - repeat constructor.
  - inversion Hx as [| ? ? Hax Hrx]; subst.
    constructor; [now apply IH |].
    apply Forall_app. split; [exact Ha | now repeat constructor].
Qed.

Section TempoMap.
Variable key_map : gmap Z Key.
Variable ticks_per_beat : Z.
Hypothesis tpb_pos : (0 < ticks_per_beat)%Z.

Local Abbreviation step := (parse_msg key_map ticks_per_beat).

Lemma close_note_same (st : parser) (now : Q) (note : Z) :
current_time_sec (close_note key_map now st note) = now
/\ current_tempo (close_note key_map now st note) = current_tempo st
/\ tempo_map (close_note key_map now st note) = tempo_map st.
Proof.
unfold close_note. destruct (active_notes st !! note) as [[s v] |];
  repeat split.
Qed.

Lemma parse_msg_tempo_inv (st : parser) (m : msg) :
wf_msg m -> tempo_inv st -> tempo_inv (step st m).
Proof.
intros [Hd Hm] (Ht & H0 & Hs & Hb).
assert (Hdelta : 0 <= tick2second (msg_time m) ticks_per_beat (current_tempo st))
  by now apply tick2second_nonneg.
assert (Hweak : Forall (fun b : Q * Q =>
                          0 <= fst b
                          /\ fst b <= current_time_sec st
                                     + tick2second (msg_time m) ticks_per_beat
                                         (current_tempo st)) (tempo_map st)).
{ eapply List.Forall_impl; [| exact Hb]. cbn. intros b [B1 B2]. split; lra. }
unfold tempo_inv. rewrite parse_msg_time, parse_msg_tempo.
destruct m as [d tempo | d note vel | d note vel | d];
  cbn [tempo_after parse_msg tempo_map]; cbn [msg_time] in *.
- split; [exact Hm |]. split; [lra |]. split.
  + rewrite map_app. cbn [map fst]. apply sorted_snoc; [exact Hs |].
    rewrite Forall_map. eapply List.Forall_impl; [| exact Hb].
    cbn. intros b [B1 B2]. lra.
  + apply Forall_app. split; [exact Hweak |].
    constructor; [| constructor]. cbn [fst]. split; lra.
- split; [exact Ht |]. split; [lra |].
  destruct (0 <? vel)%Z; cbn [tempo_map];
    rewrite ?(proj2 (proj2 (close_note_same st _ note))); split; assumption.
- split; [exact Ht |]. split; [lra |].
  rewrite (proj2 (proj2 (close_note_same st _ note))). split; assumption.
- split; [exact Ht |]. split; [lra |]. split; assumption.
Qed.

Lemma parse_fold_tempo_inv (msgs : list msg) :
forall st, Forall wf_msg msgs -> tempo_inv st ->
           tempo_inv (fold_left step msgs st).
Proof.
induction msgs as [| m r IH]; intros st Hm Hst; cbn [fold_left]; [exact Hst |].
inversion Hm; subst. apply IH; [assumption |]. now apply parse_msg_tempo_inv.
Qed.

Lemma parse_fold_bpms (msgs : list msg) :
forall st,
  map snd (tempo_map (fold_left step msgs st))
  = map snd (tempo_map st) ++ map tempo2bpm (tempo_changes msgs).
Proof.
induction msgs as [| m r IH]; intros st; cbn [fold_left tempo_changes flat_map].
- now rewrite app_nil_r.
- fold (tempo_changes r). rewrite IH.
  destruct m as [d tempo | d note vel | d note vel | d];
    cbn [parse_msg tempo_map app map].
  + rewrite map_app. cbn [map snd]. now rewrite <- app_assoc.
  + destruct (0 <? vel)%Z; cbn [tempo_map];
      now rewrite ?(proj2 (proj2 (close_note_same st _ note))).
  + now rewrite (proj2 (proj2 (close_note_same st _ note))).
  + reflexivity.
Qed.
End TempoMap.

(** X6: the tempo map of a well-formed stream has one breakpoint per
    tempo change, in stream order and carrying the bpm of that change;
    its times are non-negative and never decrease; and when the stream
    has no tempo change the map is the single default breakpoint, so the
    map is never empty. *)
Theorem tempo_map_shape (ticks_per_beat : Z) (msgs : list msg) :
  (0 < ticks_per_beat)%Z -> Forall wf_msg msgs ->
  let tm := snd (parse_midi ticks_per_beat msgs) in
  tm <> []
  /\ StronglySorted Qle (map fst tm)
  /\ Forall (fun b => 0 <= fst b) tm
  /\ (tempo_changes msgs <> [] ->
      map snd tm = map tempo2bpm (tempo_changes msgs))
  /\ (tempo_changes msgs = [] -> tm = [(0, 120)]).
Proof.
  intros Htpb Hwf. cbv zeta. unfold parse_midi, parse_loop. cbn [snd].
  assert (Hinv : tempo_inv (fold_left (parse_msg setup_keys ticks_per_beat)
                              msgs parser_init)).
  { apply parse_fold_tempo_inv; [exact Htpb | exact Hwf |].
    split; [cbn; lia |]. split; [cbn; lra |]. split; constructor. }
  assert (Hb := parse_fold_bpms setup_keys ticks_per_beat msgs parser_init).
  cbn [parser_init tempo_map map app] in Hb.
  destruct Hinv as (_ & _ & Hs & Hf).
  destruct (tempo_map (fold_left (parse_msg setup_keys ticks_per_beat)
                         msgs parser_init)) as [| b r] eqn:E.
  - split; [discriminate |]. split; [repeat constructor |].
    split; [repeat constructor; cbn; lra |]. split.
    + intros Hne. destruct (tempo_changes msgs); [contradiction |].
      discriminate Hb.
    + reflexivity.
  - split; [discriminate |]. split; [exact Hs |]. split.
    + eapply List.Forall_impl; [| exact Hf]. cbn. tauto.
    + split; [intros _; exact Hb |].
      intros Hnil. rewrite Hnil in Hb. discriminate Hb.
Qed.

Lemma tempo_map_shape_witness :
  let msgs := [set_tempo 0 600000; note_on 480 60 80; set_tempo 480 300000;
               note_off 480 60 0] in
  (0 < 480)%Z /\ Forall wf_msg msgs
  /\ tempo_changes msgs <> []
  /\ StronglySorted Qle (map fst (snd (parse_midi 480 msgs)))
  /\ map snd (snd (parse_midi 480 msgs)) = map tempo2bpm (tempo_changes msgs).
Proof.
  intros msgs.
  assert (Hwf : Forall wf_msg msgs) by (repeat constructor; cbn; lia).
  assert (Hne : tempo_changes msgs <> []) by (cbn; discriminate).
  destruct (tempo_map_shape 480 msgs ltac:(lia) Hwf) as (_ & W1 & _ & W2 & _).
  split; [lia |]. split; [exact Hwf |]. split; [exact Hne |].
  split; [exact W1 | exact (W2 Hne)].
Defined.

(** *** A second note-on for an open pitch *)

(** X7: only the most recent note-on of a pitch is open: after two
    note-ons of positive velocity for the same pitch and one note-off,
    exactly one note is emitted; it starts at the second note-on, carries
    the second velocity, and the first note-on leaves no trace. *)
Theorem second_note_on_overwrites (ticks_per_beat : Z) (msgs : list msg)
    (d1 d2 d3 p v1 v2 v3 : Z) :
  (21 <= p <= 108)%Z -> (0 < v1)%Z -> (0 < v2)%Z ->
  let st := parse_loop setup_keys ticks_per_beat msgs in
  let t1 := current_time_sec st
            + tick2second d1 ticks_per_beat (current_tempo st) in
  let t2 := t1 + tick2second d2 ticks_per_beat (current_tempo st) in
  let t3 := t2 + tick2second d3 ticks_per_beat (current_tempo st) in
  let st' := parse_loop setup_keys ticks_per_beat
               (msgs ++ [note_on d1 p v1; note_on d2 p v2; note_off d3 p v3]) in
  notes_list st'
  = notes_list st ++ [FallingNote.init p t2 t3 (inject_Z v2 / 127)]
  /\ active_notes st' !! p = None.
Proof.
  intros Hp Hv1 Hv2. cbv zeta.
  assert (Hk : is_Some (setup_keys !! p)) by now apply setup_keys_dom.
  destruct Hk as [k Hk].
  change (msgs ++ [note_on d1 p v1; note_on d2 p v2; note_off d3 p v3])
    with (msgs ++ [note_on d1 p v1] ++ [note_on d2 p v2] ++ [note_off d3 p v3]).
  rewrite !app_assoc, !parse_loop_snoc.
  generalize (parse_loop setup_keys ticks_per_beat msgs). intros st.
  apply Z.ltb_lt in Hv1, Hv2.
  cbn [parse_msg msg_time]. rewrite Hv1.
  cbn [parse_msg msg_time current_time_sec current_tempo active_notes
       notes_list tempo_map]. rewrite Hv2.
  unfold close_note.
  cbn [current_time_sec current_tempo active_notes notes_list tempo_map].
  rewrite lookup_insert_eq, Hk.
  cbn [notes_list active_notes]. split; [reflexivity |].
  apply lookup_delete_eq.
Qed.

Lemma second_note_on_overwrites_witness :
  (21 <= 60 <= 108)%Z /\ (0 < 50)%Z /\ (0 < 90)%Z
  /\ notes_list (parse_loop setup_keys 480
                   ([other_msg 480]
                    ++ [note_on 0 60 50; note_on 240 60 90; note_off 240 60 0]))
     = notes_list (parse_loop setup_keys 480 [other_msg 480])
       ++ [FallingNote.init 60
             (current_time_sec (parse_loop setup_keys 480 [other_msg 480])
              + tick2second 0 480
                  (current_tempo (parse_loop setup_keys 480 [other_msg 480]))
              + tick2second 240 480
                  (current_tempo (parse_loop setup_keys 480 [other_msg 480])))
             (current_time_sec (parse_loop setup_keys 480 [other_msg 480])
              + tick2second 0 480
                  (current_tempo (parse_loop setup_keys 480 [other_msg 480]))
              + tick2second 240 480
                  (current_tempo (parse_loop setup_keys 480 [other_msg 480]))
              + tick2second 240 480
                  (current_tempo (parse_loop setup_keys 480 [other_msg 480])))
             (inject_Z 90 / 127)].
Proof.
  split; [lia |]. split; [lia |]. split; [lia |].
  destruct (second_note_on_overwrites 480 [other_msg 480] 0 240 240 60 50 90 0)
    as [W _]; [lia | lia | lia |].
  exact W.
Defined.

(** ** The main loop as a whole *)

(** X8: what the main loop does to the notes, to the keys and to the
    call log depends on its inputs only through the sequence of clock
    values of the frames it runs: it is the run [play] over those
    values, whatever the tempo map. *)
Theorem main_loop_is_play (tempo_map : list (Q * Q))
    (inputs : list (Z * list event)) (g : game) :
  g_notes (main_loop tempo_map inputs g)
  = run_notes (play (clock_times inputs (g_clock g)) (g_notes g) (g_keys g))
  /\ g_keys (main_loop tempo_map inputs g)
     = run_keys (play (clock_times inputs (g_clock g)) (g_notes g) (g_keys g))
  /\ g_log (main_loop tempo_map inputs g)
     = g_log g
       ++ run_signals (play (clock_times inputs (g_clock g)) (g_notes g)
                         (g_keys g)).
Proof.
  revert g. induction inputs as [| i later IH]; intros g;
    cbn [main_loop clock_times].
  - cbn. now rewrite app_nil_r.
  - destruct (running (g_clock g)).
    + destruct (IH (main_iter tempo_map g i)) as (I1 & I2 & I3).
      rewrite I1, I2, I3. clear IH I1 I2 I3.
      unfold main_iter. cbn [play].
      destruct (frame _ (g_notes g) (g_keys g)) as [[n1 k1] s1].
      cbn [g_clock g_notes g_keys g_log].
      destruct (play _ n1 k1) as [[n2 k2] s2].
      unfold run_notes, run_keys, run_signals. cbn [fst snd].
      now rewrite app_assoc.
    + cbn. now rewrite app_nil_r.
Qed.

Lemma events_running_false (events : list event) (c : clock) :
  running c = false -> running (fold_left handle_event events c) = false.
Proof.
  revert c. induction events as [| e r IH]; intros c H; cbn [fold_left];
    [exact H |].
  apply IH. destruct e as [| [] |]; cbn; auto.
Qed.

Lemma events_quit (events : list event) (c : clock) :
  In QUIT events -> running (fold_left handle_event events c) = false.
Proof.
  revert c. induction events as [| e r IH]; intros c H; [destruct H |].
  cbn [fold_left]. destruct H as [-> | H]; [| now apply IH].
  now apply events_running_false.
Qed.

Lemma main_loop_stopped (tempo_map : list (Q * Q))
    (inputs : list (Z * list event)) (g : game) :
  running (g_clock g) = false -> main_loop tempo_map inputs g = g.
Proof. intros H. destruct inputs; cbn [main_loop]; [| rewrite H]; reflexivity. Qed.

(** X9: a QUIT event does not cut its frame short: the frame that
    receives it is played to its end (clock, tempo display, notes and
    keys), and no later frame is played, whatever inputs follow. *)
Theorem quit_ends_after_frame (tempo_map : list (Q * Q))
    (i : Z * list event) (later : list (Z * list event)) (g : game) :
  running (g_clock g) = true -> In QUIT (snd i) ->
  main_loop tempo_map (i :: later) g = main_iter tempo_map g i
  /\ running (g_clock (main_iter tempo_map g i)) = false.
Proof.
  intros Hrun Hq.
  assert (Hstop : running (g_clock (main_iter tempo_map g i)) = false).
  { unfold main_iter. destruct (frame _ _ _) as [[n k] s]. cbn [g_clock].
    unfold clock_frame. now apply events_quit. }
  split; [| exact Hstop].
  cbn [main_loop]. rewrite Hrun. now apply main_loop_stopped.
Qed.

Lemma quit_ends_after_frame_witness :
  let g := game_init [FallingNote.init 60 0 1 (1 # 2)] in
  let i := (16%Z, [KEYDOWN K_RIGHT; QUIT; KEYDOWN K_LEFT]) in
  running (g_clock g) = true /\ In QUIT (snd i)
  /\ main_loop [(0, 120)] (i :: steady 5) g = main_iter [(0, 120)] g i.
Proof.
  intros g i.
  assert (H1 : running (g_clock g) = true) by reflexivity.
  assert (H2 : In QUIT (snd i)) by (cbn; auto).
  split; [exact H1 |]. split; [exact H2 |].
  exact (proj1 (quit_ends_after_frame [(0, 120)] i (steady 5) g H1 H2)).
Defined.

(** *** The rate and the direction of the clock *)

Lemma handle_event_rate (c : clock) (e : event) :
  1 # 10 <= SCROLL_SPEED_MULT c -> 1 # 10 <= SCROLL_SPEED_MULT (handle_event c e).
Proof.
  intros H. destruct e as [| [] |]; cbn; try exact H; try lra.
  destruct (Qle_boolP (SCROLL_SPEED_MULT c - (1 # 10)) (1 # 10)); lra.
Qed.

Lemma events_rate (events : list event) (c : clock) :
  1 # 10 <= SCROLL_SPEED_MULT c ->
  1 # 10 <= SCROLL_SPEED_MULT (fold_left handle_event events c).
Proof.
  revert c. induction events as [| e r IH]; intros c H; cbn [fold_left];
    [exact H |].
  apply IH. now apply handle_event_rate.
Qed.

Lemma events_forward (events : list event) (c : clock) :
  forallb (fun e => match e with KEYDOWN K_LEFT => false | _ => true end)
    events = true ->
  playback_time c <= playback_time (fold_left handle_event events c).
Proof.
  revert c. induction events as [| e r IH]; intros c H; cbn [fold_left].
  - lra.
  - cbn [forallb] in H. apply andb_prop in H. destruct H as [He Hr].
    specialize (IH (handle_event c e) Hr).
    assert (playback_time c <= playback_time (handle_event c e)).
    { destruct e as [| [] |]; cbn in *; try discriminate; lra. }
    lra.
Qed.

Lemma main_loop_rate (tempo_map : list (Q * Q))
    (inputs : list (Z * list event)) :
  forall g,
    1 # 10 <= SCROLL_SPEED_MULT (g_clock g) ->
    1 # 10 <= SCROLL_SPEED_MULT (g_clock (main_loop tempo_map inputs g)).
Proof.
  induction inputs as [| i later IH]; intros g H; cbn [main_loop]; [exact H |].
  destruct (running (g_clock g)); [| exact H].
  apply IH. unfold main_iter. destruct (frame _ _ _) as [[n k] s].
  cbn [g_clock]. unfold clock_frame. now apply events_rate.
Qed.

(** X10: the rate multiplier never falls below 0.1: that holds after
    every frame and so after the whole loop from the initial state; and
    in a frame with a non-negative wall-clock delta and no left-arrow
    press the clock does not move back. *)
Theorem rate_floor_and_direction (tempo_map : list (Q * Q))
    (inputs : list (Z * list event)) (notes : list FallingNote)
    (get_time : Z) (events : list event) (c : clock) :
  1 # 10 <= SCROLL_SPEED_MULT
              (g_clock (main_loop tempo_map inputs (game_init notes)))
  /\ (1 # 10 <= SCROLL_SPEED_MULT c ->
      1 # 10 <= SCROLL_SPEED_MULT (clock_frame get_time events c)
      /\ ((0 <= get_time)%Z ->
          forallb (fun e => match e with KEYDOWN K_LEFT => false | _ => true end)
            events = true ->
          playback_time c <= playback_time (clock_frame get_time events c))).
Proof.
  split.
  - apply main_loop_rate. cbn. lra.
  - intros H. split.
    + unfold clock_frame. apply events_rate. exact H.
    + intros Hg He. unfold clock_frame.
      assert (H1 := events_forward events (advance get_time c) He).
      assert (H2 := frame_dt_nonneg get_time (SCROLL_SPEED_MULT c) Hg
                      ltac:(lra)).
      cbn [advance playback_time] in H1. lra.
Qed.

Lemma rate_floor_and_direction_witness :
  let c := mk_clock 5 (2 # 10) true in
  let events := [KEYDOWN K_DOWN; KEYDOWN K_DOWN; KEYDOWN K_RIGHT] in
  1 # 10 <= SCROLL_SPEED_MULT c /\ (0 <= 16)%Z
  /\ forallb (fun e => match e with KEYDOWN K_LEFT => false | _ => true end)
       events = true
  /\ 1 # 10 <= SCROLL_SPEED_MULT (clock_frame 16 events c)
  /\ playback_time c <= playback_time (clock_frame 16 events c).
Proof.
  intros c events.
  assert (H1 : 1 # 10 <= SCROLL_SPEED_MULT c) by (cbn; lra).
  destruct (rate_floor_and_direction [] [] [] 16 events c) as [_ W].
  destruct (W H1) as [W1 W2].
  split; [exact H1 |]. split; [lia |]. split; [reflexivity |].
  split; [exact W1 |]. apply W2; [lia | reflexivity].
Defined.

(** ** The window of the loop *)

Lemma visit_note_outside (t : Q) (n : FallingNote) :
  t + 8 < FallingNote.start_time n -> FallingNote.hit n = false ->
  visit_note t n = n.
Proof.
  unfold visit_note. destruct n as [m s e v h pl]. note_simpl.
  intros Hlt ->. note_simpl.
  destruct (Qle_boolP s t); [lra |]. reflexivity.
Qed.

Lemma loop_notes_outside (t : Q) (notes : list FallingNote) :
  forall (k : nat) (n : FallingNote),
    nth_error notes k = Some n -> outside_window t n ->
    nth_error (loop_notes t notes) k = Some n.
Proof.
  induction notes as [| x r IH]; intros k n Hk Hout; [destruct k; discriminate |].
  cbn [loop_notes].
  destruct (Qgt_boolP (FallingNote.start_time x) (t + 8)) as [Hb | Hb];
    [exact Hk |].
  destruct (Qlt_boolP (FallingNote.end_time x) (t - 1)) as [Hs | Hs].
  - destruct k as [| k]; cbn [nth_error] in *; [exact Hk | now apply IH].
  - destruct k as [| k]; cbn [nth_error] in *; [| now apply IH].
    injection Hk as <-. destruct Hout as [H | H]; lra.
Qed.

Lemma play_notes_outside (times : list Q) :
  forall (notes : list FallingNote) (k : nat) (n : FallingNote),
    nth_error notes k = Some n ->
    Forall (fun t => outside_window t n) times ->
    nth_error (play_notes times notes) k = Some n.
Proof.
  induction times as [| t r IH]; intros notes k n Hk Hout; cbn [play_notes];
    [exact Hk |].
  inversion Hout as [| ? ? Ht Hr]; subst.
  apply IH; [| exact Hr]. now apply loop_notes_outside.
Qed.

(** X11: a note that lies outside the window of the loop in every frame
    of a run (it ended more than a second before the clock, or starts
    more than eight seconds after it) is left exactly as it was, and no
    call is made for it. In particular a note that is sounding when the
    clock jumps more than a second past its end is never released. *)
Theorem outside_window_untouched (notes : list FallingNote) (km : gmap Z Key)
    (times : list Q) (j : nat) (n : FallingNote) :
  nth_error notes j = Some n ->
  Forall (fun t => outside_window t n) times ->
  nth_error (run_notes (play times notes km)) j = Some n
  /\ count_press j (run_signals (play times notes km)) = 0%nat
  /\ count_release j (run_signals (play times notes km)) = 0%nat.
Proof.
  intros Hj Hout.
  destruct (play_spec times notes km) as (km' & E & _ & _). rewrite E.
  unfold run_notes, run_signals. cbn [fst snd].
  assert (Hn := play_notes_outside times notes j n Hj Hout).
  split; [exact Hn |].
  assert (Cp := play_press_count times j (has_key km) notes).
  assert (Cr := play_release_count times j (has_key km) notes).
  assert (P1 := pending_press_nth notes 0 j).
  assert (P2 := pending_press_nth (play_notes times notes) 0 j).
  assert (R1 := pending_release_nth notes 0 j).
  assert (R2 := pending_release_nth (play_notes times notes) 0 j).
  cbn [Nat.add] in P1, P2, R1, R2.
  rewrite P1, P2 in Cp. rewrite R1, R2 in Cr.
  rewrite Hj, Hn in Cp, Cr. split; lia.
Qed.

Lemma outside_window_untouched_witness :
  let n := FallingNote.mk 60 1 2 (1 # 2) true false in
  nth_error [n] 0 = Some n
  /\ Forall (fun t => outside_window t n) [4; 5; 31 # 10]
  /\ nth_error (run_notes (play [4; 5; 31 # 10] [n] setup_keys)) 0 = Some n
  /\ count_release 0 (run_signals (play [4; 5; 31 # 10] [n] setup_keys)) = 0%nat.
Proof.
  intros n.
  assert (H : Forall (fun t => outside_window t n) [4; 5; 31 # 10]).
  { repeat constructor; left; cbn; lra. }
  destruct (outside_window_untouched [n] setup_keys [4; 5; 31 # 10] 0 n
              eq_refl H) as (W1 & _ & W2).
  split; [reflexivity |]. split; [exact H |]. split; [exact W1 | exact W2].
Defined.

Lemma visit_note_triggered (t : Q) (n : FallingNote) :
  FallingNote.start_time n <= t ->
  same_note n (visit_note t n)
  /\ FallingNote.hit (visit_note t n) = true
  /\ (FallingNote.end_time n <= t -> FallingNote.playing (visit_note t n) = true)
  /\ (t < FallingNote.end_time n ->
      FallingNote.playing (visit_note t n) = FallingNote.playing n).
Proof.
  unfold visit_note, same_note. destruct n as [m s e v h pl]. note_simpl.
  intros Hs. destruct (Qle_boolP s t); [| lra].
  destruct h, pl; note_simpl; destruct (Qle_boolP e t); note_simpl;
    repeat split; intros; try reflexivity; try lra.
Qed.

(** X12: in a frame at time [t] over a list sorted by start, every note
    with start <= t that ended no more than a second ago comes out with
    its [hit] flag set, and with its [playing] flag set too when its end
    is <= t; while t < end the [playing] flag is left as it was. *)
Theorem visited_note_triggered (notes : list FallingNote) (km : gmap Z Key)
    (t : Q) (j : nat) (n : FallingNote) :
  sorted_by_start_time notes ->
  nth_error notes j = Some n ->
  FallingNote.start_time n <= t -> t - 1 <= FallingNote.end_time n ->
  exists n',
    nth_error (run_notes (frame t notes km)) j = Some n'
    /\ same_note n n'
    /\ FallingNote.hit n' = true
    /\ (FallingNote.end_time n <= t -> FallingNote.playing n' = true)
    /\ (t < FallingNote.end_time n ->
        FallingNote.playing n' = FallingNote.playing n).
Proof.
  intros Hsort Hj Hs He.
  destruct (frame_spec t notes km) as (km' & E & _ & _). rewrite E.
  unfold run_notes. cbn [fst]. clear E km'.
  revert j Hj. induction Hsort as [| x r Hr IH Hx]; intros j Hj;
    [destruct j; discriminate |].
  assert (Hxs : FallingNote.start_time x <= FallingNote.start_time n).
  { destruct j as [| j]; cbn [nth_error] in Hj.
    - injection Hj as <-. lra.
    - rewrite List.Forall_forall in Hx. apply Hx. eapply nth_error_In. exact Hj. }
  cbn [loop_notes].
  destruct (Qgt_boolP (FallingNote.start_time x) (t + 8)); [lra |].
  destruct j as [| j]; cbn [nth_error] in Hj |- *.
  - injection Hj as <-.
    destruct (Qlt_boolP (FallingNote.end_time x) (t - 1)); [lra |].
    cbn [nth_error]. eexists. split; [reflexivity |].
    now apply visit_note_triggered.
  - destruct (Qlt_bool (FallingNote.end_time x) (t - 1)); cbn [nth_error];
      now apply IH.
Qed.

Lemma visited_note_triggered_witness :
  let a := FallingNote.init 60 0 1 (1 # 2) in
  let b := FallingNote.init 62 (1 # 2) 3 (1 # 2) in
  sorted_by_start_time [a; b] /\ nth_error [a; b] 1 = Some b
  /\ FallingNote.start_time b <= 3 # 2 /\ (3 # 2) - 1 <= FallingNote.end_time b
  /\ exists n',
      nth_error (run_notes (frame (3 # 2) [a; b] setup_keys)) 1 = Some n'
      /\ FallingNote.hit n' = true.
Proof.
  intros a b.
  assert (Hs : sorted_by_start_time [a; b]).
  { repeat constructor. cbn. lra. }
  assert (H1 : FallingNote.start_time b <= 3 # 2) by (cbn; lra).
  assert (H2 : (3 # 2) - 1 <= FallingNote.end_time b) by (cbn; lra).
  destruct (visited_note_triggered [a; b] setup_keys (3 # 2) 1 b Hs eq_refl H1 H2)
    as (n' & W1 & _ & W2 & _).
  split; [exact Hs |]. split; [reflexivity |]. split; [exact H1 |].
  split; [exact H2 |]. exists n'. split; [exact W1 | exact W2].
Defined.

(** ** A release is never called before its press *)

Lemma visit_owed (key : Z -> bool) (t : Q) (i j : nat) (n : FallingNote) :
  (count_release j (visit_sigs t i n (key (FallingNote.midi n)))
   + owed key i [visit_note t n] j
   <= count_press j (visit_sigs t i n (key (FallingNote.midi n)))
      + owed key i [n] j)%nat.
Proof.
  unfold count_release, count_press, visit_sigs, visit_note.
  destruct n as [m s e v h pl]. note_simpl. cbn [owed]. note_simpl.
  destruct h, pl; note_simpl;
    destruct (Qle_bool s t); note_simpl; destruct (Qle_bool e t); note_simpl;
    destruct (key m); cbn; destruct (Nat.eqb i j); cbn; lia.
Qed.

Lemma owed_cons (key : Z -> bool) (i j : nat) (n : FallingNote)
    (r : list FallingNote) :
  owed key i (n :: r) j = (owed key i [n] j + owed key (S i) r j)%nat.
Proof. cbn [owed]. lia. Qed.

Lemma loop_owed (key : Z -> bool) (t : Q) (j : nat) (notes : list FallingNote) :
  forall i,
    (count_release j (loop_sigs t i notes key) + owed key i (loop_notes t notes) j
     <= count_press j (loop_sigs t i notes key) + owed key i notes j)%nat.
Proof.
  induction notes as [| n r IH]; intros i; cbn [loop_sigs loop_notes];
    [cbn; lia |].
  destruct (Qgt_bool _ _); [cbn [count_release count_press]; cbn; lia |].
  specialize (IH (S i)).
  destruct (Qlt_bool _ _).
  - rewrite (owed_cons key i j n (loop_notes t r)), (owed_cons key i j n r). lia.
  - rewrite count_release_app, count_press_app.
    rewrite (owed_cons key i j _ (loop_notes t r)), (owed_cons key i j n r).
    assert (H := visit_owed key t i j n). lia.
Qed.

Lemma play_owed (key : Z -> bool) (times : list Q) (j : nat) :
  forall notes,
    (count_release j (play_sigs times notes key)
     + owed key 0 (play_notes times notes) j
     <= count_press j (play_sigs times notes key) + owed key 0 notes j)%nat.
Proof.
  induction times as [| t r IH]; intros notes; cbn [play_sigs play_notes];
    [cbn; lia |].
  rewrite count_release_app, count_press_app.
  specialize (IH (loop_notes t notes)).
  assert (H := loop_owed key t j notes 0%nat). lia.
Qed.

Lemma owed_fresh (key : Z -> bool) (notes : list FallingNote) :
  Forall fresh notes -> forall i j, owed key i notes j = 0%nat.
Proof.
  induction 1 as [| n r [Hh Hp] _ IH]; intros i j; cbn [owed]; [reflexivity |].
  rewrite Hh, IH. now rewrite andb_false_r.
Qed.

(** X13: in any run from cleared flags, for any sequence of clock
    values, [release] has been called for a note at most as often as
    [press]: a key is never released on behalf of a note that did not
    press it. *)
Theorem release_needs_press (notes : list FallingNote) (km : gmap Z Key)
    (times : list Q) (j : nat) :
  Forall fresh notes ->
  (count_release j (run_signals (play times notes km))
   <= count_press j (run_signals (play times notes km)))%nat.
Proof.
  intros Hfr.
  destruct (play_spec times notes km) as (km' & E & _ & _). rewrite E.
  unfold run_signals. cbn [snd].
  assert (H := play_owed (has_key km) times j notes).
  rewrite (owed_fresh (has_key km) notes Hfr) in H. lia.
Qed.

Lemma release_needs_press_witness :
  let notes := [FallingNote.init 60 0 2 (1 # 2); FallingNote.init 60 1 3 (1 # 2)] in
  Forall fresh notes
  /\ (count_release 1 (run_signals (play [0; 5; 1; 3; 0]%Q notes setup_keys))
      <= count_press 1 (run_signals (play [0; 5; 1; 3; 0]%Q notes setup_keys)))%nat.
Proof.
  intros notes.
  assert (H : Forall fresh notes) by (repeat constructor).
  split; [exact H |].
  exact (release_needs_press notes setup_keys [0; 5; 1; 3; 0]%Q 1 H).
Defined.

(** ** Keys *)

Lemma press_fade_speed (k : Key) (velocity duration : Q) :
  0 < Key.fade_speed (Key.press k velocity duration)
  /\ Key.fade_speed (Key.press k velocity duration) <= 8 # 10.
Proof.
  cbn [Key.press Key.fade_speed].
  destruct (Qgt_boolP duration 0); [| split; lra].
  assert (H : forall x, 1 <= x -> 0 < (8 # 10) / x /\ (8 # 10) / x <= 8 # 10).
  { intros x Hx. split.
    - apply Qlt_shift_div_l; lra.
    - apply Qle_shift_div_r; lra. }
  destruct (Qle_boolP (duration * FPS) 1); apply H; lra.
Qed.

Lemma update_pressed (k : Key) :
  Key.is_pressed k = true -> 0 <= Key.fade_speed k ->
  2 # 10 <= Key.brightness k -> Key.brightness k <= 1 ->
  Key.is_pressed (Key.update k) = true
  /\ Key.fade_speed (Key.update k) = Key.fade_speed k
  /\ Key.midi (Key.update k) = Key.midi k
  /\ 2 # 10 <= Key.brightness (Key.update k)
  /\ Key.brightness (Key.update k) <= Key.brightness k.
Proof.
  intros Hp Hf Hlo Hhi. unfold Key.update. rewrite Hp.
  cbn [Key.is_pressed Key.fade_speed Key.midi Key.brightness].
  repeat split; try assumption;
    destruct (Qlt_boolP (Key.brightness k - Key.fade_speed k) (2 # 10)); lra.
Qed.

(** X14: a pressed key glows at full brightness and fades by a speed in
    (0, 0.8] per frame, never below the floor 0.2 and never brighter
    again, for as long as it stays pressed; a released key is dark and
    [update] leaves it alone. *)
Theorem key_glow (k : Key) (velocity duration : Q) (n : nat) :
  let k1 := Key.press k velocity duration in
  let kn := Nat.iter n Key.update k1 in
  Key.brightness k1 = 1
  /\ (0 < Key.fade_speed k1 /\ Key.fade_speed k1 <= 8 # 10)
  /\ Key.is_pressed kn = true
  /\ Key.midi kn = Key.midi k
  /\ (2 # 10 <= Key.brightness kn /\ Key.brightness kn <= 1)
  /\ Key.brightness (Key.update kn) <= Key.brightness kn
  /\ Key.brightness (Key.release kn) = 0
  /\ Key.update (Key.release kn) = Key.release kn.
Proof.
  cbv zeta. destruct (press_fade_speed k velocity duration) as [F1 F2].
  assert (Hinv : Key.is_pressed (Nat.iter n Key.update (Key.press k velocity duration)) = true
                 /\ Key.fade_speed (Nat.iter n Key.update (Key.press k velocity duration))
                    = Key.fade_speed (Key.press k velocity duration)
                 /\ Key.midi (Nat.iter n Key.update (Key.press k velocity duration))
                    = Key.midi k
                 /\ 2 # 10 <= Key.brightness (Nat.iter n Key.update (Key.press k velocity duration))
                 /\ Key.brightness (Nat.iter n Key.update (Key.press k velocity duration)) <= 1).
  { induction n as [| n IH].
    - cbn [Nat.iter nat_rect Key.press Key.is_pressed Key.midi Key.brightness].
      repeat split; try reflexivity; try lra.
    - rewrite !Nat.iter_succ. destruct IH as (I1 & I2 & I3 & I4 & I5).
      assert (I6 : 0 <= Key.fade_speed
                         (Nat.iter n Key.update (Key.press k velocity duration)))
        by (rewrite I2; lra).
      destruct (update_pressed _ I1 I6 I4 I5) as (U1 & U2 & U3 & U4 & U5).
      repeat split; try assumption; try congruence; lra. }
  destruct Hinv as (I1 & I2 & I3 & I4 & I5).
  assert (I6 : 0 <= Key.fade_speed
                     (Nat.iter n Key.update (Key.press k velocity duration)))
    by (rewrite I2; lra).
  destruct (update_pressed _ I1 I6 I4 I5) as (_ & _ & _ & _ & U5).
  repeat split; try assumption; try reflexivity.
Qed.

(** *** The keyboard *)

Lemma add_white_keys (l : list Z) :
  forall km,
    (forall i k, km !! i = Some k -> k = Key.init i (is_black_pitch i)) ->
    forall i k, fold_left add_white l km !! i = Some k ->
                k = Key.init i (is_black_pitch i).
Proof.
  induction l as [| j r IH]; intros km H; cbn [fold_left]; [exact H |].
  apply IH. intros i k. unfold add_white.
  destruct (is_black_pitch j) eqn:E; cbn [negb]; [apply H |].
  rewrite lookup_insert. case_decide; [| apply H].
  subst. intros Hk. injection Hk as <-. now rewrite E.
Qed.

Lemma add_black_keys (l : list Z) :
  forall km,
    (forall i k, km !! i = Some k -> k = Key.init i (is_black_pitch i)) ->
    forall i k, fold_left add_black l km !! i = Some k ->
                k = Key.init i (is_black_pitch i).
Proof.
  induction l as [| j r IH]; intros km H; cbn [fold_left]; [exact H |].
  apply IH. intros i k. unfold add_black.
  destruct (is_black_pitch j) eqn:E; [| apply H].
  destruct (km !! (j - 1)%Z); [| apply H].
  rewrite lookup_insert. case_decide; [| apply H].
  subst. intros Hk. injection Hk as <-. now rewrite E.
Qed.

Lemma setup_keys_size : size setup_keys = 88%nat.
Proof. vm_compute. reflexivity. Qed.

(** X15: [setup_keys] builds the 88 keys of pitches 21..108 and no
    other: the key found under a pitch carries that pitch, is black
    exactly for the pitch classes 1, 3, 6, 8 and 10, and starts released
    and dark. *)
Theorem setup_keys_spec (i : Z) :
  setup_keys !! i
  = (if (21 <=? i)%Z && (i <=? 108)%Z
     then Some (Key.init i (is_black_pitch i)) else None)
  /\ size setup_keys = 88%nat.
Proof.
  split; [| exact setup_keys_size].
  assert (Hd := setup_keys_dom i).
  destruct (setup_keys !! i) as [k |] eqn:E.
  - assert (Hr : (21 <= i <= 108)%Z) by (apply Hd; eauto).
    replace ((21 <=? i)%Z && (i <=? 108)%Z) with true
      by (symmetry; apply andb_true_intro; split; apply Z.leb_le; lia).
    f_equal. revert E. rewrite setup_keys_unfold.
    apply add_black_keys. apply add_white_keys.
    intros j k'. rewrite lookup_empty. discriminate.
  - destruct ((21 <=? i)%Z && (i <=? 108)%Z) eqn:Er; [| reflexivity].
    apply andb_prop in Er. destruct Er as [E1 E2].
    apply Z.leb_le in E1, E2.
    assert (Hs : is_Some (@None Key)) by (apply Hd; lia).
    destruct Hs as [? Hs]. discriminate Hs.
Qed.

Local Open Scope Z_scope.

(** ** build_pianov6.py: the choice of samples *)

Lemma dict_get_set (d : samples) (k k' : Z) (v : sample) :
  dict_get (dict_set d k v) k' = if Z.eqb k k' then Some v else dict_get d k'.
Proof.
  induction d as [| [k0 v0] r IH]; cbn [dict_set dict_get].
  - reflexivity.
  - destruct (Z.eqb_spec k0 k) as [-> | Hne]; cbn [dict_get].
    + destruct (Z.eqb_spec k k'); reflexivity.
    + rewrite IH. destruct (Z.eqb_spec k0 k'); [| reflexivity].
      destruct (Z.eqb_spec k k'); [congruence | reflexivity].
Qed.

Lemma dict_get_In (d : samples) (k : Z) :
  In k (map fst d) <-> exists v, dict_get d k = Some v.
Proof.
  induction d as [| [k0 v0] r IH]; cbn [map fst dict_get In].
  - split; [intros [] | intros [v H]; discriminate].
  - destruct (Z.eqb_spec k0 k) as [-> | Hne].
    + split; [eauto | auto].
    + rewrite <- IH. split; [intros [H | H]; [contradiction | exact H] | auto].
Qed.

Lemma consider_spec (best best' : samples) (f : str) :
  consider best f = Some best' ->
  (forall m s, dict_get best' m = Some s ->
               dict_get best m = Some s
               \/ exists v, is_wav f = true /\ parse_file_info f = Info m v
                            /\ s = mk_sample (full_path f) v)
  /\ (forall m s, dict_get best m = Some s ->
                  exists s', dict_get best' m = Some s'
                             /\ nearer (sample_velocity s') (sample_velocity s))
  /\ (forall m v, is_wav f = true -> parse_file_info f = Info m v ->
                  exists s', dict_get best' m = Some s'
                             /\ nearer (sample_velocity s') v)
  /\ (is_wav f = true -> parse_file_info f <> Raises).
Proof.
  unfold consider, is_wav, nearer. intros H.
  assert (Hid : forall m s, dict_get best m = Some s ->
                  exists s', dict_get best m = Some s'
                             /\ Z.abs (sample_velocity s' - IDEAL_VELOCITY)
                                <= Z.abs (sample_velocity s - IDEAL_VELOCITY)).
  { intros m s Hs. exists s. split; [exact Hs | lia]. }
  destruct (endswith f (lit ".wav")); [| injection H as <-].
  2: { repeat split; auto; discriminate. }
  destruct (parse_file_info f) as [midi vel | |]; [| injection H as <- |].
  3: discriminate H.
  2: { repeat split; auto; discriminate. }
  destruct (dict_get best midi) as [cur |] eqn:Ec.
  - destruct (Z.ltb_spec (Z.abs (vel - IDEAL_VELOCITY))
                (Z.abs (sample_velocity cur - IDEAL_VELOCITY))) as [Hlt | Hge];
      injection H as <-.
    + split; [| split; [| split]].
      * intros m s. rewrite dict_get_set.
        destruct (Z.eqb_spec midi m) as [<- | Hne]; [| auto].
        intros Hs. injection Hs as <-. right. eauto.
      * intros m s Hs. rewrite dict_get_set.
        destruct (Z.eqb_spec midi m) as [<- | Hne]; [| now apply Hid].
        eexists. split; [reflexivity |]. cbn [sample_velocity].
        rewrite Ec in Hs. injection Hs as <-. lia.
      * intros m v _ Hi. injection Hi as <- <-. rewrite dict_get_set, Z.eqb_refl.
        eexists. split; [reflexivity |]. cbn [sample_velocity]. lia.
      * discriminate.
    + split; [auto | split; [exact Hid | split; [| discriminate]]].
      intros m v _ Hi. injection Hi as <- <-. exists cur. split; [exact Ec | lia].
  - injection H as <-. split; [| split; [| split]].
    + intros m s. rewrite dict_get_set.
      destruct (Z.eqb_spec midi m) as [<- | Hne]; [| auto].
      intros Hs. injection Hs as <-. right. eauto.
    + intros m s Hs. rewrite dict_get_set.
      destruct (Z.eqb_spec midi m) as [<- | Hne]; [congruence | now apply Hid].
    + intros m v _ Hi. injection Hi as <- <-. rewrite dict_get_set, Z.eqb_refl.
      eexists. split; [reflexivity |]. cbn [sample_velocity]. lia.
    + discriminate.
Qed.

Lemma scan_spec (files : list str) :
  forall best best',
    scan best files = Some best' ->
    (forall m s, dict_get best' m = Some s ->
                 dict_get best m = Some s
                 \/ exists f v, In f files /\ is_wav f = true
                                /\ parse_file_info f = Info m v
                                /\ s = mk_sample (full_path f) v)
    /\ (forall m s, dict_get best m = Some s ->
                    exists s', dict_get best' m = Some s'
                               /\ nearer (sample_velocity s') (sample_velocity s))
    /\ (forall f m v, In f files -> is_wav f = true ->
                      parse_file_info f = Info m v ->
                      exists s', dict_get best' m = Some s'
                                 /\ nearer (sample_velocity s') v)
    /\ (forall f, In f files -> is_wav f = true -> parse_file_info f <> Raises).
Proof.
  induction files as [| f r IH]; intros best best' H; cbn [scan] in H.
  - injection H as <-. split; [auto | split; [| split]].
    + intros m s Hs. exists s. split; [exact Hs | unfold nearer; lia].
    + intros ? ? ? [].
    + intros ? [].
  - destruct (consider best f) as [b1 |] eqn:Ec; [| discriminate].
    destruct (consider_spec _ _ _ Ec) as (C1 & C2 & C3 & C4).
    destruct (IH _ _ H) as (I1 & I2 & I3 & I4).
    split; [| split; [| split]].
    + intros m s Hs. destruct (I1 m s Hs) as [Hb | (f' & v & Hin & Hw & Hi & ->)].
      * destruct (C1 m s Hb) as [Hb0 | (v & Hw & Hi & ->)]; [now left |].
        right. exists f, v. cbn. auto.
      * right. exists f', v. cbn. auto.
    + intros m s Hs. destruct (C2 m s Hs) as (s1 & Hs1 & N1).
      destruct (I2 m s1 Hs1) as (s2 & Hs2 & N2).
      exists s2. split; [exact Hs2 |]. unfold nearer in *. lia.
    + intros f' m v [<- | Hin] Hw Hi.
      * destruct (C3 m v Hw Hi) as (s1 & Hs1 & N1).
        destruct (I2 m s1 Hs1) as (s2 & Hs2 & N2).
        exists s2. split; [exact Hs2 |]. unfold nearer in *. lia.
      * now apply (I3 f').
    + intros f' [<- | Hin]; [exact C4 | now apply I4].
Qed.

Lemma scan_raises (files : list str) :
  forall best,
    scan best files = None <->
    exists f, In f files /\ is_wav f = true /\ parse_file_info f = Raises.
Proof.
  induction files as [| f r IH]; intros best; cbn [scan].
  - split; [discriminate | intros (f & [] & _)].
  - destruct (consider best f) as [b1 |] eqn:Ec.
    + rewrite IH. destruct (consider_spec _ _ _ Ec) as (_ & _ & _ & C4).
      split.
      * intros (f' & Hin & H). exists f'. cbn. auto.
      * intros (f' & [<- | Hin] & Hw & Hr); [now apply C4 in Hr | eauto].
    + split; [intros _ | reflexivity].
      exists f. split; [now left |]. unfold consider, is_wav in *.
      destruct (endswith f (lit ".wav")); [| discriminate].
      destruct (parse_file_info f); try discriminate; [| auto].
      destruct (dict_get best midi); [destruct (_ <? _) |]; discriminate.
Qed.

Lemma nearest_spec (others : list Z) :
  forall first target,
    In (nearest first others target) (first :: others)
    /\ forall x, In x (first :: others) ->
                 Z.abs (nearest first others target - target)
                 <= Z.abs (x - target).
Proof.
  unfold nearest.
  induction others as [| y r IH]; intros first target; cbn [fold_left].
  - split; [now left |]. intros x [<- | []]. lia.
  - destruct (Z.ltb_spec (Z.abs (y - target)) (Z.abs (first - target)))
      as [Hlt | Hge].
    + destruct (IH y target) as [I1 I2]. split.
      * destruct I1 as [<- | I1]; [right; now left | right; now right].
      * intros x [<- | [<- | Hx]].
        -- specialize (I2 y (or_introl eq_refl)). lia.
        -- apply I2. now left.
        -- apply I2. now right.
    + destruct (IH first target) as [I1 I2]. split.
      * destruct I1 as [<- | I1]; [now left | right; now right].
      * intros x [<- | [<- | Hx]].
        -- apply I2. now left.
        -- specialize (I2 first (or_introl eq_refl)). lia.
        -- apply I2. now right.
Qed.

Lemma source_for_spec (best : samples) (target : Z) :
  best <> [] ->
  exists source s,
    source_for best target = Some source
    /\ dict_get best source = Some s
    /\ (forall m, In m (map fst best) ->
                  Z.abs (target - source) <= Z.abs (target - m)).
Proof.
  intros Hne. unfold source_for.
  destruct (dict_get best target) as [s |] eqn:E.
  - exists target, s. split; [reflexivity |]. split; [exact E |].
    intros m _. lia.
  - destruct best as [| [k v] r]; [contradiction |]. cbn [map fst].
    destruct (nearest_spec (map fst r) k target) as [N1 N2].
    assert (Hin : In (nearest k (map fst r) target) (map fst ((k, v) :: r)))
      by exact N1.
    apply dict_get_In in Hin. destruct Hin as [s Hs].
    exists (nearest k (map fst r) target), s.
    split; [reflexivity |]. split; [exact Hs |].
    intros m Hm. specialize (N2 m Hm). lia.
Qed.

Lemma make_jobs_spec (best : samples) (targets : list Z) :
  best <> [] ->
  exists jobs,
    make_jobs best targets = Some jobs
    /\ map target_midi jobs = targets
    /\ Forall (fun j =>
                 job_diff j = target_midi j - source_midi j
                 /\ (exists s, dict_get best (source_midi j) = Some s
                               /\ job_path j = sample_path s)
                 /\ (forall m, In m (map fst best) ->
                               Z.abs (job_diff j) <= Z.abs (target_midi j - m)))
         jobs.
Proof.
  intros Hne. induction targets as [| t r IH]; cbn [make_jobs].
  - exists []. repeat split; constructor.
  - destruct IH as (js & E & Ht & Hf).
    destruct (source_for_spec best t Hne) as (src & s & E1 & E2 & E3).
    unfold make_job. rewrite E1, E2, E.
    eexists. split; [reflexivity |]. split; [cbn; now rewrite Ht |].
    constructor; [| exact Hf]. cbn. eauto.
Qed.

Lemma scan_app (a b : list str) :
  forall best,
    scan best (a ++ b)
    = match scan best a with Some b1 => scan b1 b | None => None end.
Proof.
  induction a as [| f r IH]; intros best; cbn [scan app]; [reflexivity |].
  destruct (consider best f); [apply IH | reflexivity].
Qed.

Lemma consider_keeps (best best' : samples) (f : str) (m : Z) (s : sample) :
  dict_get best m = Some s ->
  (forall v, is_wav f = true -> parse_file_info f = Info m v ->
             nearer (sample_velocity s) v) ->
  consider best f = Some best' ->
  dict_get best' m = Some s.
Proof.
  unfold consider, is_wav, nearer. intros Hs Hn H.
  destruct (endswith f (lit ".wav")); [| now injection H as <-].
  destruct (parse_file_info f) as [midi vel | |];
    [| now injection H as <- | discriminate].
  destruct (Z.eqb_spec midi m) as [-> | Hne].
  - rewrite Hs in H. specialize (Hn vel eq_refl eq_refl).
    destruct (Z.ltb_spec (Z.abs (vel - IDEAL_VELOCITY))
                (Z.abs (sample_velocity s - IDEAL_VELOCITY))); [lia |].
    now injection H as <-.
  - assert (Hset : forall x, dict_get (dict_set best midi x) m = Some s).
    { intros x. rewrite dict_get_set.
      destruct (Z.eqb_spec midi m); [contradiction | exact Hs]. }
    destruct (dict_get best midi); [destruct (_ <? _) |];
      injection H as <-; auto.
Qed.

Lemma scan_keeps (post : list str) (m : Z) (s : sample) :
  forall best best',
    dict_get best m = Some s ->
    (forall g w, In g post -> is_wav g = true -> parse_file_info g = Info m w ->
                 nearer (sample_velocity s) w) ->
    scan best post = Some best' ->
    dict_get best' m = Some s.
Proof.
  induction post as [| f r IH]; intros best best' Hs Hn H; cbn [scan] in H.
  - now injection H as <-.
  - destruct (consider best f) as [b1 |] eqn:Ec; [| discriminate].
    apply (IH b1 best'); [| | exact H].
    + apply (consider_keeps best b1 f m s Hs); [| exact Ec].
      intros v. apply Hn. now left.
    + intros g w Hg. apply Hn. now right.
Qed.

Lemma consider_takes (best best' : samples) (f : str) (m v : Z) :
  is_wav f = true -> parse_file_info f = Info m v ->
  (forall s, dict_get best m = Some s ->
             Z.abs (v - IDEAL_VELOCITY) < Z.abs (sample_velocity s - IDEAL_VELOCITY)) ->
  consider best f = Some best' ->
  dict_get best' m = Some (mk_sample (full_path f) v).
Proof.
  unfold consider, is_wav. intros -> -> Hlt H.
  destruct (dict_get best m) as [cur |].
  - specialize (Hlt cur eq_refl).
    destruct (Z.ltb_spec (Z.abs (v - IDEAL_VELOCITY))
                (Z.abs (sample_velocity cur - IDEAL_VELOCITY))); [| lia].
    injection H as <-. now rewrite dict_get_set, Z.eqb_refl.
  - injection H as <-. now rewrite dict_get_set, Z.eqb_refl.
Qed.

(** X16: after the scan of the folder, every note that has an entry in
    [best_samples] got it from a [.wav] file of the listing that parses
    to that note, with the path and the velocity of that file; and every
    [.wav] file that parses to a note finds an entry for that note whose
    velocity is at least as close to 12 as its own. *)
Theorem scan_keeps_best_velocity (listing : list str) (best : samples) :
  scan [] listing = Some best ->
  (forall m s, dict_get best m = Some s ->
               exists f, In f listing /\ is_wav f = true
                         /\ parse_file_info f = Info m (sample_velocity s)
                         /\ sample_path s = full_path f)
  /\ (forall f m v, In f listing -> is_wav f = true ->
                    parse_file_info f = Info m v ->
                    exists s, dict_get best m = Some s
                              /\ Z.abs (sample_velocity s - 12) <= Z.abs (v - 12)).
Proof.
  intros H. destruct (scan_spec _ _ _ H) as (I1 & _ & I3 & _). split.
  - intros m s Hs. destruct (I1 m s Hs) as [Hb | (f & v & Hin & Hw & Hi & ->)].
    + discriminate Hb.
    + exists f. cbn. auto.
  - exact I3.
Qed.

Lemma scan_keeps_best_velocity_witness :
  let listing := map lit ["A0v1.wav"; "notes.txt"; "A0v10.wav"; "C4v16.wav"]%string in
  let best := [(21, mk_sample (lit "assets/sounds/A0v10.wav") 10);
               (60, mk_sample (lit "assets/sounds/C4v16.wav") 16)] in
  scan [] listing = Some best
  /\ (forall m s, dict_get best m = Some s ->
                  exists f, In f listing /\ is_wav f = true
                            /\ parse_file_info f = Info m (sample_velocity s)
                            /\ sample_path s = full_path f)
  /\ (forall f m v, In f listing -> is_wav f = true ->
                    parse_file_info f = Info m v ->
                    exists s, dict_get best m = Some s
                              /\ Z.abs (sample_velocity s - 12) <= Z.abs (v - 12)).
Proof.
  intros listing best.
  split; [vm_compute; reflexivity |].
  apply (scan_keeps_best_velocity listing best). vm_compute; reflexivity.
Defined.

(** X17: among the [.wav] files of one note the scan keeps the first one,
    in listing order, whose velocity is closest to 12: a file that is
    strictly closer than every earlier file of its note and at least as
    close as every later one is the entry of the note. *)
Theorem first_closest_file_kept
    (pre post : list str) (f : str) (m v : Z) (best : samples) :
  scan [] (pre ++ f :: post) = Some best ->
  is_wav f = true ->
  parse_file_info f = Info m v ->
  (forall g w, In g pre -> is_wav g = true -> parse_file_info g = Info m w ->
               Z.abs (v - 12) < Z.abs (w - 12)) ->
  (forall g w, In g post -> is_wav g = true -> parse_file_info g = Info m w ->
               Z.abs (v - 12) <= Z.abs (w - 12)) ->
  dict_get best m = Some (mk_sample (full_path f) v).
Proof.
  intros H Hw Hi Hpre Hpost. rewrite scan_app in H.
  destruct (scan [] pre) as [b1 |] eqn:E1; [| discriminate].
  cbn [scan] in H.
  destruct (consider b1 f) as [b2 |] eqn:E2; [| discriminate].
  destruct (scan_spec _ _ _ E1) as (I1 & _).
  apply (scan_keeps post m _ b2 best); [| exact Hpost | exact H].
  apply (consider_takes b1 b2 f m v Hw Hi); [| exact E2].
  intros s Hs. destruct (I1 m s Hs) as [Hb | (g & w & Hin & Hgw & Hgi & ->)].
  - discriminate Hb.
  - exact (Hpre g w Hin Hgw Hgi).
Qed.

Lemma first_closest_file_kept_witness :
  let pre := map lit ["A0v1.wav"]%string in
  let post := map lit ["A0v14.wav"; "C4v12.wav"]%string in
  let f := lit "A0v10.wav" in
  let best := [(21, mk_sample (lit "assets/sounds/A0v10.wav") 10);
               (60, mk_sample (lit "assets/sounds/C4v12.wav") 12)] in
  scan [] (pre ++ f :: post) = Some best
  /\ dict_get best 21 = Some (mk_sample (full_path f) 10).
Proof.
  intros pre post f best.
  split; [vm_compute; reflexivity |].
  apply (first_closest_file_kept pre post f 21 10 best).
  - vm_compute; reflexivity.
  - vm_compute; reflexivity.
  - vm_compute; reflexivity.
  - intros g w [<- | []] _ Hg. vm_compute in Hg. injection Hg as <-. lia.
  - intros g w [<- | [<- | []]] _ Hg; vm_compute in Hg.
    + injection Hg as <-. lia.
    + discriminate Hg.
Defined.

Lemma scan_nonempty (listing : list str) (best : samples) :
  scan [] listing = Some best ->
  (Nat.eqb (length best) 0 = true <->
   forall f, In f listing -> is_wav f = true -> parse_file_info f = NoInfo).
Proof.
  intros H. destruct (scan_spec _ _ _ H) as (I1 & _ & I3 & I4). split.
  - intros Hz f Hin Hw. destruct best; [| discriminate Hz].
    destruct (parse_file_info f) as [m v | |] eqn:Hi; [| reflexivity |].
    + destruct (I3 f m v Hin Hw Hi) as (s & Hs & _). discriminate Hs.
    + now destruct (I4 f Hin Hw).
  - intros Hall. destruct best as [| [k s] r]; [reflexivity |].
    destruct (I1 k s) as [Hb | (f & v & Hin & Hw & Hi & _)].
    + cbn. now rewrite Z.eqb_refl.
    + discriminate Hb.
    + rewrite (Hall f Hin Hw) in Hi. discriminate Hi.
Qed.

(** X18: when no [.wav] file of the folder makes [parse_file_info] raise
    and at least one parses to a note, [build] reaches its last line with
    one job for each of the 88 keys 21..108, in order.  The source of a
    job is a note that a [.wav] file of the listing parses to, the job
    reads that note's file, the shift is target minus source, and no
    parsed note is nearer to the target than the source: a key that has
    its own file is not shifted. *)
Theorem build_nearest_source (listing : list str) :
  (forall f, In f listing -> is_wav f = true -> parse_file_info f <> Raises) ->
  (exists f m v, In f listing /\ is_wav f = true /\ parse_file_info f = Info m v) ->
  exists jobs,
    build true listing = Jobs jobs
    /\ map target_midi jobs = key_range
    /\ Forall (fun j =>
                 job_diff j = target_midi j - source_midi j
                 /\ (exists f v, In f listing /\ is_wav f = true
                                 /\ parse_file_info f = Info (source_midi j) v
                                 /\ job_path j = full_path f)
                 /\ (forall f m v, In f listing -> is_wav f = true ->
                                   parse_file_info f = Info m v ->
                                   Z.abs (job_diff j) <= Z.abs (target_midi j - m)))
         jobs.
Proof.
  intros Hno (f0 & m0 & v0 & Hin0 & Hw0 & Hi0). unfold build. cbn [negb].
  destruct (scan [] listing) as [best |] eqn:E.
  2: { apply scan_raises in E. destruct E as (f & Hin & Hw & Hr).
       now destruct (Hno f Hin Hw). }
  destruct (scan_spec _ _ _ E) as (I1 & _ & I3 & _).
  assert (Hne : best <> []).
  { intros ->. destruct (I3 f0 m0 v0 Hin0 Hw0 Hi0) as (s & Hs & _).
    discriminate Hs. }
  destruct best as [| b0 br] eqn:Eb; [contradiction |]. rewrite <- Eb in *.
  replace (Nat.eqb (length best) 0) with false by (now rewrite Eb).
  destruct (make_jobs_spec best key_range Hne) as (jobs & Ej & Ht & Hf).
  rewrite Ej. exists jobs. split; [reflexivity |]. split; [exact Ht |].
  revert Hf. apply List.Forall_impl. intros j (J1 & (s & Hs & Hp) & J3).
  split; [exact J1 |]. split.
  - destruct (I1 _ s Hs) as [Hb | (f & v & Hin & Hw & Hi & ->)].
    + discriminate Hb.
    + exists f, v. rewrite Hp. cbn. auto.
  - intros f m v Hin Hw Hi. apply J3.
    destruct (I3 f m v Hin Hw Hi) as (s' & Hs' & _).
    apply dict_get_In. eauto.
Qed.

Lemma build_nearest_source_witness :
  let listing := map lit [".hidden.wav"; "A0v1.wav"; "C4v12.wav"; "C4rel.wav"]%string in
  exists jobs,
    build true listing = Jobs jobs
    /\ map target_midi jobs = key_range
    /\ Forall (fun j =>
                 job_diff j = target_midi j - source_midi j
                 /\ (exists f v, In f listing /\ is_wav f = true
                                 /\ parse_file_info f = Info (source_midi j) v
                                 /\ job_path j = full_path f)
                 /\ (forall f m v, In f listing -> is_wav f = true ->
                                   parse_file_info f = Info m v ->
                                   Z.abs (job_diff j) <= Z.abs (target_midi j - m)))
         jobs.
Proof.
  intros listing. apply (build_nearest_source listing).
  - intros f [<- | [<- | [<- | [<- | []]]]] _; vm_compute; discriminate.
  - exists (lit "A0v1.wav"), 21, 1. split; [right; now left |].
    split; vm_compute; reflexivity.
Defined.

(** X19: with the source folder present, [build] is left by an uncaught
    exception exactly when a [.wav] file of the listing makes
    [parse_file_info] raise, so neither [min] nor the look-up of the
    source fails; it stops with "No valid note files found" exactly when
    every [.wav] file of the listing parses to [(None, None)]; and
    without the folder it stops at once. *)
Theorem build_outcomes (listing : list str) :
  build false listing = NoSourceFolder
  /\ (build true listing = Crashed <->
      exists f, In f listing /\ is_wav f = true /\ parse_file_info f = Raises)
  /\ (build true listing = NoValidFiles <->
      forall f, In f listing -> is_wav f = true -> parse_file_info f = NoInfo).
Proof.
  split; [reflexivity |]. unfold build. cbn [negb].
  destruct (scan [] listing) as [best |] eqn:E.
  - pose proof (scan_nonempty _ _ E) as Hz.
    destruct (scan_spec _ _ _ E) as (_ & _ & _ & I4).
    destruct (Nat.eqb (length best) 0) eqn:El.
    + split.
      * split; [discriminate |]. intros (f & Hin & Hw & Hr).
        now destruct (I4 f Hin Hw).
      * split; [intros _; now apply Hz | reflexivity].
    + assert (Hne : best <> []) by (intros ->; discriminate El).
      destruct (make_jobs_spec best key_range Hne) as (jobs & Ej & _).
      rewrite Ej. split.
      * split; [discriminate |]. intros (f & Hin & Hw & Hr).
        now destruct (I4 f Hin Hw).
      * split; [discriminate |]. intros Hall.
        apply Hz in Hall. discriminate Hall.
  - pose proof E as E'. apply scan_raises in E'. split.
    + split; [intros _; exact E' | reflexivity].
    + split; [discriminate |]. intros Hall.
      destruct E' as (f & Hin & Hw & Hr). rewrite (Hall f Hin Hw) in Hr.
      discriminate Hr.
Qed.

Lemma nearest_keep (post : list Z) (x target : Z) :
  (forall y, In y post -> Z.abs (x - target) <= Z.abs (y - target)) ->
  nearest x post target = x.
Proof.
  unfold nearest. induction post as [| z q IH]; intros Hpost; cbn [fold_left].
  - reflexivity.
  - destruct (Z.ltb_spec (Z.abs (z - target)) (Z.abs (x - target))).
    + specialize (Hpost z (or_introl eq_refl)). lia.
    + apply IH. intros y Hy. apply Hpost. now right.
Qed.

Lemma nearest_first (pre post : list Z) (x target : Z) :
  forall best,
    (forall y, In y (best :: pre) -> Z.abs (x - target) < Z.abs (y - target)) ->
    (forall y, In y post -> Z.abs (x - target) <= Z.abs (y - target)) ->
    nearest best (pre ++ x :: post) target = x.
Proof.
  induction pre as [| y r IH]; intros best Hpre Hpost.
  - pose proof (nearest_keep post x target Hpost) as Hk.
    unfold nearest in *. cbn [app fold_left].
    specialize (Hpre best (or_introl eq_refl)).
    destruct (Z.ltb_spec (Z.abs (x - target)) (Z.abs (best - target))); [| lia].
    exact Hk.
  - change (nearest best ((y :: r) ++ x :: post) target)
      with (nearest (if Z.abs (y - target) <? Z.abs (best - target)
                     then y else best) (r ++ x :: post) target).
    apply IH; [| exact Hpost].
    intros y' [<- | Hy].
    + destruct (_ <? _); apply Hpre; [right; now left | now left].
    + apply Hpre. right. now right.
Qed.

(** X20: when the target key has no file of its own, the source is the
    first note, in the order in which the notes entered [best_samples],
    among those nearest to the target: a note strictly nearer than every
    note entered before it and at least as near as every note entered
    after it is the one chosen. *)
Theorem nearest_source_first_wins
    (best : samples) (pre post : list Z) (x target : Z) :
  dict_get best target = None ->
  map fst best = pre ++ x :: post ->
  (forall y, In y pre -> Z.abs (x - target) < Z.abs (y - target)) ->
  (forall y, In y post -> Z.abs (x - target) <= Z.abs (y - target)) ->
  source_for best target = Some x.
Proof.
  intros Hn Hk Hpre Hpost. unfold source_for. rewrite Hn, Hk.
  destruct pre as [| k r]; cbn [app].
  - now rewrite nearest_keep.
  - now rewrite nearest_first.
Qed.

Lemma nearest_source_first_wins_witness :
  let best := [(61, mk_sample (lit "assets/sounds/61.wav") 12);
               (59, mk_sample (lit "assets/sounds/59.wav") 12);
               (72, mk_sample (lit "assets/sounds/72.wav") 12)] in
  source_for best 60 = Some 61.
Proof.
  intros best.
  apply (nearest_source_first_wins best [] [59; 72] 61 60).
  - reflexivity.
  - reflexivity.
  - intros y [].
  - intros y [<- | [<- | []]]; lia.
Defined.

(** ** build_pianov6.py: parse_file_info *)

Ltac each_char c :=
  destruct c as [[] [] [] [] [] [] [] []]; vm_compute;
  first [reflexivity | discriminate | tauto].

Lemma decimal_char (c : ascii) :
  is_decimal c = true ->
  is_digit c = true
  /\ is_space c = false
  /\ existsb (Ascii.eqb c) (lit "-+_.v#rhps") = false.
Proof.
  intros H; repeat split; revert H; each_char c.
Qed.

Lemma digit_char (c : ascii) :
  is_digit c = true ->
  is_space c = false /\ existsb (Ascii.eqb c) (lit "-+_") = false.
Proof.
  intros H; split; revert H; each_char c.
Qed.

Lemma letter_char (c : ascii) :
  existsb (Ascii.eqb c) (lit "ABCDEFG") = true ->
  is_digit c = false /\ existsb (Ascii.eqb c) (lit ".v#rhps") = false.
Proof.
  intros H; split; revert H; each_char c.
Qed.

Lemma existsb_eqb_In (c : ascii) (l : str) :
  existsb (Ascii.eqb c) l = false -> ~ In c l.
Proof.
  intros H Hin. assert (E : existsb (Ascii.eqb c) l = true); [| congruence].
  apply existsb_exists. exists c. split; [exact Hin | apply Ascii.eqb_refl].
Qed.

Lemma decimal_not_In (s : str) (c : ascii) :
  forallb is_decimal s = true -> In c (lit "-+_.v#rhps") -> ~ In c s.
Proof.
  intros Hs Hc Hin.
  pose proof (proj1 (forallb_forall _ _) Hs c Hin) as Hd.
  destruct (decimal_char c Hd) as (_ & _ & He).
  exact (existsb_eqb_In _ _ He Hc).
Qed.

Lemma contains_hd (s p : str) (c : ascii) :
  contains s (c :: p) = true -> In c s.
Proof.
  induction s as [| x r IH]; cbn [contains startswith]; [discriminate |].
  intros H. apply orb_true_iff in H as [H | H].
  - apply andb_true_iff in H as [H _]. apply Ascii.eqb_eq in H. now left.
  - right. auto.
Qed.

Lemma no_words (s : str) :
  (forall c, In c (lit "rhps") -> ~ In c s) ->
  existsb (contains s) (map lit ["rel"; "harm"; "pedal"; "stac"]%string) = false.
Proof.
  intros H.
  assert (Hc : forall c p, In c (lit "rhps") -> contains s (c :: p) = false).
  { intros c p Hc. destruct (contains s (c :: p)) eqn:E; [| reflexivity].
    apply contains_hd in E. now destruct (H c Hc). }
  cbn [map existsb lit list_ascii_of_string].
  rewrite !Hc; [reflexivity | | | |]; cbn; auto.
Qed.

Lemma forallb_dots (s : str) :
  s <> [] -> ~ In "."%char s -> forallb (Ascii.eqb ".") s = false.
Proof.
  destruct s as [| c r]; [contradiction |]. intros _ Hn. cbn [forallb].
  destruct (Ascii.eqb_spec "." c) as [<- | Hne]; [| reflexivity].
  destruct Hn. now left.
Qed.

Lemma splitext_wav (body : str) :
  body <> [] -> ~ In "."%char body ->
  splitext_root (body ++ lit ".wav") = body.
Proof.
  intros Hne Hd. unfold splitext_root. rewrite rev_app_distr.
  replace (rev (lit ".wav")) with (lit "vaw.") by reflexivity.
  cbn [lit list_ascii_of_string app until_dot].
  replace (Ascii.eqb "v" ".") with false by reflexivity.
  replace (Ascii.eqb "a" ".") with false by reflexivity.
  replace (Ascii.eqb "w" ".") with false by reflexivity.
  replace (Ascii.eqb "." ".") with true by reflexivity.
  rewrite forallb_dots.
  - apply rev_involutive.
  - intros E. apply (f_equal (@rev ascii)) in E. rewrite rev_involutive in E.
    contradiction.
  - intros Hin. apply in_rev in Hin. contradiction.
Qed.

Lemma split_on_none (s : str) :
  ~ In "v"%char s -> split_on "v" s = [s].
Proof.
  induction s as [| x r IH]; intros Hn; cbn [split_on]; [reflexivity |].
  destruct (Ascii.eqb_spec x "v") as [-> | Hne]; [destruct Hn; now left |].
  rewrite IH; [reflexivity |]. intros Hin. apply Hn. now right.
Qed.

Lemma split_on_one (a b : str) :
  ~ In "v"%char a -> ~ In "v"%char b ->
  split_on "v" (a ++ "v"%char :: b) = [a; b].
Proof.
  intros Ha Hb. induction a as [| x r IH]; cbn [split_on app].
  - replace (Ascii.eqb "v" "v") with true by reflexivity.
    now rewrite split_on_none.
  - destruct (Ascii.eqb_spec x "v") as [-> | Hne]; [destruct Ha; now left |].
    rewrite IH; [reflexivity |]. intros Hin. apply Ha. now right.
Qed.

Lemma lstrip_id (s : str) :
  (forall c, In c s -> is_space c = false) -> lstrip s = s.
Proof.
  destruct s as [| c r]; [reflexivity |]. intros H. cbn [lstrip].
  now rewrite (H c (or_introl eq_refl)).
Qed.

Lemma strip_id (s : str) :
  (forall c, In c s -> is_space c = false) -> strip s = s.
Proof.
  intros H. unfold strip. rewrite (lstrip_id s H), lstrip_id.
  - apply rev_involutive.
  - intros c Hin. apply H. now apply in_rev.
Qed.

Lemma int_digits_decimal (s : str) :
  forallb is_decimal s = true ->
  forall acc b, s <> [] \/ b = true ->
    int_digits s acc b
    = Some (fold_left (fun acc c => 10 * acc + (code c - 48)) s acc).
Proof.
  induction s as [| c r IH]; intros Hs acc b Hb; cbn [int_digits fold_left].
  - destruct Hb as [Hb | ->]; [contradiction | reflexivity].
  - cbn [forallb] in Hs. apply andb_true_iff in Hs as [Hc Hr].
    rewrite Hc. apply IH; auto.
Qed.

Lemma int_digits_superscript (s : str) :
  forallb is_digit s = true -> forallb is_decimal s = false ->
  forall acc b, int_digits s acc b = None.
Proof.
  induction s as [| c r IH]; intros Hs Hd acc b; cbn [int_digits].
  - discriminate Hd.
  - cbn [forallb] in Hs, Hd. apply andb_true_iff in Hs as [Hc Hr].
    destruct (is_decimal c) eqn:Ec.
    + apply IH; [exact Hr | exact Hd].
    + destruct (digit_char c Hc) as [_ He].
      cbn [lit list_ascii_of_string existsb] in He.
      apply orb_false_iff in He as [_ He].
      apply orb_false_iff in He as [_ He].
      apply orb_false_iff in He as [He _].
      now rewrite He.
Qed.

Lemma py_int_head (c : ascii) (r : str) :
  (forall x, In x (c :: r) -> is_digit x = true) ->
  py_int (c :: r) = int_digits (c :: r) 0 false.
Proof.
  intros H. unfold py_int. rewrite strip_id.
  - destruct (digit_char c (H c (or_introl eq_refl))) as [_ He].
    cbn [lit list_ascii_of_string existsb] in He.
    apply orb_false_iff in He as [E1 He].
    apply orb_false_iff in He as [E2 _].
    now rewrite E1, E2.
  - intros x Hx. now destruct (digit_char x (H x Hx)).
Qed.

Lemma py_int_decimal (s : str) :
  s <> [] -> forallb is_decimal s = true ->
  py_int s = Some (digits_value s).
Proof.
  intros Hne Hs. destruct s as [| c r]; [contradiction |].
  rewrite py_int_head.
  - now apply int_digits_decimal; [| left].
  - intros x Hx. pose proof (proj1 (forallb_forall _ _) Hs x Hx) as Hd.
    now destruct (decimal_char x Hd).
Qed.

Lemma py_int_superscript (s : str) :
  forallb is_digit s = true -> forallb is_decimal s = false ->
  py_int s = None.
Proof.
  intros Hs Hd. destruct s as [| c r]; [discriminate Hd |].
  rewrite py_int_head.
  - now apply int_digits_superscript.
  - exact (proj1 (forallb_forall _ _) Hs).
Qed.

Lemma isdigit_decimal (s : str) :
  s <> [] -> forallb is_decimal s = true -> isdigit s = true.
Proof.
  intros Hne Hs. unfold isdigit. destruct s as [| c r]; [contradiction |].
  cbn [length Nat.eqb negb andb]. apply forallb_forall. intros x Hx.
  pose proof (proj1 (forallb_forall _ _) Hs x Hx) as Hd.
  now destruct (decimal_char x Hd).
Qed.

(** X21: a name made of decimal digits followed by [.wav] is read as the
    number the digits write, with velocity 12. *)
Theorem numbered_file_parsed (ds : str) :
  ds <> [] -> forallb is_decimal ds = true ->
  parse_file_info (ds ++ lit ".wav") = Info (digits_value ds) 12.
Proof.
  intros Hne Hs.
  assert (Hnot : forall c, In c (lit "rhps") -> ~ In c (ds ++ lit ".wav")).
  { intros c Hc Hin. apply in_app_iff in Hin as [Hin | Hin].
    - apply (decimal_not_In ds c Hs); [| exact Hin]. cbn in Hc |- *. tauto.
    - cbn in Hc, Hin. intuition (subst; discriminate). }
  unfold parse_file_info.
  replace (startswith (ds ++ lit ".wav") (lit ".")) with false.
  2: { destruct ds as [| c r]; [contradiction |].
       cbn [app lit list_ascii_of_string startswith].
       destruct (Ascii.eqb_spec "." c) as [<- | Hd]; [| reflexivity].
       discriminate Hs. }
  rewrite (no_words _ Hnot).
  rewrite splitext_wav; [| exact Hne |].
  2: { apply (decimal_not_In ds "." Hs). cbn. tauto. }
  rewrite (isdigit_decimal ds Hne Hs), (py_int_decimal ds Hne Hs).
  reflexivity.
Qed.

Lemma numbered_file_parsed_witness :
  parse_file_info (lit "60.wav") = Info 60 12.
Proof.
  apply (numbered_file_parsed (lit "60")).
  - discriminate.
  - reflexivity.
Defined.

(** X22: a name that does not start with a dot, contains none of the
    excluded words, and whose root is made of the digits [0]..[9] and
    the superscript digits two, three and one, with at least one
    superscript among them, makes [parse_file_info] raise: the root
    passes [isdigit], and [int], which stands outside the [try] block,
    rejects it. *)
Theorem superscript_digit_name_raises (filename : str) :
  startswith filename (lit ".") = false ->
  existsb (contains filename)
    (map lit ["rel"; "harm"; "pedal"; "stac"]%string) = false ->
  forallb is_digit (splitext_root filename) = true ->
  forallb is_decimal (splitext_root filename) = false ->
  parse_file_info filename = Raises.
Proof.
  intros H1 H2 Hd Hn. unfold parse_file_info. rewrite H1, H2.
  assert (Hi : isdigit (splitext_root filename) = true).
  { unfold isdigit. rewrite Hd.
    destruct (splitext_root filename); [discriminate Hn | reflexivity]. }
  rewrite Hi. now rewrite (py_int_superscript _ Hd Hn).
Qed.

Lemma superscript_digit_name_raises_witness :
  parse_file_info (ascii_of_nat 178 :: lit "3.wav") = Raises.
Proof.
  apply (superscript_digit_name_raises (ascii_of_nat 178 :: lit "3.wav"));
    reflexivity.
Defined.

Lemma str_eqb_eq (a b : str) : str_eqb a b = true -> a = b.
Proof.
  revert b. induction a as [| x r IH]; intros [| y q]; cbn [str_eqb];
    try discriminate; [reflexivity |].
  intros H. apply andb_true_iff in H as [H1 H2].
  apply Ascii.eqb_eq in H1. subst. f_equal. now apply IH.
Qed.

Lemma index_of_In (x : str) (l : list str) (k : Z) :
  index_of x l = Some k -> In x l.
Proof.
  revert k. induction l as [| y r IH]; intros k; cbn [index_of]; [discriminate |].
  destruct (str_eqb y x) eqn:E.
  - intros _. left. now apply str_eqb_eq.
  - destruct (index_of x r); [| discriminate]. intros _. right. eauto.
Qed.

Lemma note_shape (note : str) (k : Z) :
  index_of note NOTES = Some k ->
  exists L, existsb (Ascii.eqb L) (lit "ABCDEFG") = true
            /\ (note = [L] \/ note = [L; "#"%char]).
Proof.
  intros H. apply index_of_In in H. cbn in H.
  repeat (destruct H as [<- | H];
          [eexists; split; [| first [left; reflexivity | right; reflexivity]];
           reflexivity |]).
  destruct H.
Qed.

Lemma parse_named (L : ascii) (sharp : bool) (od tail : str) (vel : Z) :
  existsb (Ascii.eqb L) (lit "ABCDEFG") = true ->
  od <> [] -> forallb is_decimal od = true ->
  (tail = [] /\ vel = 12
   \/ exists vd, tail = "v"%char :: vd /\ vd <> []
                 /\ forallb is_decimal vd = true /\ vel = digits_value vd) ->
  let note := if sharp then [L; "#"%char] else [L] in
  parse_file_info (note ++ od ++ tail ++ lit ".wav")
  = match index_of note NOTES with
    | Some k => Info (12 + digits_value od * 12 + k) vel
    | None => NoInfo
    end.
Proof.
  intros HL Hne Hod Htail note.
  destruct (letter_char L HL) as [HLd HLn].
  pose proof (existsb_eqb_In _ _ HLn) as HLin.
  assert (Hnote : forall c, In c (lit ".vrhps") -> ~ In c note).
  { intros c Hc Hin.
    assert (Hc' : c = L \/ c = "#"%char)
      by (subst note; destruct sharp; cbn in Hin; intuition).
    destruct Hc' as [-> | ->].
    - apply HLin. cbn in Hc |- *. tauto.
    - cbn in Hc. intuition discriminate. }
  assert (Hdig : forall (s : str) c, forallb is_decimal s = true ->
                   In c (lit ".vrhps") -> ~ In c s).
  { intros s c Hs Hc. apply (decimal_not_In s c Hs). cbn in Hc |- *. tauto. }
  assert (Hbase : forall c, In c (lit ".vrhps") -> ~ In c (note ++ od)).
  { intros c Hc Hin. apply in_app_iff in Hin as [Hin | Hin].
    - exact (Hnote c Hc Hin).
    - exact (Hdig od c Hod Hc Hin). }
  assert (Htl : forall c, In c (lit ".rhps") -> ~ In c tail).
  { intros c Hc Hin.
    destruct Htail as [[-> _] | (vd & -> & _ & Hvd & _)]; [destruct Hin |].
    destruct Hin as [<- | Hin].
    - cbn in Hc. intuition discriminate.
    - apply (Hdig vd c Hvd); [| exact Hin]. cbn in Hc |- *. tauto. }
  set (name := (note ++ od) ++ tail).
  assert (Hname : forall c, In c (lit ".rhps") -> ~ In c name).
  { intros c Hc Hin. apply in_app_iff in Hin as [Hin | Hin].
    - apply (Hbase c); [| exact Hin]. cbn in Hc |- *. tauto.
    - exact (Htl c Hc Hin). }
  assert (Hhd : exists rest, name = L :: rest).
  { subst name note. destruct sharp; eexists; reflexivity. }
  destruct Hhd as [rest Hrest].
  replace (note ++ od ++ tail ++ lit ".wav") with (name ++ lit ".wav")
    by (subst name; now rewrite <- !app_assoc).
  unfold parse_file_info. cbv zeta.
  replace (startswith (name ++ lit ".wav") (lit ".")) with false.
  2: { rewrite Hrest. cbn [app lit list_ascii_of_string startswith].
       destruct (Ascii.eqb_spec "." L) as [<- | Hd]; [| reflexivity].
       destruct HLin. cbn. tauto. }
  rewrite no_words.
  2: { intros c Hc Hin. apply in_app_iff in Hin as [Hin | Hin].
       - apply (Hname c); [| exact Hin]. cbn in Hc |- *. tauto.
       - cbn in Hc, Hin. intuition (subst; discriminate). }
  rewrite splitext_wav.
  2: { rewrite Hrest. discriminate. }
  2: { apply Hname. cbn. tauto. }
  replace (isdigit name) with false.
  2: { rewrite Hrest. unfold isdigit. cbn [length Nat.eqb negb andb forallb].
       now rewrite HLd. }
  assert (Hsplit : split_on "v" name
                   = (note ++ od) :: match tail with [] => [] | _ :: vd => [vd] end).
  { subst name. destruct Htail as [[-> _] | (vd & -> & _ & Hvd & _)].
    - rewrite app_nil_r. apply split_on_none. apply Hbase. cbn. tauto.
    - apply split_on_one; [apply Hbase | apply (Hdig vd _ Hvd)]; cbn; tauto. }
  rewrite Hsplit. cbn [hd]. cbv beta iota.
  destruct od as [| d od']; [contradiction |].
  assert (Hd : Ascii.eqb d "#" = false).
  { cbn [forallb] in Hod. apply andb_true_iff in Hod as [Hd _].
    destruct (decimal_char d Hd) as (_ & _ & He).
    cbn [lit list_ascii_of_string existsb] in He.
    repeat (apply orb_false_iff in He as [? He]). assumption. }
  pose proof (py_int_decimal (d :: od') Hne Hod) as Hint.
  assert (Hfin : forall velocity : Z,
            (if (length (note ++ d :: od') <? 2)%nat
             then NoInfo
             else
               match
                 py_int
                   (if match note ++ d :: od' with
                       | _ :: c :: _ => Ascii.eqb c "#"
                       | _ => false
                       end
                    then skipn 2 (note ++ d :: od')
                    else skipn 1 (note ++ d :: od'))
               with
               | Some octave =>
                   match
                     index_of
                       (if match note ++ d :: od' with
                           | _ :: c :: _ => Ascii.eqb c "#"
                           | _ => false
                           end
                        then firstn 2 (note ++ d :: od')
                        else firstn 1 (note ++ d :: od'))
                       NOTES
                   with
                   | Some k => Info (12 + octave * 12 + k) velocity
                   | None => NoInfo
                   end
               | None => NoInfo
               end)
            = match index_of note NOTES with
              | Some k => Info (12 + digits_value (d :: od') * 12 + k) velocity
              | None => NoInfo
              end).
  { intros velocity. subst note.
    destruct sharp; cbn [app length Nat.ltb Nat.leb firstn skipn].
    - replace (Ascii.eqb "#" "#") with true by reflexivity. now rewrite Hint.
    - now rewrite Hd, Hint. }
  destruct Htail as [[-> ->] | (vd & -> & Hv & Hvd & ->)]; cbv beta iota.
  - exact (Hfin IDEAL_VELOCITY).
  - rewrite (isdigit_decimal vd Hv Hvd), (py_int_decimal vd Hv Hvd).
    exact (Hfin (digits_value vd)).
Qed.

(** X23: a name made of a note name of [NOTES], an octave in decimal
    digits, [v], a velocity in decimal digits and [.wav] is read as note
    [12 + 12 * octave + index] with that velocity; without the [v] part
    it is read as the same note with velocity 12. *)
Theorem named_file_parsed (note od vd : str) (k : Z) :
  index_of note NOTES = Some k ->
  od <> [] -> forallb is_decimal od = true ->
  vd <> [] -> forallb is_decimal vd = true ->
  parse_file_info (note ++ od ++ lit "v" ++ vd ++ lit ".wav")
  = Info (12 + digits_value od * 12 + k) (digits_value vd)
  /\ parse_file_info (note ++ od ++ lit ".wav")
     = Info (12 + digits_value od * 12 + k) 12.
Proof.
  intros Hk Hod1 Hod2 Hvd1 Hvd2.
  destruct (note_shape note k Hk) as (L & HL & Hn).
  assert (Hs : exists sharp : bool, (if sharp then [L; "#"%char] else [L]) = note).
  { destruct Hn as [-> | ->]; [now exists false | now exists true]. }
  destruct Hs as [sharp Hs]. subst note. split.
  - pose proof (parse_named L sharp od ("v"%char :: vd) (digits_value vd)
                  HL Hod1 Hod2) as H.
    cbv zeta in H. rewrite Hk in H. apply H. right. exists vd. auto.
  - pose proof (parse_named L sharp od [] 12 HL Hod1 Hod2) as H.
    cbv zeta in H. rewrite Hk in H. apply H. now left.
Qed.

Lemma named_file_parsed_witness :
  parse_file_info (lit "A#" ++ lit "0" ++ lit "v" ++ lit "16" ++ lit ".wav")
  = Info (12 + digits_value (lit "0") * 12 + 10) (digits_value (lit "16"))
  /\ parse_file_info (lit "A#" ++ lit "0" ++ lit ".wav")
     = Info (12 + digits_value (lit "0") * 12 + 10) 12.
Proof.
  apply (named_file_parsed (lit "A#") (lit "0") (lit "16") 10).
  - reflexivity.
  - discriminate.
  - reflexivity.
  - discriminate.
  - reflexivity.
Defined.

Local Open Scope Q_scope.

(** ** The frame in which a note is triggered *)

Lemma play_notes_app (a b : list Q) :
  forall notes, play_notes (a ++ b) notes = play_notes b (play_notes a notes).
Proof.
  induction a as [| t r IH]; intros notes; cbn [app play_notes]; auto.
Qed.

Lemma play_sigs_app (a b : list Q) (key : Z -> bool) :
  forall notes,
    play_sigs (a ++ b) notes key
    = play_sigs a notes key ++ play_sigs b (play_notes a notes) key.
Proof.
  induction a as [| t r IH]; intros notes; cbn [app play_sigs play_notes].
  - reflexivity.
  - now rewrite IH, app_assoc.
Qed.

Lemma visit_note_early (t : Q) (n : FallingNote) :
  t < FallingNote.start_time n -> FallingNote.hit n = false ->
  visit_note t n = n.
Proof.
  unfold visit_note. destruct n as [m s e v h pl]. note_simpl.
  intros Hlt ->. note_simpl.
  destruct (Qle_boolP s t); [lra |]. reflexivity.
Qed.

Lemma loop_notes_nth (t : Q) (notes : list FallingNote) :
  forall (k : nat) (n : FallingNote),
    nth_error notes k = Some n ->
    nth_error (loop_notes t notes) k = Some n
    \/ nth_error (loop_notes t notes) k = Some (visit_note t n).
Proof.
  induction notes as [| x r IH]; intros k n Hk; [destruct k; discriminate |].
  cbn [loop_notes].
  destruct (Qgt_bool _ _); [now left |].
  destruct (Qlt_bool _ _); destruct k as [| k]; cbn [nth_error] in *.
  - now left.
  - now apply IH.
  - injection Hk as <-. now right.
  - now apply IH.
Qed.

Lemma loop_notes_unreached (t : Q) (notes : list FallingNote)
    (k : nat) (n : FallingNote) :
  nth_error notes k = Some n -> FallingNote.hit n = false ->
  t < FallingNote.start_time n \/ FallingNote.end_time n < t - 1 ->
  nth_error (loop_notes t notes) k = Some n.
Proof.
  intros Hk Hh [Hs | He].
  - destruct (loop_notes_nth t notes k n Hk) as [H | H]; [exact H |].
    now rewrite (visit_note_early t n Hs Hh) in H.
  - apply loop_notes_outside; [exact Hk | now left].
Qed.

Lemma play_notes_unreached (times : list Q) :
  forall (notes : list FallingNote) (k : nat) (n : FallingNote),
    nth_error notes k = Some n -> FallingNote.hit n = false ->
    Forall (fun t => t < FallingNote.start_time n
                     \/ FallingNote.end_time n < t - 1) times ->
    nth_error (play_notes times notes) k = Some n.
Proof.
  induction times as [| t r IH]; intros notes k n Hk Hh Hall; cbn [play_notes];
    [exact Hk |].
  inversion Hall as [| ? ? Ht Hr]; subst.
  apply IH; [| exact Hh | exact Hr]. now apply loop_notes_unreached.
Qed.

Lemma loop_notes_reached (t : Q) (notes : list FallingNote) :
  sorted_by_start_time notes ->
  forall (k : nat) (n : FallingNote),
    nth_error notes k = Some n ->
    FallingNote.start_time n <= t -> t - 1 <= FallingNote.end_time n ->
    nth_error (loop_notes t notes) k = Some (visit_note t n).
Proof.
  intros Hsort. induction Hsort as [| x r Hr IH Hx]; intros k n Hk Hs He;
    [destruct k; discriminate |].
  assert (Hxs : FallingNote.start_time x <= FallingNote.start_time n).
  { destruct k as [| k]; cbn [nth_error] in Hk.
    - injection Hk as <-. lra.
    - rewrite List.Forall_forall in Hx. apply Hx. eapply nth_error_In. exact Hk. }
  cbn [loop_notes].
  destruct (Qgt_boolP (FallingNote.start_time x) (t + 8)); [lra |].
  destruct k as [| k]; cbn [nth_error] in Hk |- *.
  - injection Hk as <-.
    destruct (Qlt_boolP (FallingNote.end_time x) (t - 1)); [lra |]. reflexivity.
  - destruct (Qlt_bool (FallingNote.end_time x) (t - 1)); cbn [nth_error];
      now apply IH.
Qed.

Lemma visit_press_exact (t : Q) (i j : nat) (n : FallingNote) (key : bool) :
  (i = j -> key = true) ->
  (count_press j (visit_sigs t i n key)
   + (if Nat.eqb i j && negb (FallingNote.hit (visit_note t n)) then 1 else 0)
   = (if Nat.eqb i j && negb (FallingNote.hit n) then 1 else 0))%nat.
Proof.
  intros Hk. unfold count_press, visit_sigs, visit_note.
  destruct (Nat.eqb_spec i j) as [E | E].
  - rewrite (Hk E). subst j. visit_cases n t; cbn; rewrite ?Nat.eqb_refl; reflexivity.
  - apply Nat.eqb_neq in E.
    visit_cases n t; destruct key; cbn; rewrite ?E; reflexivity.
Qed.

Lemma loop_press_exact (t : Q) (j : nat) (key : Z -> bool)
    (notes : list FallingNote) :
  forall i,
    (forall k n, nth_error notes k = Some n -> (i + k)%nat = j ->
                 key (FallingNote.midi n) = true) ->
    (count_press j (loop_sigs t i notes key)
     + pending_press i (loop_notes t notes) j
     = pending_press i notes j)%nat.
Proof.
  induction notes as [| n r IH]; intros i Hk;
    cbn [loop_sigs loop_notes pending_press]; [reflexivity |].
  destruct (Qgt_bool _ _); [reflexivity |].
  assert (IH' := IH (S i)).
  assert (Hr : forall k n0, nth_error r k = Some n0 -> (S i + k)%nat = j ->
                            key (FallingNote.midi n0) = true).
  { intros k n0 Hn0 E. apply (Hk (S k) n0); [exact Hn0 | lia]. }
  specialize (IH' Hr).
  destruct (Qlt_bool _ _); cbn [pending_press].
  - lia.
  - rewrite count_press_app.
    assert (H := visit_press_exact t i j n (key (FallingNote.midi n))).
    assert (Hn : i = j -> key (FallingNote.midi n) = true).
    { intros E. apply (Hk 0%nat n); [reflexivity | lia]. }
    specialize (H Hn). lia.
Qed.

Lemma visit_note_hit (t : Q) (n : FallingNote) :
  FallingNote.start_time n <= t ->
  same_note n (visit_note t n) /\ FallingNote.hit (visit_note t n) = true.
Proof.
  unfold visit_note, same_note. destruct n as [m s e v h pl]. note_simpl.
  intros Hs. destruct (Qle_boolP s t); [| lra].
  destruct h, pl; note_simpl; destruct (Qle_boolP e t); note_simpl;
    repeat split; reflexivity.
Qed.

Lemma Forall2_nth_back (a b : list FallingNote) (k : nat) (z : FallingNote) :
  Forall2 note_progress a b -> nth_error b k = Some z ->
  exists w, nth_error a k = Some w /\ note_progress w z.
Proof.
  intros H. revert k. induction H as [| x y la lb Hxy Hl IH]; intros k Hk;
    [destruct k; discriminate |].
  destruct k as [| k]; cbn [nth_error] in *.
  - injection Hk as <-. eauto.
  - now apply IH.
Qed.

Lemma sorted_progress (a b : list FallingNote) :
  sorted_by_start_time a -> Forall2 note_progress a b ->
  sorted_by_start_time b.
Proof.
  intros Hs. revert b. induction Hs as [| x r Hr IH Hx]; intros b Hp;
    inversion Hp as [| ? y ? l' Hxy Hrl]; subst; constructor.
  - now apply IH.
  - apply List.Forall_forall. intros z Hz.
    destruct (In_nth_error _ _ Hz) as [k Hk].
    destruct (Forall2_nth_back _ _ k z Hrl Hk) as (w & Hw & Pw).
    rewrite List.Forall_forall in Hx.
    pose proof (Hx w (nth_error_In _ _ Hw)) as Hle.
    destruct Hxy as ((_ & Ex & _) & _). destruct Pw as ((_ & Ew & _) & _).
    rewrite Ex, Ew. exact Hle.
Qed.

(** C8 (amended): the [press] call is made at most once for each note
    over a whole run, whatever the sequence of clock values, and never
    for a note whose [hit] flag is set; flags once set stay set.  The
    flag is not set in the first frame with clock >= start as such, but
    in the first frame that reaches the note with clock >= start: a
    frame at time [t] with start <= t and t - 1 <= end.  In a list
    sorted by start, while every frame has t < start or end < t - 1 the
    note stays untouched and no call is made; the first frame with
    start <= t and t - 1 <= end sets the flag and makes the one call;
    no later frame makes another. *)
Theorem trigger_once_at_first_reach (notes : list FallingNote)
    (km : gmap Z Key) (j : nat) (n : FallingNote) :
  nth_error notes j = Some n ->
  (forall times,
      (count_press j (run_signals (play times notes km)) <= 1)%nat
      /\ (FallingNote.hit n = true ->
          count_press j (run_signals (play times notes km)) = 0%nat)
      /\ Forall2 note_progress notes (run_notes (play times notes km)))
  /\ (sorted_by_start_time notes -> FallingNote.hit n = false ->
      is_Some (km !! FallingNote.midi n) ->
      forall (before after : list Q) (t : Q),
        Forall (fun t0 => t0 < FallingNote.start_time n
                          \/ FallingNote.end_time n < t0 - 1) before ->
        FallingNote.start_time n <= t -> t - 1 <= FallingNote.end_time n ->
        (count_press j (run_signals (play before notes km)) = 0%nat
         /\ nth_error (run_notes (play before notes km)) j = Some n)
        /\ count_press j (run_signals (play (before ++ [t]) notes km)) = 1%nat
        /\ count_press j (run_signals (play (before ++ t :: after) notes km))
           = 1%nat
        /\ exists n',
            nth_error (run_notes (play (before ++ t :: after) notes km)) j
            = Some n'
            /\ same_note n n' /\ FallingNote.hit n' = true).
Proof.
  intros Hj. split.
  - intros times.
    destruct (play_spec times notes km) as (km' & E & _ & _). rewrite E.
    unfold run_signals, run_notes. cbn [fst snd].
    assert (Hc := play_press_count times j (has_key km) notes).
    assert (Hn := pending_press_nth notes 0 j). cbn [Nat.add] in Hn.
    rewrite Hn, Hj in Hc.
    split; [| split].
    + destruct (FallingNote.hit n); lia.
    + intros Hh. rewrite Hh in Hc. lia.
    + apply play_notes_progress.
  - intros Hsort Hh Hkey before after t Hbefore Hs He.
    assert (Hk : has_key km (FallingNote.midi n) = true) by now apply has_key_spec.
    set (key := has_key km) in *.
    set (notes0 := play_notes before notes).
    assert (H0 : nth_error notes0 j = Some n)
      by now apply play_notes_unreached.
    assert (P0 := Forall2_nth_progress _ _ j n
                    (play_notes_progress before notes) Hj).
    assert (Hsort0 : sorted_by_start_time notes0)
      by exact (sorted_progress _ _ Hsort (play_notes_progress before notes)).
    assert (H1 : nth_error (loop_notes t notes0) j = Some (visit_note t n))
      by now apply loop_notes_reached.
    destruct (visit_note_hit t n Hs) as [Hsame Hhit].
    (* the signals of the three parts of the run *)
    assert (C0 : count_press j (play_sigs before notes key) = 0%nat).
    { assert (Hc := play_press_count before j key notes).
      assert (Ha := pending_press_nth notes 0 j).
      assert (Hb := pending_press_nth notes0 0 j).
      cbn [Nat.add] in Ha, Hb. fold notes0 in Hc.
      rewrite Ha, Hj, Hh in Hc. rewrite Hb, H0, Hh in Hc. lia. }
    assert (C1 : count_press j (loop_sigs t 0 notes0 key) = 1%nat).
    { assert (Hc := loop_press_exact t j key notes0 0%nat).
      assert (Ha := pending_press_nth notes0 0 j).
      assert (Hb := pending_press_nth (loop_notes t notes0) 0 j).
      cbn [Nat.add] in Ha, Hb, Hc.
      rewrite Ha, H0, Hh in Hc. rewrite Hb, H1, Hhit in Hc.
      rewrite <- Hc; [lia |].
      intros k n0 Hn0 <-. rewrite H0 in Hn0. injection Hn0 as <-. exact Hk. }
    assert (C2 : count_press j (play_sigs after (loop_notes t notes0) key)
                 = 0%nat).
    { assert (Hc := play_press_count after j key (loop_notes t notes0)).
      assert (Ha := pending_press_nth (loop_notes t notes0) 0 j).
      cbn [Nat.add] in Ha. rewrite Ha, H1, Hhit in Hc. lia. }
    destruct (play_spec before notes km) as (k0 & E0 & _ & _).
    destruct (play_spec (before ++ [t]) notes km) as (k1 & E1 & _ & _).
    destruct (play_spec (before ++ t :: after) notes km) as (k2 & E2 & _ & _).
    rewrite E0, E1, E2. unfold run_signals, run_notes. cbn [fst snd].
    fold key. rewrite !play_sigs_app, !play_notes_app. fold notes0.
    cbn [play_sigs play_notes]. rewrite !count_press_app.
    change (count_press j []) with 0%nat.
    split; [split; [exact C0 | exact H0] |].
    split; [lia |]. split; [lia |].
    destruct (Forall2_nth_progress _ _ j (visit_note t n)
                (play_notes_progress after (loop_notes t notes0)) H1)
      as (n' & Hn' & (S' & Hh' & _)).
    exists n'. split; [exact Hn' |]. split.
    + unfold same_note in *. intuition congruence.
    + now apply Hh'.
Qed.

Lemma trigger_once_at_first_reach_witness :
  let n := FallingNote.init 60 1 2 (1 # 2) in
  let before := [0; 1 # 2] in
  let after := [3; 3 # 2] in
  (nth_error [n] 0 = Some n /\ sorted_by_start_time [n]
   /\ FallingNote.hit n = false /\ is_Some (setup_keys !! FallingNote.midi n))
  /\ count_press 0 (run_signals (play before [n] setup_keys)) = 0%nat
  /\ count_press 0 (run_signals (play (before ++ [3 # 2]) [n] setup_keys)) = 1%nat
  /\ count_press 0
       (run_signals (play (before ++ (3 # 2) :: after) [n] setup_keys)) = 1%nat.
Proof.
  intros n before after.
  assert (H1 : nth_error [n] 0 = Some n) by reflexivity.
  assert (H2 : sorted_by_start_time [n]) by (repeat constructor).
  assert (H3 : FallingNote.hit n = false) by reflexivity.
  assert (H4 : is_Some (setup_keys !! FallingNote.midi n))
    by (apply setup_keys_dom; cbn; lia).
  assert (H5 : Forall (fun t0 => t0 < FallingNote.start_time n
                                 \/ FallingNote.end_time n < t0 - 1) before)
    by (repeat constructor; left; cbn; lra).
  assert (H6 : FallingNote.start_time n <= 3 # 2) by (cbn; lra).
  assert (H7 : (3 # 2) - 1 <= FallingNote.end_time n) by (cbn; lra).
  destruct (trigger_once_at_first_reach [n] setup_keys 0 n H1) as [_ W].
  destruct (W H2 H3 H4 before after (3 # 2) H5 H6 H7) as ((W0 & _) & W1 & W2 & _).
  split; [split; [exact H1 | split; [exact H2 | split; [exact H3 | exact H4]]] |].
  split; [exact W0 |]. split; [exact W1 | exact W2].
Defined.

(** C8, as stated, fails: the note [1,2) on pitch 60 is in the list and
    the first frame carries two right-arrow presses, which put the clock
    at 4.0.  This is the first frame with clock >= start, yet the note
    ended more than a second before the clock, the loop passes over it,
    and its [hit] flag is not set; ten more frames leave it unset, and
    no [press] call is ever made for it. *)
Lemma seek_past_note_never_hit :
  let notes := [FallingNote.init 60 1 2 (80 # 127)] in
  let g := main_iter [(0, 120)] (game_init notes)
             (0%Z, [KEYDOWN K_RIGHT; KEYDOWN K_RIGHT]) in
  let g' := main_loop [(0, 120)] (steady 10) g in
  (playback_time (g_clock g) == 4 /\ 1 <= playback_time (g_clock g))
  /\ note_flags (g_notes g) = [(false, false)]
  /\ g_log g = []
  /\ note_flags (g_notes g') = [(false, false)]
  /\ count_press 0 (g_log g') = 0%nat.
Proof.
  cbv zeta. split_all; try (vm_compute; reflexivity).
  vm_compute. discriminate.
Qed.

Local Open Scope Z_scope.

(** ** The files of [build] as [PianoSynth] loads them *)

Lemma decimal_digit_code (d : Z) :
  0 <= d < 10 -> is_decimal (decimal_digit d) = true /\ code (decimal_digit d) = 48 + d.
Proof.
  intros H.
  assert (C : d = 0 \/ d = 1 \/ d = 2 \/ d = 3 \/ d = 4 \/ d = 5 \/ d = 6
              \/ d = 7 \/ d = 8 \/ d = 9) by lia.
  repeat (destruct C as [-> | C]; [split; reflexivity |]).
  subst. split; reflexivity.
Qed.

Lemma digits_value_snoc (ds : str) (c : ascii) :
  digits_value (ds ++ [c]) = 10 * digits_value ds + (code c - 48).
Proof.
  unfold digits_value. now rewrite fold_left_app.
Qed.

Lemma digits_of_spec (fuel : nat) :
  forall n acc,
    0 <= n -> (Z.to_nat n < fuel)%nat ->
    exists ds, digits_of fuel n acc = ds ++ acc
               /\ ds <> []
               /\ forallb is_decimal ds = true
               /\ digits_value ds = n.
Proof.
  induction fuel as [| f IH]; intros n acc Hn Hf; [lia |].
  cbn [digits_of].
  assert (Hm : 0 <= n mod 10 < 10) by (apply Z.mod_pos_bound; lia).
  destruct (decimal_digit_code _ Hm) as [Hd Hc].
  destruct (Z.ltb_spec n 10) as [Hlt | Hge].
  - exists [decimal_digit (n mod 10)]. split; [reflexivity |].
    split; [discriminate |]. split; [cbn [forallb]; now rewrite Hd |].
    unfold digits_value. cbn [fold_left]. rewrite Hc.
    rewrite Z.mod_small by lia. lia.
  - assert (Hq : 0 <= n / 10 < n).
    { split; [apply Z.div_pos; lia | apply Z.div_lt; lia]. }
    destruct (IH (n / 10) (decimal_digit (n mod 10) :: acc)) as (ds & E & Hne & Hall & Hv).
    + lia.
    + lia.
    + exists (ds ++ [decimal_digit (n mod 10)]). split; [| split; [| split]].
      * now rewrite E, <- app_assoc.
      * intros E'. now apply app_eq_nil in E' as [_ E'].
      * rewrite forallb_app, Hall. cbn [forallb]. now rewrite Hd.
      * rewrite digits_value_snoc, Hv, Hc.
        pose proof (Z.div_mod n 10). lia.
Qed.

Lemma py_str_spec (n : Z) :
  0 <= n ->
  py_str n <> [] /\ forallb is_decimal (py_str n) = true
  /\ digits_value (py_str n) = n.
Proof.
  intros Hn. unfold py_str.
  destruct (Z.ltb_spec n 0); [lia |].
  destruct (digits_of_spec (S (Z.to_nat n)) n [] Hn) as (ds & E & H1 & H2 & H3);
    [lia |].
  rewrite E, app_nil_r. auto.
Qed.

Lemma startswith_app (p s : str) : startswith (p ++ s) p = true.
Proof.
  induction p as [| c r IH]; cbn [app startswith].
  - now destruct s.
  - now rewrite Ascii.eqb_refl.
Qed.

Lemma endswith_app (s p : str) : endswith (s ++ p) p = true.
Proof.
  unfold endswith. rewrite rev_app_distr. apply startswith_app.
Qed.

Lemma load_sound_keeps (readable : str -> bool) (sounds : gmap Z str)
    (f : str) (n : Z) :
  is_Some (sounds !! n) -> is_Some (load_sound readable sounds f !! n).
Proof.
  intros H. unfold load_sound.
  destruct (endswith f (lit ".wav")); [| exact H].
  destruct (py_int (splitext_root f)) as [m |]; [| exact H].
  destruct (readable (sound_path f)); [| exact H].
  destruct (decide (m = n)) as [-> | Hne].
  - rewrite lookup_insert_eq. eauto.
  - now rewrite lookup_insert_ne.
Qed.

Lemma load_sounds_keep (readable : str -> bool) (listing : list str) (n : Z) :
  forall sounds,
    is_Some (sounds !! n) ->
    is_Some (fold_left (load_sound readable) listing sounds !! n).
Proof.
  induction listing as [| f r IH]; intros sounds H; cbn [fold_left].
  - exact H.
  - apply IH. now apply load_sound_keeps.
Qed.

Lemma load_sound_dst (readable : str -> bool) (sounds : gmap Z str) (n : Z) :
  0 <= n -> readable (sound_path (dst_name n)) = true ->
  is_Some (load_sound readable sounds (dst_name n) !! n).
Proof.
  intros Hn Hr. destruct (py_str_spec n Hn) as (H1 & H2 & H3).
  unfold load_sound, dst_name in *. rewrite endswith_app, splitext_wav.
  - rewrite (py_int_decimal _ H1 H2), H3, Hr, lookup_insert_eq. eauto.
  - exact H1.
  - apply (decimal_not_In _ "."%char H2). cbn. tauto.
Qed.

(** X25: the file that [build] writes for a key [n >= 0] carries a name
    that [PianoSynth] reads back as [n]: whenever the listing of the
    output folder holds that name and the mixer accepts the file,
    [self.sounds] has an entry for [n], so [play] takes the sample
    branch for that key and not the generated tone. *)
Theorem built_file_loaded_for_its_key
    (readable : str -> bool) (listing : list str) (n : Z) :
  0 <= n ->
  In (dst_name n) listing ->
  readable (sound_path (dst_name n)) = true ->
  is_Some (PianoSynth_init readable listing !! n).
Proof.
  intros Hn Hin Hr. unfold PianoSynth_init.
  generalize (∅ : gmap Z str) as sounds.
  induction listing as [| f r IH]; intros sounds; [destruct Hin |].
  cbn [fold_left]. destruct Hin as [-> | Hin].
  - apply load_sounds_keep. now apply load_sound_dst.
  - now apply IH.
Qed.

Lemma built_file_loaded_for_its_key_witness :
  is_Some (PianoSynth_init (fun _ => true)
             (map lit ["21.wav"; "60.wav"; "readme.txt"]%string) !! 60).
Proof.
  apply (built_file_loaded_for_its_key (fun _ => true)
           (map lit ["21.wav"; "60.wav"; "readme.txt"]%string) 60).
  - lia.
  - right. left. reflexivity.
  - reflexivity.
Defined.

Local Open Scope Q_scope.

(** ** Two notes of one pitch that overlap in the stream *)

Section After.
Variable key_map : gmap Z Key.
Variable ticks_per_beat : Z.
Hypothesis tpb_pos : (0 < ticks_per_beat)%Z.
Variables (p : Z) (T0 : Q) (base : list FallingNote).

Lemma close_note_opened_after (st : parser) (now : Q) (note : Z) :
opened_after p T0 base st -> T0 <= now ->
opened_after p T0 base (close_note key_map now st note).
Proof.
intros (Ht & Hc & Ha & extra & He & Hx) Hnow. unfold close_note.
destruct (active_notes st !! note) as [[s v] |] eqn:E.
- split; [exact Ht |]. split; [exact Hnow |]. split.
  + cbn [active_notes]. intros s' v' H.
    apply lookup_delete_Some in H as [_ H]. eauto.
  + cbn [notes_list]. destruct (key_map !! note).
    * exists (extra ++ [FallingNote.init note s now (inject_Z v / 127)]).
      split; [now rewrite He, app_assoc |].
      intros n Hin Hm. apply in_app_iff in Hin as [Hin | [<- | []]]; [eauto |].
      cbn in Hm. subst note. cbn. eauto.
    * exists extra. split; assumption.
- split; [exact Ht |]. split; [exact Hnow |]. split; [exact Ha |].
  exists extra. split; assumption.
Qed.

Lemma parse_msg_opened_after (st : parser) (m : msg) :
wf_msg m -> opened_after p T0 base st ->
opened_after p T0 base (parse_msg key_map ticks_per_beat st m).
Proof.
intros [Hd Hm] Hinv. pose proof Hinv as (Ht & Hc & Ha & extra & He & Hx).
assert (Hnow : T0 <= current_time_sec st
                     + tick2second (msg_time m) ticks_per_beat (current_tempo st)).
{ pose proof (tick2second_nonneg _ _ _ Hd Ht tpb_pos). lra. }
destruct m as [d tempo | d note vel | d note vel | d]; cbn [parse_msg msg_time] in *.
- split; [exact Hm |]. split; [exact Hnow |]. split; [exact Ha |].
  exists extra. split; assumption.
- destruct (0 <? vel)%Z.
  + split; [exact Ht |]. split; [exact Hnow |]. split.
    * cbn [active_notes]. intros s v H.
      destruct (decide (note = p)) as [-> | Hne].
      -- rewrite lookup_insert_eq in H. injection H as <- <-. exact Hnow.
      -- rewrite lookup_insert_ne in H by exact Hne. eauto.
    * exists extra. split; assumption.
  + now apply close_note_opened_after.
- now apply close_note_opened_after.
- split; [exact Ht |]. split; [exact Hnow |]. split; [exact Ha |].
  exists extra. split; assumption.
Qed.

Lemma fold_opened_after (more : list msg) :
Forall wf_msg more ->
forall st, opened_after p T0 base st ->
           opened_after p T0 base
             (fold_left (parse_msg key_map ticks_per_beat) more st).
Proof.
induction 1 as [| m r Hm _ IH]; intros st Hst; cbn [fold_left]; [exact Hst |].
apply IH. now apply parse_msg_opened_after.
Qed.

(** The state after note-on, note-on, note-off, note-off on one pitch. *)
Lemma parse_pair (st : parser) (d1 d2 d3 d4 v1 v2 v3 v4 : Z) (k : Key) :
key_map !! p = Some k -> (0 < v1)%Z -> (0 < v2)%Z ->
let t1 := current_time_sec st
          + tick2second d1 ticks_per_beat (current_tempo st) in
let t2 := t1 + tick2second d2 ticks_per_beat (current_tempo st) in
let t3 := t2 + tick2second d3 ticks_per_beat (current_tempo st) in
let t4 := t3 + tick2second d4 ticks_per_beat (current_tempo st) in
let st' := fold_left (parse_msg key_map ticks_per_beat)
             [note_on d1 p v1; note_on d2 p v2; note_off d3 p v3;
              note_off d4 p v4] st in
notes_list st'
= notes_list st ++ [FallingNote.init p t2 t3 (inject_Z v2 / 127)]
/\ active_notes st' !! p = None
/\ current_time_sec st' = t4
/\ current_tempo st' = current_tempo st.
Proof.
intros Hk Hv1 Hv2. cbv zeta. apply Z.ltb_lt in Hv1, Hv2.
cbn [fold_left parse_msg msg_time]. rewrite Hv1.
cbn [parse_msg msg_time current_time_sec current_tempo active_notes
     notes_list tempo_map]. rewrite Hv2.
unfold close_note.
cbn [current_time_sec current_tempo active_notes notes_list tempo_map].
rewrite lookup_insert_eq, Hk.
cbn [current_time_sec current_tempo active_notes notes_list tempo_map].
rewrite lookup_delete_eq.
cbn [current_time_sec current_tempo active_notes notes_list tempo_map].
rewrite lookup_delete_eq. repeat split; reflexivity.
Qed.
End After.

(** *** The flags in a forward run from time 0 *)

Lemma steps_ok_None (t' : option Q) (times : list Q) :
  steps_ok t' times -> steps_ok None times.
Proof.
  destruct times as [| t r]; [trivial |]. intros [_ H]. split; [exact I | exact H].
Qed.

Lemma loop_hit_step (t0 t : Q) (notes : list FallingNote) :
  ordered_notes notes -> t0 <= t -> t <= t0 + 1 ->
  Forall (fun n => FallingNote.start_time n < t0 -> FallingNote.hit n = true)
    notes ->
  Forall (fun n => FallingNote.start_time n <= t -> FallingNote.hit n = true)
    (loop_notes t notes).
Proof.
  intros [Hsort Hdur] H0 H1 Hall. apply List.Forall_forall. intros n' Hin Hs.
  destruct (In_nth_error _ _ Hin) as [k Hk].
  destruct (Forall2_nth_back _ _ k n' (loop_notes_progress t notes) Hk)
    as (w & Hw & ((_ & Es & Ee & _) & Hh & _)).
  rewrite List.Forall_forall in Hall, Hdur.
  pose proof (Hdur w (nth_error_In _ _ Hw)) as Hse.
  destruct (Qlt_le_dec (FallingNote.start_time w) t0) as [Hlt | Hge].
  - apply Hh. apply Hall; [eapply nth_error_In; exact Hw | exact Hlt].
  - rewrite Es in Hs.
    assert (Hr : nth_error (loop_notes t notes) k = Some (visit_note t w))
      by (apply loop_notes_reached; [exact Hsort | exact Hw | exact Hs | lra]).
    rewrite Hk in Hr. injection Hr as ->.
    now destruct (visit_note_hit t w Hs).
Qed.

Lemma play_hit_by (times : list Q) :
  forall (t0 t : Q) (notes : list FallingNote),
    ordered_notes notes -> steps_ok (Some t0) (times ++ [t]) ->
    Forall (fun n => FallingNote.start_time n < t0 -> FallingNote.hit n = true)
      notes ->
    Forall (fun n => FallingNote.start_time n <= t -> FallingNote.hit n = true)
      (play_notes (times ++ [t]) notes).
Proof.
  induction times as [| t1 r IH]; intros t0 t notes Hord Hsteps Hall;
    cbn [app play_notes].
  - destruct Hsteps as [[Ha Hb] _]. now apply (loop_hit_step t0).
  - destruct Hsteps as [[Ha Hb] Hrest].
    apply (IH t1); [| exact Hrest |].
    + eapply ordered_notes_progress; [apply loop_notes_progress | exact Hord].
    + pose proof (loop_hit_step t0 t1 notes Hord Ha Hb Hall) as H.
      revert H. apply List.Forall_impl. intros n Hn Hlt. apply Hn. lra.
Qed.

Lemma play_flags_exact (times : list Q) (t : Q) (notes : list FallingNote) :
  ordered_notes notes -> steps_ok (Some 0) (times ++ [t]) ->
  Forall fresh notes ->
  Forall (fun n => 0 <= FallingNote.start_time n) notes ->
  Forall (flags_exact t) (play_notes (times ++ [t]) notes).
Proof.
  intros Hord Hsteps Hfresh Hpos.
  assert (Hat : Forall (flags_at t) (play_notes (times ++ [t]) notes)).
  { apply (play_flags_at times None); [exact Hord | | exact Hfresh].
    now apply (steps_ok_None (Some 0)). }
  assert (Hby : Forall (fun n => FallingNote.start_time n <= t ->
                                 FallingNote.hit n = true)
                  (play_notes (times ++ [t]) notes)).
  { apply (play_hit_by times 0); [exact Hord | exact Hsteps |].
    revert Hpos. apply List.Forall_impl. intros n Hn Hlt. lra. }
  assert (Hord' : ordered_notes (play_notes (times ++ [t]) notes))
    by (eapply ordered_notes_progress; [apply play_notes_progress | exact Hord]).
  destruct Hord' as [_ Hdur].
  rewrite List.Forall_forall in Hat, Hby, Hdur. apply List.Forall_forall.
  intros n Hin. specialize (Hat n Hin). specialize (Hby n Hin).
  specialize (Hdur n Hin). destruct Hat as (A1 & A2 & A3).
  split; split.
  - intros Hh. destruct (Qlt_le_dec t (FallingNote.start_time n)) as [Hlt | ?];
      [| assumption].
    destruct (A1 Hlt) as [Hf _]. congruence.
  - exact Hby.
  - intros Hp. destruct (Qlt_le_dec t (FallingNote.end_time n)) as [Hlt | ?];
      [| assumption].
    destruct (Qlt_le_dec t (FallingNote.start_time n)) as [Hs | Hs].
    + destruct (A1 Hs) as [_ Hf]. congruence.
    + destruct (A2 Hs Hlt) as [_ Hf]. congruence.
  - intros He. assert (Hs : FallingNote.start_time n <= t) by lra.
    destruct (A3 Hs He) as [E _]. rewrite <- E. now apply Hby.
Qed.

(** *** Counting notes by their times *)

Lemma counts_by_flags (q : Z) (t : Q) (a b : list FallingNote) :
  Forall2 note_progress a b -> Forall fresh a -> Forall (flags_exact t) b ->
  (unhit q a = unhit q b + started q t a
   /\ unplayed q a = unplayed q b + ended q t a)%nat.
Proof.
  intros H. induction H as [| x y la lb Hxy Hl IH]; intros Hf He.
  - split; reflexivity.
  - inversion Hf as [| ? ? [Fh Fp] Hf']; subst.
    inversion He as [| ? ? [Eh Ep] He']; subst.
    destruct (IH Hf' He') as [I1 I2].
    destruct Hxy as ((Em & Es & Ee & _) & _).
    rewrite (unhit_cons q x la), (unhit_cons q y lb),
      (unplayed_cons q x la), (unplayed_cons q y lb).
    unfold started, ended, unhit, unplayed in *. cbn [List.filter].
    rewrite Em, Fh, Fp. rewrite Es in Eh. rewrite Ee in Ep.
    destruct (Z.eqb (FallingNote.midi x) q); cbn [andb negb length];
      [| split; lia].
    split.
    + destruct (Qle_boolP (FallingNote.start_time x) t) as [Hle | Hnle].
      * rewrite (proj2 Eh Hle). cbn [negb length]. lia.
      * destruct (FallingNote.hit y); [destruct Hnle; now apply Eh |].
        cbn [negb length]. lia.
    + destruct (Qle_boolP (FallingNote.end_time x) t) as [Hle | Hnle].
      * rewrite (proj2 Ep Hle). cbn [negb length]. lia.
      * destruct (FallingNote.playing y); [destruct Hnle; now apply Ep |].
        cbn [negb length]. lia.
Qed.

Lemma filter_none {A} (f : A -> bool) (l : list A) :
  (forall x, In x l -> f x = false) -> List.filter f l = [].
Proof.
  induction l as [| x r IH]; intros H; cbn [List.filter]; [reflexivity |].
  rewrite (H x (or_introl eq_refl)). apply IH. intros y Hy. apply H. now right.
Qed.

Lemma active_count_wf (q : Z) (u : Q) (l : list FallingNote) :
  StronglySorted note_before l -> (active_count q u l <= 1)%nat.
Proof.
  unfold active_count. induction 1 as [| x r Hr IH Hx]; cbn [List.filter length];
    [lia |].
  destruct (Z.eqb_spec (FallingNote.midi x) q) as [Hm | Hm]; cbn [andb]; [| exact IH].
  destruct (Qle_boolP (FallingNote.start_time x) u) as [Hs | Hs]; cbn [andb];
    [| exact IH].
  destruct (Qlt_boolP u (FallingNote.end_time x)) as [He | He]; [| exact IH].
  rewrite filter_none; [cbn; lia |].
  intros y Hy. rewrite List.Forall_forall in Hx. destruct (Hx y Hy) as [_ Hb].
  destruct (Z.eqb_spec (FallingNote.midi y) q) as [Hmy | Hmy]; [| reflexivity].
  cbn [andb]. assert (Hxy : FallingNote.end_time x <= FallingNote.start_time y)
    by (apply Hb; congruence).
  destruct (Qle_boolP (FallingNote.start_time y) u); [lra | reflexivity].
Qed.

Lemma active_count_spans (q : Z) (t : Q) (l : list FallingNote) :
  (0 < active_count q t l)%nat <-> spans q t l.
Proof.
  unfold active_count, spans. split.
  - intros H.
    destruct (List.filter _ l) as [| n r] eqn:E; [cbn in H; lia |].
    assert (Hin : In n (List.filter
                          (fun n => Z.eqb (FallingNote.midi n) q
                                    && Qle_bool (FallingNote.start_time n) t
                                    && Qlt_bool t (FallingNote.end_time n)) l))
      by (rewrite E; now left).
    apply List.filter_In in Hin as [Hin Hf].
    apply andb_true_iff in Hf as [Hf H3]. apply andb_true_iff in Hf as [H1 H2].
    exists n. split; [exact Hin |]. split; [now apply Z.eqb_eq |].
    split.
    + now destruct (Qle_boolP (FallingNote.start_time n) t).
    + now destruct (Qlt_boolP t (FallingNote.end_time n)).
  - intros (n & Hin & Hm & Hs & He).
    assert (Hf : In n (List.filter
                         (fun n => Z.eqb (FallingNote.midi n) q
                                   && Qle_bool (FallingNote.start_time n) t
                                   && Qlt_bool t (FallingNote.end_time n)) l)).
    { apply List.filter_In. split; [exact Hin |].
      rewrite (proj2 (Z.eqb_eq _ _) Hm). cbn [andb].
      destruct (Qle_boolP (FallingNote.start_time n) t); [| contradiction].
      destruct (Qlt_boolP t (FallingNote.end_time n)); [reflexivity | contradiction]. }
    destruct (List.filter _ l); [destruct Hf | cbn; lia].
Qed.

(** C1 (amended): the key has a boolean flag and no count, and the
    builder keeps one open note per pitch.  For two notes of one pitch
    that overlap in the stream (note-on, note-on, note-off, note-off)
    the builder emits a single note, from the second note-on to the
    first note-off; whatever comes before and after, no time is spanned
    by two built notes of one pitch.  In a run from time 0 that never
    moves back and advances by at most a second per frame, a key is
    pressed exactly when that count is 1, [press] has been called once
    for each built note of the pitch that has started and [release]
    once for each that has ended; so the key of the pair is pressed
    from the second note-on to the first note-off and released from
    the first note-off on, before the last note-off has come. *)
Theorem overlapping_pair_one_note (ticks_per_beat : Z) (msgs more : list msg)
    (d1 d2 d3 d4 p v1 v2 v3 v4 : Z) (times : list Q) (t : Q) :
  (0 < ticks_per_beat)%Z -> Forall wf_msg msgs -> Forall wf_msg more ->
  (0 <= d1)%Z -> (0 <= d2)%Z -> (0 <= d3)%Z -> (0 <= d4)%Z ->
  (21 <= p <= 108)%Z -> (0 < v1)%Z -> (0 < v2)%Z ->
  steps_ok (Some 0) (times ++ [t]) ->
  let st := parse_loop setup_keys ticks_per_beat msgs in
  let t1 := current_time_sec st
            + tick2second d1 ticks_per_beat (current_tempo st) in
  let t2 := t1 + tick2second d2 ticks_per_beat (current_tempo st) in
  let t3 := t2 + tick2second d3 ticks_per_beat (current_tempo st) in
  let t4 := t3 + tick2second d4 ticks_per_beat (current_tempo st) in
  let pair := [note_on d1 p v1; note_on d2 p v2; note_off d3 p v3;
               note_off d4 p v4] in
  let notes := fst (parse_midi ticks_per_beat (msgs ++ pair ++ more)) in
  let r := play (times ++ [t]) notes setup_keys in
  notes_list (parse_loop setup_keys ticks_per_beat (msgs ++ pair))
  = notes_list st ++ [FallingNote.init p t2 t3 (inject_Z v2 / 127)]
  /\ (forall q u, (active_count q u notes <= 1)%nat)
  /\ (forall q, (21 <= q <= 108)%Z ->
        pressed (run_keys r) q = Nat.eqb (active_count q t notes) 1
        /\ count_key_press q (run_signals r) = started q t notes
        /\ count_key_release q (run_signals r) = ended q t notes)
  /\ (t2 <= t -> t < t3 -> pressed (run_keys r) p = true)
  /\ (t3 <= t -> t < t4 -> pressed (run_keys r) p = false).
Proof.
  intros Htpb Hwf Hmore Hd1 Hd2 Hd3 Hd4 Hp Hv1 Hv2 Hsteps. cbv zeta.
  set (pair := [note_on d1 p v1; note_on d2 p v2; note_off d3 p v3;
                note_off d4 p v4]).
  assert (Hkp : is_Some (setup_keys !! p)) by now apply setup_keys_dom.
  destruct Hkp as [k Hk].
  pose proof (parse_loop_pair_inv setup_keys ticks_per_beat Htpb msgs Hwf)
    as (Pt & Pc & _ & Pn & _).
  assert (Epair : parse_loop setup_keys ticks_per_beat (msgs ++ pair)
                  = fold_left (parse_msg setup_keys ticks_per_beat) pair
                      (parse_loop setup_keys ticks_per_beat msgs))
    by (unfold parse_loop; now rewrite fold_left_app).
  assert (Eall : parse_loop setup_keys ticks_per_beat (msgs ++ pair ++ more)
                 = fold_left (parse_msg setup_keys ticks_per_beat) more
                     (parse_loop setup_keys ticks_per_beat (msgs ++ pair)))
    by (unfold parse_loop; now rewrite app_assoc, (fold_left_app _ (msgs ++ pair))).
  revert Pt Pc Pn Epair.
  generalize (parse_loop setup_keys ticks_per_beat msgs). intros st Pt Pc Pn Epair.
  destruct (parse_pair setup_keys ticks_per_beat p st d1 d2 d3 d4 v1 v2 v3 v4 k
              Hk Hv1 Hv2) as (L1 & L2 & L3 & L4).
  cbv zeta in L1, L2, L3, L4. fold pair in L1, L2, L3, L4.
  rewrite <- Epair in L1, L2, L3, L4.
  pose proof (tick2second_nonneg d1 ticks_per_beat _ Hd1 Pt Htpb) as N1.
  pose proof (tick2second_nonneg d2 ticks_per_beat _ Hd2 Pt Htpb) as N2.
  pose proof (tick2second_nonneg d3 ticks_per_beat _ Hd3 Pt Htpb) as N3.
  pose proof (tick2second_nonneg d4 ticks_per_beat _ Hd4 Pt Htpb) as N4.
  set (t1 := current_time_sec st
             + tick2second d1 ticks_per_beat (current_tempo st)) in *.
  set (t2 := t1 + tick2second d2 ticks_per_beat (current_tempo st)) in *.
  set (t3 := t2 + tick2second d3 ticks_per_beat (current_tempo st)) in *.
  set (t4 := t3 + tick2second d4 ticks_per_beat (current_tempo st)) in *.
  set (N := FallingNote.init p t2 t3 (inject_Z v2 / 127)) in *.
  (* the stream as a whole *)
  assert (Hstream : Forall wf_msg (msgs ++ pair ++ more)).
  { apply Forall_app. split; [exact Hwf |]. apply Forall_app. split; [| exact Hmore].
    repeat constructor; cbn; assumption. }
  destruct (built_list_wf_aux ticks_per_beat _ Htpb Hstream) as [Hw Hf].
  assert (Hafter : opened_after p t4 (notes_list st ++ [N])
                     (parse_loop setup_keys ticks_per_beat (msgs ++ pair ++ more))).
  { rewrite Eall. apply (fold_opened_after setup_keys ticks_per_beat Htpb);
      [exact Hmore |].
    split; [now rewrite L4 |]. split; [rewrite L3; apply Qle_refl |]. split.
    - intros s v H. rewrite L2 in H. discriminate H.
    - exists []. split; [now rewrite app_nil_r | intros n []]. }
  destruct Hafter as (_ & _ & _ & extra & Hex & Hstart).
  assert (Hin : forall n,
             In n (fst (parse_midi ticks_per_beat (msgs ++ pair ++ more)))
             <-> In n (notes_list st) \/ n = N \/ In n extra).
  { intros n. unfold parse_midi. cbn [fst].
    rewrite sort_by_start_In, Hex, !in_app_iff. cbn [In]. intuition. }
  revert Hw Hf Hin.
  generalize (fst (parse_midi ticks_per_beat (msgs ++ pair ++ more))).
  intros notes Hw Hf Hin.
  (* the run *)
  assert (Hfresh : Forall fresh notes)
    by (apply List.Forall_forall; intros n Hn; now destruct (Hf n Hn)).
  assert (Hpos : Forall (fun n => 0 <= FallingNote.start_time n) notes)
    by (apply List.Forall_forall; intros n Hn; now destruct (Hf n Hn)).
  assert (Hnone : steps_ok None (times ++ [t]))
    by now apply (steps_ok_None (Some 0)).
  assert (Hkeys : forall q, (21 <= q <= 108)%Z ->
            (pressed (run_keys (play (times ++ [t]) notes setup_keys)) q = true
             <-> spans q t notes)).
  { intros q Hq.
    destruct (play_key_state times None t notes setup_keys Hw Hnone Hfresh
                setup_keys_released q) as [H _].
    apply H. now apply setup_keys_dom. }
  assert (Hexact := play_flags_exact times t notes (wf_notes_ordered _ Hw)
                      Hsteps Hfresh Hpos).
  split; [exact L1 |]. split.
  { intros q u. apply active_count_wf. now destruct Hw. }
  split.
  { intros q Hq. split; [| split].
    - pose proof (active_count_wf q t notes (proj1 Hw)) as Hle.
      pose proof (active_count_spans q t notes) as Hsp.
      specialize (Hkeys q Hq).
      destruct (pressed _ q).
      + assert (0 < active_count q t notes)%nat by (apply Hsp, Hkeys; reflexivity).
        replace (active_count q t notes) with 1%nat by lia. reflexivity.
      + destruct (active_count q t notes) as [| [| c]]; [reflexivity | | lia].
        assert (false = true); [| discriminate]. apply Hkeys, Hsp. lia.
    - destruct (play_spec (times ++ [t]) notes setup_keys) as (km' & E & _ & _).
      rewrite E. unfold run_signals. cbn [snd].
      assert (Hkq : has_key setup_keys q = true)
        by (apply has_key_spec; now apply setup_keys_dom).
      destruct (play_key_counts q (has_key setup_keys) (times ++ [t]) Hkq notes)
        as [C1 _].
      destruct (counts_by_flags q t notes _ (play_notes_progress _ notes)
                  Hfresh Hexact) as [F1 _]. lia.
    - destruct (play_spec (times ++ [t]) notes setup_keys) as (km' & E & _ & _).
      rewrite E. unfold run_signals. cbn [snd].
      assert (Hkq : has_key setup_keys q = true)
        by (apply has_key_spec; now apply setup_keys_dom).
      destruct (play_key_counts q (has_key setup_keys) (times ++ [t]) Hkq notes)
        as [_ C2].
      destruct (counts_by_flags q t notes _ (play_notes_progress _ notes)
                  Hfresh Hexact) as [_ F2]. lia. }
  split.
  - intros Ha Hb. apply (Hkeys p Hp). exists N.
    split; [apply Hin; right; now left |]. split; [reflexivity |].
    split; [exact Ha | exact Hb].
  - intros Ha Hb. destruct (pressed _ p) eqn:E; [| reflexivity]. exfalso.
    apply (Hkeys p Hp) in E. destruct E as (n & Hn & Hm & Hs & He).
    apply Hin in Hn. destruct Hn as [Hn | [-> | Hn]].
    + destruct (Pn n Hn) as (_ & _ & Hend & _).
      unfold t4, t3, t2, t1 in *. lra.
    + change (FallingNote.end_time N) with t3 in He. lra.
    + pose proof (Hstart n Hn Hm). lra.
Qed.

Lemma overlapping_pair_one_note_witness :
  let msgs := [note_on 0 62 70; note_off 480 62 0] in
  let pair := [note_on 0 60 80; note_on 960 60 80; note_off 960 60 0;
               note_off 960 60 0] in
  let more := [note_on 480 60 90; note_off 480 60 0] in
  let times := [1 # 2; 1; 3 # 2; 2; 5 # 2] in
  let notes := fst (parse_midi 480 (msgs ++ pair ++ more)) in
  (Forall wf_msg msgs /\ Forall wf_msg more /\ steps_ok (Some 0) (times ++ [3]))
  /\ length notes = 3%nat
  /\ pressed (run_keys (play (times ++ [3]) notes setup_keys)) 60 = false.
Proof.
  intros msgs pair more times notes.
  assert (H1 : Forall wf_msg msgs) by (repeat constructor; cbn; lia).
  assert (H2 : Forall wf_msg more) by (repeat constructor; cbn; lia).
  assert (H3 : steps_ok (Some 0) (times ++ [3]))
    by (cbn [times app steps_ok step_ok]; repeat split; lra).
  split; [split; [exact H1 | split; [exact H2 | exact H3]] |].
  split; [vm_compute; reflexivity |].
  destruct (overlapping_pair_one_note 480 msgs more 0 960 960 960 60 80 80 0 0
              times 3 ltac:(lia) H1 H2 ltac:(lia) ltac:(lia) ltac:(lia)
              ltac:(lia) ltac:(lia) ltac:(lia) ltac:(lia) H3)
    as (_ & _ & _ & _ & W).
  apply W; vm_compute; [discriminate | reflexivity].
Defined.

(** C1, as stated, fails: a stream with two notes on pitch 60 that
    overlap, [0,2) and [1,3) (note-on at 0, note-on at 1, note-off at 2,
    note-off at 3), gives one built note, [1,2).  With frames every
    100 ms the key is not pressed at 0.5, is pressed at 1.5, is released
    at 2.0 by the one [release] call of the run, and stays released at
    2.5 and 3.0: it is not held until the last note-off at 3. *)
Lemma overlapping_notes_released_at_first_off :
  let msgs := [note_on 0 60 80; note_on 960 60 80; note_off 960 60 0;
               note_off 960 60 0] in
  let built := parse_midi 480 msgs in
  let run k := main_loop (snd built) ((0%Z, []) :: steady k)
                 (game_init (fst built)) in
  (exists n, fst built = [n] /\ FallingNote.midi n = 60%Z
             /\ FallingNote.start_time n == 1 /\ FallingNote.end_time n == 2)
  /\ (playback_time (g_clock (run 5%nat)) == 1 # 2
      /\ pressed (g_keys (run 5%nat)) 60 = false)
  /\ (playback_time (g_clock (run 15%nat)) == 3 # 2
      /\ pressed (g_keys (run 15%nat)) 60 = true)
  /\ (playback_time (g_clock (run 20%nat)) == 2
      /\ pressed (g_keys (run 20%nat)) 60 = false
      /\ count_key_release 60 (g_log (run 20%nat)) = 1%nat)
  /\ (playback_time (g_clock (run 25%nat)) == 5 # 2
      /\ pressed (g_keys (run 25%nat)) 60 = false)
  /\ (playback_time (g_clock (run 30%nat)) == 3
      /\ pressed (g_keys (run 30%nat)) 60 = false
      /\ count_key_press 60 (g_log (run 30%nat)) = 1%nat
      /\ count_key_release 60 (g_log (run 30%nat)) = 1%nat).
Proof.
  cbv zeta. split; [eexists |]; split_all; vm_compute; reflexivity.
Qed.
